(** * findVideos.js: the harvesting-and-matching engine

    A shallow embedding of the pure core of [src/findVideos.js]: the
    timestamp codec ([timestampToSeconds], [secondsToTimestamp]), the keyword
    position estimate, the selector cascade ([getAllVideoElements]), the
    scroll loop, the link deduplication, the keyword matcher with its
    duplicate filter, and the per-candidate driver loop.

    Conventions of the model.
    - A JavaScript string is a [string]: a sequence of code units below 256
      (the Latin-1 range), which is where [toLowerCase] and the
      case-insensitive comparison of regular expressions act one code unit at
      a time.
    - A JavaScript number is a [JsNumber]: [NaN], an infinity, or an exact
      rational kept in lowest terms.  Arithmetic is exact: the rounding and
      the overflow of IEEE doubles are not modelled, so the model agrees with
      the engine wherever the values involved are doubles (every integer
      below 2^53 is).  The sign of zero is not kept; the program never
      observes it.
    - The results of [Math.floor] and [Math.round] are [JsIntegral]: an
      integer, [NaN] or an infinity.  Only those are ever converted to text.
    - The browser (DOM queries, navigation, clicks) is a parameter. *)

From Stdlib Require Import ZArith QArith Qround String Ascii List Lia.
From stdpp Require Import base gmap strings list.

Local Open Scope string_scope.
Local Open Scope Z_scope.
Local Open Scope list_scope.

(** ** Code units *)

Module Char.

Definition code (c : ascii) : N := N_of_ascii c.

Definition between (lo hi : N) (c : ascii) : bool :=
  ((lo <=? code c) && (code c <=? hi))%N.

(** [0-9] *)
Definition isDigit (c : ascii) : bool := between 48 57 c.

(** [a-zA-Z0-9], the class the word-boundary pattern negates. *)
Definition isAlnum (c : ascii) : bool :=
  between 97 122 c || between 65 90 c || isDigit c.

(** White space that [Number] and [trim] strip: TAB, LF, VT, FF, CR, SP
    and NBSP. *)
Definition isSpace (c : ascii) : bool :=
  between 9 13 c || (code c =? 32)%N || (code c =? 160)%N.

(** Upper-case letters with a lower-case partner 32 code units above:
    A-Z, and À-Þ without the multiplication sign. *)
Definition isUpper (c : ascii) : bool :=
  between 65 90 c || (between 192 222 c && negb (code c =? 215)%N).

Definition isLower (c : ascii) : bool :=
  between 97 122 c || (between 224 254 c && negb (code c =? 247)%N).

Definition toLower (c : ascii) : ascii :=
  if isUpper c then ascii_of_N (code c + 32) else c.

(** Canonicalize of the regular-expression semantics under the [i] flag:
    the upper-case partner when it is a single code unit of the same
    range, the code unit itself otherwise.  The partners of µ and ÿ are
    above the range; in the engine too, each of the two is the same as no
    other code unit below 256. *)
Definition canonicalize (c : ascii) : ascii :=
  if isLower c then ascii_of_N (code c - 32) else c.

Definition digitValue (c : ascii) : Z := Z.of_N (code c) - 48.

Definition ofDigit (d : Z) : ascii := ascii_of_N (Z.to_N (d + 48)).

End Char.

(** ** Strings *)

Module Str.

(** [s.toLowerCase()] on a text of code units below 256: the letters A to
    Z and À to Þ go to their partners, one code unit for one; nothing
    else changes.  Above that range the conversion of the engine depends
    on the context and may change the length; such texts are not
    modelled. *)
Fixpoint toLowerCase (s : string) : string :=
  match s with
  | EmptyString => EmptyString
  | String c s' => String (Char.toLower c) (toLowerCase s')
  end.

Fixpoint startsWith (p s : string) : bool :=
  match p, s with
  | EmptyString, _ => true
  | String a p', String b s' => Ascii.eqb a b && startsWith p' s'
  | String _ _, EmptyString => false
  end.

(** [s.indexOf(p)] from position 0 on; [i] is the index of the head of
    [s] in the whole string; the result is -1 when [p] does not occur. *)
Fixpoint indexOfFrom (i : Z) (p s : string) : Z :=
  if startsWith p s then i
  else match s with
       | EmptyString => -1
       | String _ s' => indexOfFrom (i + 1) p s'
       end.

Definition indexOf (s p : string) : Z := indexOfFrom 0 p s.

(** [s.includes(p)] *)
Fixpoint includes (s p : string) : bool :=
  startsWith p s ||
  match s with
  | EmptyString => false
  | String _ s' => includes s' p
  end.

(** [s.split(sep)] for a separator of one code unit: never empty. *)
Fixpoint split (sep : ascii) (s : string) : list string :=
  match s with
  | EmptyString => [EmptyString]
  | String c s' =>
      if Ascii.eqb c sep then EmptyString :: split sep s'
      else match split sep s' with
           | p :: ps => String c p :: ps
           | [] => [String c EmptyString]
           end
  end.

Fixpoint repeatStr (n : nat) (p : string) : string :=
  match n with
  | O => EmptyString
  | S n' => p +:+ repeatStr n' p
  end.

(** [s.padStart(n, pad)] *)
Definition padStart (n : nat) (pad s : string) : string :=
  let fill := (n - String.length s)%nat in
  String.substring 0 fill (repeatStr fill pad) +:+ s.

Fixpoint dropWhile (f : ascii -> bool) (s : string) : string :=
  match s with
  | EmptyString => EmptyString
  | String c s' => if f c then dropWhile f s' else s
  end.

Fixpoint rev_onto (acc s : string) : string :=
  match s with
  | EmptyString => acc
  | String c s' => rev_onto (String c acc) s'
  end.

Definition rev (s : string) : string := rev_onto EmptyString s.

(** [s.trim()] *)
Definition trim (s : string) : string :=
  rev (dropWhile Char.isSpace (rev (dropWhile Char.isSpace s))).

(** The longest prefix of code units satisfying [f], and the rest. *)
Fixpoint span (f : ascii -> bool) (s : string) : string * string :=
  match s with
  | EmptyString => (EmptyString, EmptyString)
  | String c s' =>
      if f c then let '(a, b) := span f s' in (String c a, b)
      else (EmptyString, s)
  end.

Fixpoint all (f : ascii -> bool) (s : string) : bool :=
  match s with
  | EmptyString => true
  | String c s' => f c && all f s'
  end.

Fixpoint count (c : ascii) (s : string) : nat :=
  match s with
  | EmptyString => O
  | String d s' => (if Ascii.eqb d c then 1 else 0) + count c s'
  end.

End Str.

(** ** Numbers *)

Module Num.

Inductive JsNumber : Type :=
| NaN
| Infinity (negative : bool)
| Fin (q : Q).

(** What [Math.floor] and [Math.round] return. *)
Inductive JsIntegral : Type :=
| INaN
| IInfinity (negative : bool)
| IFin (z : Z).

Definition ofZ (z : Z) : JsNumber := Fin (inject_Z z).

(** The largest integer [n] such that [n] and [n + 1] are both numbers of
    the engine: 2^53 - 1. *)
Definition MAX_SAFE_INTEGER : Z := 9007199254740991.

Definition ofIntegral (i : JsIntegral) : JsNumber :=
  match i with
  | INaN => NaN
  | IInfinity s => Infinity s
  | IFin z => ofZ z
  end.

Definition isNeg (q : Q) : bool := Qnum q <? 0.
Definition isZero (q : Q) : bool := Qnum q =? 0.

Definition add (a b : JsNumber) : JsNumber :=
  match a, b with
  | NaN, _ | _, NaN => NaN
  | Infinity s, Infinity t => if Bool.eqb s t then Infinity s else NaN
  | Infinity s, Fin _ => Infinity s
  | Fin _, Infinity t => Infinity t
  | Fin p, Fin q => Fin (Qred (p + q)%Q)
  end.

Definition neg (a : JsNumber) : JsNumber :=
  match a with
  | NaN => NaN
  | Infinity s => Infinity (negb s)
  | Fin q => Fin (Qred (- q)%Q)
  end.

Definition sub (a b : JsNumber) : JsNumber := add a (neg b).

Definition mul (a b : JsNumber) : JsNumber :=
  match a, b with
  | NaN, _ | _, NaN => NaN
  | Infinity s, Infinity t => Infinity (xorb s t)
  | Infinity s, Fin q | Fin q, Infinity s =>
      if isZero q then NaN else Infinity (xorb s (isNeg q))
  | Fin p, Fin q => Fin (Qred (p * q)%Q)
  end.

(** Division; the divisors of the program are never a negative zero. *)
Definition div (a b : JsNumber) : JsNumber :=
  match a, b with
  | NaN, _ | _, NaN => NaN
  | Infinity _, Infinity _ => NaN
  | Infinity s, Fin q => Infinity (xorb s (isNeg q))
  | Fin _, Infinity _ => Fin 0
  | Fin p, Fin q =>
      if isZero q then (if isZero p then NaN else Infinity (isNeg p))
      else Fin (Qred (p / q)%Q)
  end.

(** Rounding towards zero. *)
Definition truncate (q : Q) : Z :=
  if isNeg q then - Qfloor (- q)%Q else Qfloor q.

(** The [%] operator: the remainder takes the sign of the dividend. *)
Definition rem (a b : JsNumber) : JsNumber :=
  match a, b with
  | Fin p, Fin q =>
      if isZero q then NaN
      else Fin (Qred (p - q * inject_Z (truncate (p / q)))%Q)
  | Fin p, Infinity _ => Fin p
  | _, _ => NaN
  end.

(** [a > b]: false as soon as one side is [NaN]. *)
Definition gt (a b : JsNumber) : bool :=
  match a, b with
  | NaN, _ | _, NaN => false
  | Infinity s, Infinity t => negb s && t
  | Infinity s, Fin _ => negb s
  | Fin _, Infinity t => t
  | Fin p, Fin q => match (p ?= q)%Q with Gt => true | _ => false end
  end.

(** [Math.floor] *)
Definition floor (a : JsNumber) : JsIntegral :=
  match a with
  | NaN => INaN
  | Infinity s => IInfinity s
  | Fin q => IFin (Qfloor q)
  end.

(** [Math.round]: the nearest integer, a tie going up. *)
Definition round (a : JsNumber) : JsIntegral :=
  match a with
  | NaN => INaN
  | Infinity s => IInfinity s
  | Fin q => IFin (Qfloor (q + (1 # 2))%Q)
  end.

(** *** Number to text *)

Fixpoint digitsFuel (fuel : nat) (n : Z) (acc : string) : string :=
  match fuel with
  | O => acc
  | S f =>
      let acc' := String (Char.ofDigit (n mod 10)) acc in
      if n / 10 =? 0 then acc' else digitsFuel f (n / 10) acc'
  end.

(** The decimal digits of a natural number; a number has no more decimal
    than binary digits, which bounds the recursion. *)
Definition digits (n : Z) : string :=
  digitsFuel (S (Z.to_nat (Z.log2 n))) n EmptyString.

(** [String(i)], [i.toString()] and the interpolation of [i] in a template,
    for the integers below 10^21, which print without an exponent. *)
Definition toString (i : JsIntegral) : string :=
  match i with
  | INaN => "NaN"
  | IInfinity false => "Infinity"
  | IInfinity true => "-Infinity"
  | IFin z => if z <? 0 then "-" +:+ digits (- z) else digits z
  end.

(** *** Text to number *)

Definition isHexDigit (c : ascii) : bool :=
  Char.isDigit c || Char.between 97 102 c || Char.between 65 70 c.
Definition isOctDigit (c : ascii) : bool := Char.between 48 55 c.
Definition isBinDigit (c : ascii) : bool := Char.between 48 49 c.

Definition hexValue (c : ascii) : Z :=
  if Char.isDigit c then Char.digitValue c
  else if Char.between 97 102 c then Z.of_N (Char.code c) - 87
  else Z.of_N (Char.code c) - 55.

Fixpoint valueFrom (base acc : Z) (s : string) : Z :=
  match s with
  | EmptyString => acc
  | String c s' => valueFrom base (acc * base + hexValue c) s'
  end.

Definition valueIn (base : Z) (s : string) : Z := valueFrom base 0 s.

Definition nonEmpty (s : string) : bool :=
  match s with EmptyString => false | _ => true end.

(** [0x..], [0o..], [0b..] once the prefix is removed. *)
Definition radixLiteral (base : Z) (isD : ascii -> bool) (ds : string)
  : JsNumber :=
  if nonEmpty ds && Str.all isD ds then ofZ (valueIn base ds) else NaN.

(** A sign in front of [s], and the rest. *)
Definition signed (s : string) : bool * string :=
  match s with
  | String c r =>
      if Ascii.eqb c "+" then (false, r)
      else if Ascii.eqb c "-" then (true, r)
      else (false, s)
  | EmptyString => (false, s)
  end.

(** ExponentPart, or nothing, up to the end of the text. *)
Definition exponentPart (s : string) : option Z :=
  match s with
  | EmptyString => Some 0
  | String c r =>
      if Ascii.eqb c "e" || Ascii.eqb c "E" then
        let '(n, ds) := signed r in
        if nonEmpty ds && Str.all Char.isDigit ds
        then Some (if n then - valueIn 10 ds else valueIn 10 ds)
        else None
      else None
  end.

(** StrUnsignedDecimalLiteral without [Infinity]: digits with an optional
    fraction and exponent, at least one digit in the mantissa. *)
Definition unsignedDecimal (s : string) : option Q :=
  let '(ip, r1) := Str.span Char.isDigit s in
  let '(fp, r2) :=
    match r1 with
    | String c r => if Ascii.eqb c "." then Str.span Char.isDigit r
                    else (EmptyString, r1)
    | EmptyString => (EmptyString, r1)
    end in
  if nonEmpty ip || nonEmpty fp then
    match exponentPart r2 with
    | Some e =>
        Some (inject_Z (valueIn 10 (ip +:+ fp))
              * Qpower (inject_Z 10) (e - Z.of_nat (String.length fp)))%Q
    | None => None
    end
  else None.

Definition dropPrefix (n : nat) (s : string) : string :=
  String.substring n (String.length s - n) s.

(** [Number(s)] on a string: StringToNumber.  The value is the exact one
    of the literal, which is the number of the engine when it is an
    integer up to 2^53. *)
Definition Number (s : string) : JsNumber :=
  let t := Str.trim s in
  if negb (nonEmpty t) then ofZ 0
  else if Str.startsWith "0x" t || Str.startsWith "0X" t
  then radixLiteral 16 isHexDigit (dropPrefix 2 t)
  else if Str.startsWith "0o" t || Str.startsWith "0O" t
  then radixLiteral 8 isOctDigit (dropPrefix 2 t)
  else if Str.startsWith "0b" t || Str.startsWith "0B" t
  then radixLiteral 2 isBinDigit (dropPrefix 2 t)
  else
    let '(n, u) := signed t in
    if String.eqb u "Infinity" then Infinity n
    else match unsignedDecimal u with
         | Some q => Fin (Qred (if n then (- q)%Q else q))
         | None => NaN
         end.

End Num.

Export Num.

(** ** TimeCodec *)

(** [timestampToSeconds]: [split(":")], [map(Number)], then the case on the
    number of parts. *)
Definition timestampToSeconds (timestamp : string) : JsNumber :=
  let parts := List.map Number (Str.split ":" timestamp) in
  match parts with
  | [h; m; s] => add (add (mul h (ofZ 3600)) (mul m (ofZ 60))) s
  | [m; s] => add (mul m (ofZ 60)) s
  | _ => ofZ 0
  end.

Definition pad2 (i : JsIntegral) : string :=
  Str.padStart 2 "0" (toString i).

(** [secondsToTimestamp] *)
Definition secondsToTimestamp (seconds : JsNumber) : string :=
  let hours := floor (div seconds (ofZ 3600)) in
  let minutes := floor (div (rem seconds (ofZ 3600)) (ofZ 60)) in
  let secs := floor (rem seconds (ofZ 60)) in
  if gt (ofIntegral hours) (ofZ 0)
  then pad2 hours +:+ ":" +:+ pad2 minutes +:+ ":" +:+ pad2 secs
  else pad2 minutes +:+ ":" +:+ pad2 secs.

(** [estimateKeywordPosition].  The quotient is the exact one; the engine
    returns the double nearest to it. *)
Definition estimateKeywordPosition (text keyword : string) : JsNumber :=
  let keywordLower := Str.toLowerCase keyword in
  let textLower := Str.toLowerCase text in
  let keywordIndex := Str.indexOf textLower keywordLower in
  if keywordIndex =? -1 then ofZ 0
  else div (ofZ keywordIndex) (ofZ (Z.of_nat (String.length textLower))).

(** ** Regular expressions

    [new RegExp(source, "i")] and [test], for the patterns built from
    characters, escaped characters, [.], character classes of characters and
    ranges, groups, [|], [^], [$] and the greedy quantifiers [*], [+], [?].
    [None] stands for a SyntaxError, or for a pattern outside this fragment
    (escapes of letters and digits, braces, lazy quantifiers, look-around). *)

Module RegExp.

Inductive token : Type :=
| TChar (c : ascii)
| TClass (negated : bool) (ranges : list (ascii * ascii))
| TOpen | TClose | TBar | TCaret | TDollar | TDot
| TStar | TPlus | TQuest.

Inductive lexMode : Type :=
| Outside
| InClass (negated : bool) (acc : list (ascii * ascii)).

Definition consTok (t : token) (r : option (list token))
  : option (list token) :=
  match r with
  | Some ts => Some (t :: ts)
  | None => None
  end.

Definition punctuation (c : ascii) : option token :=
  if Ascii.eqb c "(" then Some TOpen
  else if Ascii.eqb c ")" then Some TClose
  else if Ascii.eqb c "|" then Some TBar
  else if Ascii.eqb c "^" then Some TCaret
  else if Ascii.eqb c "$" then Some TDollar
  else if Ascii.eqb c "." then Some TDot
  else if Ascii.eqb c "*" then Some TStar
  else if Ascii.eqb c "+" then Some TPlus
  else if Ascii.eqb c "?" then Some TQuest
  else None.

(** The tokens of a pattern.  A backslash makes the next code unit a plain
    character when that one is neither a letter nor a digit. *)
Fixpoint lex (m : lexMode) (s : string) {struct s} : option (list token) :=
  match m, s with
  | Outside, EmptyString => Some []
  | InClass _ _, EmptyString => None
  | Outside, String c s' =>
      if Ascii.eqb c "\" then
        match s' with
        | String e s'' =>
            if Char.isAlnum e then None else consTok (TChar e) (lex Outside s'')
        | EmptyString => None
        end
      else if Ascii.eqb c "[" then
        match s' with
        | String e s'' =>
            if Ascii.eqb e "^" then lex (InClass true []) s''
            else lex (InClass false []) s'
        | EmptyString => None
        end
      else if Ascii.eqb c "{" then None
      else
        match punctuation c with
        | Some t => consTok t (lex Outside s')
        | None => consTok (TChar c) (lex Outside s')
        end
  | InClass n acc, String c s' =>
      if Ascii.eqb c "]" then consTok (TClass n (List.rev acc)) (lex Outside s')
      else if Ascii.eqb c "\" then None
      else
        match s' with
        | String d (String e s'') =>
            if Ascii.eqb d "-" && negb (Ascii.eqb e "]") then
              if Ascii.eqb e "\" || (Char.code e <? Char.code c)%N then None
              else lex (InClass n ((c, e) :: acc)) s''
            else lex (InClass n ((c, c) :: acc)) s'
        | _ => lex (InClass n ((c, c) :: acc)) s'
        end
  end.

Inductive regex : Type :=
| Eps
| Chr (c : ascii)
| AnyChar
| Class (negated : bool) (ranges : list (ascii * ascii))
| Bol
| Eol
| Group (r : regex)
| Seq (r1 r2 : regex)
| Alt (r1 r2 : regex)
| Star (r : regex)
| Plus (r : regex)
| Opt (r : regex).

(** A group being parsed: the alternatives already closed by a [|], and the
    terms of the current alternative, last one first. *)
Record frame : Type := Frame { alts : list regex; cur : list regex }.

Definition seqOf (terms : list regex) : regex :=
  List.fold_left (fun acc t => Seq t acc) terms Eps.

Definition disjOf (f : frame) : regex :=
  List.fold_right Alt (seqOf (cur f)) (alts f).

Definition pushAtom (a : regex) (stack : list frame) : option (list frame) :=
  match stack with
  | f :: rest => Some (Frame (alts f) (a :: cur f) :: rest)
  | [] => None
  end.

(** What a quantifier may follow: not an assertion, not a term that is
    quantified already. *)
Definition quantifiable (r : regex) : bool :=
  match r with
  | Chr _ | AnyChar | Class _ _ | Group _ => true
  | _ => false
  end.

Definition quantify (q : regex -> regex) (stack : list frame)
  : option (list frame) :=
  match stack with
  | Frame al (a :: terms) :: rest =>
      if quantifiable a then Some (Frame al (q a :: terms) :: rest) else None
  | _ => None
  end.

Definition step (stack : list frame) (t : token) : option (list frame) :=
  match t with
  | TChar c => pushAtom (Chr c) stack
  | TClass n rs => pushAtom (Class n rs) stack
  | TDot => pushAtom AnyChar stack
  | TCaret => pushAtom Bol stack
  | TDollar => pushAtom Eol stack
  | TOpen => Some (Frame [] [] :: stack)
  | TClose =>
      match stack with
      | f :: (_ :: _) as rest => pushAtom (Group (disjOf f)) rest
      | _ => None
      end
  | TBar =>
      match stack with
      | f :: rest => Some (Frame (alts f ++ [seqOf (cur f)])%list [] :: rest)
      | [] => None
      end
  | TStar => quantify Star stack
  | TPlus => quantify Plus stack
  | TQuest => quantify Opt stack
  end.

Fixpoint parseFrom (stack : list frame) (ts : list token) : option regex :=
  match ts with
  | [] =>
      match stack with
      | [f] => Some (disjOf f)
      | _ => None
      end
  | t :: ts' =>
      match step stack t with
      | Some stack' => parseFrom stack' ts'
      | None => None
      end
  end.

(** [new RegExp(source, "i")] *)
Definition compile (source : string) : option regex :=
  match lex Outside source with
  | Some ts => parseFrom [Frame [] []] ts
  | None => None
  end.

(** Two code units are the same under the [i] flag. *)
Definition sameChar (a b : ascii) : bool :=
  Ascii.eqb (Char.canonicalize a) (Char.canonicalize b).

Fixpoint codesFrom (lo : N) (n : nat) : list N :=
  match n with
  | O => []
  | S n' => lo :: codesFrom (lo + 1)%N n'
  end.

(** The code units of a range, both ends included. *)
Definition rangeChars (r : ascii * ascii) : list ascii :=
  List.map ascii_of_N
    (codesFrom (Char.code (fst r))
       (N.to_nat (Char.code (snd r) + 1 - Char.code (fst r)))).

(** A class under the [i] flag holds [d] when one of its members is the
    same as [d] up to case. *)
Definition inClass (ranges : list (ascii * ascii)) (d : ascii) : bool :=
  List.existsb (fun r => List.existsb (fun a => sameChar a d) (rangeChars r))
    ranges.

(** A place in the text: whether it is the very start, and what is left. *)
Definition place : Type := bool * string.

Definition advance (ok : ascii -> bool) (p : place) : list place :=
  match snd p with
  | String d rest => if ok d then [(false, rest)] else []
  | EmptyString => []
  end.

(** Repetition: every round has to consume something, so the length of what
    is left bounds the number of rounds. *)
Fixpoint repeatFrom (fuel : nat) (run : place -> list place) (p : place)
  : list place :=
  p :: match fuel with
       | O => []
       | S fuel' =>
           List.flat_map
             (fun q =>
                if (String.length (snd q) <? String.length (snd p))%nat
                then repeatFrom fuel' run q else [])
             (run p)
       end.

(** The places where a match of [r] that starts at [p] can end. *)
Fixpoint run (r : regex) (p : place) : list place :=
  match r with
  | Eps => [p]
  | Chr c => advance (sameChar c) p
  | AnyChar =>
      advance (fun d => negb (Ascii.eqb d "010" || Ascii.eqb d "013")) p
  | Class n rs => advance (fun d => xorb n (inClass rs d)) p
  | Bol => if fst p then [p] else []
  | Eol => match snd p with EmptyString => [p] | _ => [] end
  | Group r1 => run r1 p
  | Seq r1 r2 => List.flat_map (run r2) (run r1 p)
  | Alt r1 r2 => (run r1 p ++ run r2 p)%list
  | Star r1 => repeatFrom (String.length (snd p)) (run r1) p
  | Plus r1 =>
      List.flat_map
        (fun q => repeatFrom (String.length (snd q)) (run r1) q) (run r1 p)
  | Opt r1 => p :: run r1 p
  end.

Definition hasPlace (l : list place) : bool :=
  match l with
  | [] => false
  | _ => true
  end.

Definition matchesAt (r : regex) (p : place) : bool := hasPlace (run r p).

(** Whether a match starts at the head of [s] or further on. *)
Fixpoint searchFrom (r : regex) (atStart : bool) (s : string) : bool :=
  matchesAt r (atStart, s) ||
  match s with
  | EmptyString => false
  | String _ s' => searchFrom r false s'
  end.

(** [regex.test(text)] *)
Definition test (r : regex) (text : string) : bool := searchFrom r true text.

End RegExp.

(** ** Exceptions

    A computation completes with a value or throws.  What is thrown is an
    Error object, as the browser library and the engine throw them; its
    message is what the handler of the candidates prints. *)

Inductive result (A : Type) : Type :=
| Ok (a : A)
| Throw (message : string).

Arguments Ok {A} a.
Arguments Throw {A} message.

Definition bind {A B : Type} (m : result A) (k : A -> result B) : result B :=
  match m with
  | Ok a => k a
  | Throw e => Throw e
  end.

Notation "'do' x <- m ; k" := (bind m (fun x => k))
  (at level 10, x name, m at level 100, k at level 200).

(** A [for ... of] loop whose body may throw. *)
Fixpoint forOf {A S : Type} (body : S -> A -> result S) (l : list A) (s : S)
  : result S :=
  match l with
  | [] => Ok s
  | x :: l' => do s' <- body s x; forOf body l' s'
  end.

(** ** KeywordTimeMatcher *)

Module Segment.
Record t : Type := { timestamp : string; text : string }.
End Segment.

Module KeywordMatch.
Record t : Type := {
  keyword : string;
  originalTimestamp : string;
  preciseTimestamp : string;
  preciseTimeSeconds : JsIntegral;
  text : string;
  url : string
}.
End KeywordMatch.

Module VideoResult.
Record t : Type := {
  videoId : string;
  videoTitle : string;
  url : string;
  matches : list KeywordMatch.t
}.
End VideoResult.

(** The code units of [/[-\/\\^$*+?.()|[\]{}]/]. *)
Definition regexSpecial (c : ascii) : bool :=
  List.existsb (Ascii.eqb c) (list_ascii_of_string "-/\^$*+?.()|[]{}").

(** [s.replace(/[-\/\\^$*+?.()|[\]{}]/g, "\\$&")] *)
Fixpoint escapeRegExp (s : string) : string :=
  match s with
  | EmptyString => EmptyString
  | String c s' =>
      if regexSpecial c then String "\" (String c (escapeRegExp s'))
      else String c (escapeRegExp s')
  end.

Definition keywordRegexSource (keywordLower : string) : string :=
  "(^|[^a-zA-Z0-9])" +:+ escapeRegExp keywordLower +:+ "([^a-zA-Z0-9]|$)".

(** The search method chosen by [exactPhraseSearch]; [new RegExp] throws a
    SyntaxError on a source it cannot compile. *)
Definition keywordFound (exactPhraseSearch : bool)
    (segmentText keywordLower : string) : result bool :=
  if exactPhraseSearch then Ok (Str.includes segmentText keywordLower)
  else
    match RegExp.compile (keywordRegexSource keywordLower) with
    | Some keywordRegex => Ok (RegExp.test keywordRegex segmentText)
    | None => Throw "Invalid regular expression"
    end.

Section Matcher.

Variable videoUrl : string.
Variable keywords : list string.
Variable exactPhraseSearch : bool.
Variable segments : list Segment.t.

(** The body of [for (const keyword of keywords)].  The product and the
    sum under [Math.round] are the exact ones.  The engine rounds each of
    them to the nearest double: its second lies within the same bounds,
    and can be one off the one here when the exact sum is a half or next
    to one. *)
Definition keywordStep (segment : Segment.t)
    (startTimeSeconds segmentDuration : JsNumber)
    (keywordMatches : list KeywordMatch.t) (keyword : string)
  : result (list KeywordMatch.t) :=
  let segmentText := Str.toLowerCase (Segment.text segment) in
  let keywordLower := Str.toLowerCase keyword in
  do found <- keywordFound exactPhraseSearch segmentText keywordLower;
  if (found : bool) then
    let keywordPosition :=
      estimateKeywordPosition (Segment.text segment) keyword in
    let preciseTimeSeconds :=
      round (add startTimeSeconds (mul keywordPosition segmentDuration)) in
    let preciseTimestamp :=
      secondsToTimestamp (ofIntegral preciseTimeSeconds) in
    Ok (keywordMatches ++
        [ {| KeywordMatch.keyword := keyword;
             KeywordMatch.originalTimestamp := Segment.timestamp segment;
             KeywordMatch.preciseTimestamp := preciseTimestamp;
             KeywordMatch.preciseTimeSeconds := preciseTimeSeconds;
             KeywordMatch.text := Segment.text segment;
             KeywordMatch.url :=
               videoUrl +:+ "&t=" +:+ toString preciseTimeSeconds |} ])%list
  else Ok keywordMatches.

(** Reading a property of [segments[i]]: a TypeError out of range. *)
Definition segmentAt (i : nat) : result Segment.t :=
  match segments !! i with
  | Some segment => Ok segment
  | None => Throw "Cannot read properties of undefined"
  end.

(** The body of [for (let i = 0; i < segments.length; i++)]. *)
Definition segmentStep (keywordMatches : list KeywordMatch.t) (i : nat)
  : result (list KeywordMatch.t) :=
  do segment <- segmentAt i;
  let startTimeSeconds := timestampToSeconds (Segment.timestamp segment) in
  do endTimeSeconds <-
    (if Z.of_nat i <? Z.of_nat (length segments) - 1
     then do next <- segmentAt (i + 1);
          Ok (timestampToSeconds (Segment.timestamp next))
     else
       let avgSegmentDuration := ofZ 5 in
       Ok (add startTimeSeconds avgSegmentDuration));
  let segmentDuration := sub endTimeSeconds startTimeSeconds in
  forOf (keywordStep segment startTimeSeconds segmentDuration)
    keywords keywordMatches.

Definition findKeywordMatches : result (list KeywordMatch.t) :=
  forOf segmentStep (List.seq 0 (length segments)) [].

End Matcher.

(** The key of [seenCombinations]. *)
Definition matchKey (m : KeywordMatch.t) : string :=
  toString (KeywordMatch.preciseTimeSeconds m) +:+ ":" +:+ KeywordMatch.text m.

(** The body of [for (const match of keywordMatches)]: the state is
    [seenCombinations] and [uniqueMatches]. *)
Definition dedupStep (st : gmap string bool * list KeywordMatch.t)
    (m : KeywordMatch.t) : gmap string bool * list KeywordMatch.t :=
  let '(seenCombinations, uniqueMatches) := st in
  let key := matchKey m in
  match seenCombinations !! key with
  | None => (<[key := true]> seenCombinations, (uniqueMatches ++ [m])%list)
  | Some _ => (seenCombinations, uniqueMatches)
  end.

Definition filterDuplicates (keywordMatches : list KeywordMatch.t)
  : list KeywordMatch.t :=
  snd (List.fold_left dedupStep keywordMatches (∅, [])).

(** ** SelectorCascadeResolver and PaginatedCollector *)

Module Element.
Record t : Type := { href : string }.
End Element.

(** Multiple selectors to try, in order of preference. *)
Definition selectors : list string :=
  [ "a#video-title";
    "a.ytd-video-renderer";
    "a.yt-simple-endpoint";
    "ytd-video-renderer a";
    "ytd-compact-video-renderer a";
    "a[href*='/watch?v=']" ].

(** The filter of [getAllVideoElements]: an href that looks like a watch
    or a shorts URL. *)
Definition validElement (el : Element.t) : bool :=
  nonEmpty (Element.href el) &&
  (Str.includes (Element.href el) "/watch?v=" ||
   Str.includes (Element.href el) "/shorts/").

Definition maxScrollAttempts : nat := 20.
Definition maxConsecutiveNoChanges : nat := 3.
Definition targetCount : nat := 100.

Record LoopState (Dom : Type) : Type := {
  page : Dom;
  videoElements : list Element.t;
  previousLength : nat;
  scrollAttempts : nat;
  consecutiveNoChangeCount : nat
}.

Arguments page {Dom} _.
Arguments videoElements {Dom} _.
Arguments previousLength {Dom} _.
Arguments scrollAttempts {Dom} _.
Arguments consecutiveNoChangeCount {Dom} _.

(** The body of [videoElements.forEach]: the state is [uniqueUrls] and
    [uniqueLinks]. *)
Definition linkStep (st : gset string * list string) (a : Element.t)
  : gset string * list string :=
  let '(uniqueUrls, uniqueLinks) := st in
  if nonEmpty (Element.href a) && negb (bool_decide (Element.href a ∈ uniqueUrls))
  then ({[ Element.href a ]} ∪ uniqueUrls, (uniqueLinks ++ [Element.href a])%list)
  else (uniqueUrls, uniqueLinks).

Definition uniqueLinksOf (elements : list Element.t) : list string :=
  snd (List.fold_left linkStep elements (∅, [])).

Section Collector.

(** The document, what [document.querySelectorAll] finds in it, and what a
    round of scrolling and waiting makes of it. *)
Context {Dom : Type}.
Variable querySelectorAll : Dom -> string -> list Element.t.
Variable scrollAndWait : Dom -> Dom.

(** The loop of [getAllVideoElements] over the selectors left to try;
    [queried] records the selectors handed to [querySelectorAll] so far. *)
Fixpoint cascade (document : Dom) (toTry : list string) (queried : list string)
  : list Element.t * list string :=
  match toTry with
  | [] => ([], queried)
  | selector :: rest =>
      let found := querySelectorAll document selector in
      let queried' := (queried ++ [selector])%list in
      let validElements := List.filter validElement found in
      if (0 <? length validElements)%nat then (validElements, queried')
      else cascade document rest queried'
  end.

Definition getAllVideoElementsTraced (document : Dom)
  : list Element.t * list string :=
  cascade document selectors [].

Definition getAllVideoElements (document : Dom) : list Element.t :=
  fst (getAllVideoElementsTraced document).

Definition initialState (document : Dom) : LoopState Dom :=
  {| page := document;
     videoElements := getAllVideoElements document;
     previousLength := 0;
     scrollAttempts := 0;
     consecutiveNoChangeCount := 0 |}.

Definition loopCondition (st : LoopState Dom) : bool :=
  (length (videoElements st) <? targetCount)%nat
  && (scrollAttempts st <? maxScrollAttempts)%nat
  && (consecutiveNoChangeCount st <? maxConsecutiveNoChanges)%nat.

Definition loopBody (st : LoopState Dom) : LoopState Dom :=
  let previousLength' := length (videoElements st) in
  let page' := scrollAndWait (page st) in
  let videoElements' := getAllVideoElements page' in
  {| page := page';
     videoElements := videoElements';
     previousLength := previousLength';
     scrollAttempts := S (scrollAttempts st);
     consecutiveNoChangeCount :=
       if (length videoElements' =? previousLength')%nat
       then S (consecutiveNoChangeCount st) else 0%nat |}.

(** The [while] loop; [None] when the fuel runs out before the condition
    fails. *)
Fixpoint scrollLoop (fuel : nat) (st : LoopState Dom)
  : option (LoopState Dom) :=
  if loopCondition st then
    match fuel with
    | O => None
    | S fuel' => scrollLoop fuel' (loopBody st)
    end
  else Some st.

(** The links the page evaluation returns: [uniqueLinks.slice(0, 100)]. *)
Definition collectVideoLinks (fuel : nat) (document : Dom)
  : option (list string) :=
  match scrollLoop fuel (initialState document) with
  | Some st => Some (take 100 (uniqueLinksOf (videoElements st)))
  | None => None
  end.

End Collector.

(** ** The per-candidate loop *)

Inductive logLine : Type :=
| Processing (videoUrl : string)
| MatchFound (count : nat) (videoUrl : string)
| NoMatchingKeywords (videoUrl : string)
| ErrorProcessing (videoUrl message : string).

(** What the navigation, the transcript panel and the segment parser give
    for one candidate: a transcript, or one of the [continue] exits. *)
Inductive acquisition : Type :=
| Transcript (videoId videoTitle : string) (segments : list Segment.t)
| NoTranscript.

Record RunState (Browser : Type) : Type := {
  browser : Browser;
  transcriptResults : list VideoResult.t;
  console : list logLine
}.

Arguments browser {Browser} _.
Arguments transcriptResults {Browser} _.
Arguments console {Browser} _.

Section Driver.

Context {Browser : Type}.

(** Everything the browser is driven to do for one candidate, up to the
    video title.  It changes the browser, and it either returns or throws
    (an invalid URL, a navigation timeout, a failed evaluation). *)
Variable acquireTranscript : string -> Browser -> Browser * result acquisition.

Variable keywords : list string.
Variable exactPhraseSearch : bool.

Definition logTo (line : logLine) (st : RunState Browser) : RunState Browser :=
  {| browser := browser st;
     transcriptResults := transcriptResults st;
     console := (console st ++ [line])%list |}.

(** The block of the [try]: what it leaves of the state, and whether it
    completed or threw. *)
Definition tryBlock (st : RunState Browser) (videoUrl : string)
  : RunState Browser * result unit :=
  let st1 := logTo (Processing videoUrl) st in
  let '(b, acquired) := acquireTranscript videoUrl (browser st1) in
  let st2 := {| browser := b;
                transcriptResults := transcriptResults st1;
                console := console st1 |} in
  match acquired with
  | Throw message => (st2, Throw message)
  | Ok NoTranscript => (st2, Ok tt)
  | Ok (Transcript videoId videoTitle segments) =>
      match findKeywordMatches videoUrl keywords exactPhraseSearch segments with
      | Throw message => (st2, Throw message)
      | Ok keywordMatches =>
          let uniqueMatches := filterDuplicates keywordMatches in
          if (0 <? length uniqueMatches)%nat then
            (logTo (MatchFound (length uniqueMatches) videoUrl)
               {| browser := b;
                  transcriptResults :=
                    (transcriptResults st2 ++
                     [ {| VideoResult.videoId := videoId;
                          VideoResult.videoTitle := videoTitle;
                          VideoResult.url := videoUrl;
                          VideoResult.matches := uniqueMatches |} ])%list;
                  console := console st2 |},
             Ok tt)
          else (logTo (NoMatchingKeywords videoUrl) st2, Ok tt)
      end
  end.

(** [try { ... } catch (error) { console.error(...) }] *)
Definition processCandidate (st : RunState Browser) (videoUrl : string)
  : RunState Browser * result unit :=
  let '(st', outcome) := tryBlock st videoUrl in
  match outcome with
  | Ok tt => (st', Ok tt)
  | Throw message => (logTo (ErrorProcessing videoUrl message) st', Ok tt)
  end.

(** [for (const videoUrl of videoLinks)]: an exception that leaves the body
    ends the loop. *)
Fixpoint processCandidates (videoLinks : list string) (st : RunState Browser)
  : RunState Browser * result unit :=
  match videoLinks with
  | [] => (st, Ok tt)
  | videoUrl :: rest =>
      let '(st', outcome) := processCandidate st videoUrl in
      match outcome with
      | Ok tt => processCandidates rest st'
      | Throw message => (st', Throw message)
      end
  end.

End Driver.

(** ** Reference definitions

    Keeping the first element seen for every key, in the order of the list:
    what "deduplicated in first-seen order" says, on lists alone.  The
    loops of the program, which go through a [Set] and a [Map], are
    compared with it below. *)

Section FirstSeen.

Context {A K : Type} `{EqDecision K}.
Variable key : A -> K.
Variable ok : A -> bool.

Fixpoint firstSeen (seen : list K) (l : list A) : list A :=
  match l with
  | [] => []
  | x :: l' =>
      if ok x && negb (bool_decide (key x ∈ seen))
      then x :: firstSeen (key x :: seen) l'
      else firstSeen seen l'
  end.

End FirstSeen.

Definition hrefs (elements : list Element.t) : list string :=
  Element.href <$> elements.

(** The filtered result set of one selector. *)
Definition validOf {Dom : Type}
    (querySelectorAll : Dom -> string -> list Element.t) (document : Dom)
    (selector : string) : list Element.t :=
  List.filter validElement (querySelectorAll document selector).

(** The candidates the console reports as taken up, in order. *)
Definition processed (lines : list logLine) : list string :=
  omap (fun line => match line with
                    | Processing videoUrl => Some videoUrl
                    | _ => None
                    end) lines.

(** The diagnostics of the candidates given up on an exception. *)
Definition diagnostics (lines : list logLine) : list (string * string) :=
  omap (fun line => match line with
                    | ErrorProcessing videoUrl message => Some (videoUrl, message)
                    | _ => None
                    end) lines.

(** The pattern the word-boundary search is meant to build for a keyword:
    a start of text or a code unit outside [a-zA-Z0-9], the code units of
    the keyword, a code unit outside [a-zA-Z0-9] or the end of the text. *)
Definition alnumClass : list (ascii * ascii) :=
  [ ("a"%char, "z"%char); ("A"%char, "Z"%char); ("0"%char, "9"%char) ].

Definition leftBoundary : RegExp.regex :=
  RegExp.Group
    (RegExp.Alt (RegExp.Seq RegExp.Bol RegExp.Eps)
       (RegExp.Seq (RegExp.Class true alnumClass) RegExp.Eps)).

Definition rightBoundary : RegExp.regex :=
  RegExp.Group
    (RegExp.Alt (RegExp.Seq (RegExp.Class true alnumClass) RegExp.Eps)
       (RegExp.Seq RegExp.Eol RegExp.Eps)).

Fixpoint literal (s : string) (k : RegExp.regex) : RegExp.regex :=
  match s with
  | EmptyString => k
  | String c s' => RegExp.Seq (RegExp.Chr c) (literal s' k)
  end.

Definition wordBoundary (keyword : string) : RegExp.regex :=
  RegExp.Seq leftBoundary
    (literal keyword (RegExp.Seq rightBoundary RegExp.Eps)).

(** What is left of [s] behind a prefix that is [p] up to case. *)
Fixpoint afterPrefix (p s : string) : option string :=
  match p, s with
  | EmptyString, _ => Some s
  | String c p', String d s' =>
      if RegExp.sameChar c d then afterPrefix p' s' else None
  | String _ _, EmptyString => None
  end.

(** The text ahead is empty or starts outside [a-zA-Z0-9]; the keyword is
    ahead, up to case, with such a text behind it. *)
Definition boundaryAhead (s : string) : bool :=
  match s with
  | EmptyString => true
  | String d _ => negb (Char.isAlnum d)
  end.

Definition keywordAhead (keyword s : string) : bool :=
  match afterPrefix keyword s with
  | Some rest => boundaryAhead rest
  | None => false
  end.

(** The text in front of an occurrence is empty or ends with a code unit
    outside [a-zA-Z0-9]; the text behind it is empty or starts with one. *)
Definition leftFlank (pre : string) : Prop :=
  pre = "" \/
  exists pre' d, pre = pre' +:+ String d "" /\ Char.isAlnum d = false.

Definition rightFlank (post : string) : Prop :=
  post = "" \/
  exists d post', post = String d post' /\ Char.isAlnum d = false.

(** The timing of segment [i], in the words of the design: its start is
    its parsed timestamp, its end the start of the next segment, or five
    seconds after its own start when it is the last one. *)
Definition startOf (seg : Segment.t) : JsNumber :=
  timestampToSeconds (Segment.timestamp seg).

Definition endOf (segments : list Segment.t) (i : nat) (seg : Segment.t)
  : JsNumber :=
  match segments !! S i with
  | Some next => startOf next
  | None => add (startOf seg) (ofZ 5)
  end.

Definition durationOf (segments : list Segment.t) (i : nat)
    (seg : Segment.t) : JsNumber :=
  sub (endOf segments i seg) (startOf seg).

(** Whether a keyword is found in a segment, in either mode. *)
Definition foundIn (exactPhraseSearch : bool) (seg : Segment.t)
    (keyword : string) : bool :=
  if exactPhraseSearch
  then Str.includes (Str.toLowerCase (Segment.text seg))
         (Str.toLowerCase keyword)
  else RegExp.test (wordBoundary (Str.toLowerCase keyword))
         (Str.toLowerCase (Segment.text seg)).

Definition preciseOf (seg : Segment.t) (duration : JsNumber)
    (keyword : string) : JsIntegral :=
  round (add (startOf seg)
           (mul (estimateKeywordPosition (Segment.text seg) keyword) duration)).

(** The match reported for a keyword found in a segment. *)
Definition matchOf (videoUrl : string) (seg : Segment.t)
    (duration : JsNumber) (keyword : string) : KeywordMatch.t :=
  {| KeywordMatch.keyword := keyword;
     KeywordMatch.originalTimestamp := Segment.timestamp seg;
     KeywordMatch.preciseTimestamp :=
       secondsToTimestamp (ofIntegral (preciseOf seg duration keyword));
     KeywordMatch.preciseTimeSeconds := preciseOf seg duration keyword;
     KeywordMatch.text := Segment.text seg;
     KeywordMatch.url :=
       videoUrl +:+ "&t=" +:+ toString (preciseOf seg duration keyword) |}.

(** The matches of segment [i]: one for every keyword found in it, in the
    order of the keywords. *)
Definition segmentMatches (videoUrl : string) (keywords : list string)
    (exactPhraseSearch : bool) (segments : list Segment.t) (i : nat)
  : list KeywordMatch.t :=
  match segments !! i with
  | Some seg =>
      List.map (matchOf videoUrl seg (durationOf segments i seg))
        (List.filter (foundIn exactPhraseSearch seg) keywords)
  | None => []
  end.

(** Two matches have the same resolved second and the same text. *)
Definition samePair (a b : KeywordMatch.t) : Prop :=
  KeywordMatch.preciseTimeSeconds a = KeywordMatch.preciseTimeSeconds b /\
  KeywordMatch.text a = KeywordMatch.text b.

(** ** Pages and transcripts of the examples *)

Definition link (url : string) : Element.t := {| Element.href := url |}.

(** A document that scrolling does not change, where the first selector
    finds [elements] and the other selectors find nothing. *)
Definition staticQuery (elements : list Element.t) (_ : unit)
    (selector : string) : list Element.t :=
  if String.eqb selector "a#video-title" then elements else [].

(** A hundred links to a hundred videos. *)
Definition fullPage : list Element.t :=
  List.map
    (fun i => link ("https://www.youtube.com/watch?v=" +:+ digits (Z.of_nat i)))
    (List.seq 0 100).

(** Three links, the first video twice. *)
Definition smallPage : list Element.t :=
  [ link "https://www.youtube.com/watch?v=a";
    link "https://www.youtube.com/shorts/b";
    link "https://www.youtube.com/watch?v=a" ].

(** A document where the third selector is the first to find videos, and
    the fourth would find some too. *)
Definition thirdQuery (_ : unit) (selector : string) : list Element.t :=
  if String.eqb selector "a.yt-simple-endpoint" then smallPage
  else if String.eqb selector "ytd-video-renderer a" then fullPage
  else [].

(** A browser where the navigation to one address times out, and every
    other video has the same two transcript segments. *)
Definition flakyBrowser (videoUrl : string) (b : unit)
  : unit * result acquisition :=
  if String.eqb videoUrl "https://www.youtube.com/watch?v=bad"
  then (b, Throw "Navigation timeout of 30000 ms exceeded")
  else (b, Ok (Transcript "id" "title"
                 [ {| Segment.timestamp := "00:10";
                      Segment.text := "the quick agent runs" |};
                   {| Segment.timestamp := "00:20";
                      Segment.text := "and rests" |} ])).

Definition segment (timestamp text : string) : Segment.t :=
  {| Segment.timestamp := timestamp; Segment.text := text |}.

Definition matchesOrNone (r : result (list KeywordMatch.t))
  : list KeywordMatch.t :=
  match r with
  | Ok ms => ms
  | Throw _ => []
  end.

(** Two keywords that are found at the start of the same segment. *)
Definition twoKeywordMatches : list KeywordMatch.t :=
  matchesOrNone
    (findKeywordMatches "https://www.youtube.com/watch?v=abc"
       ["the quick"; "the"] false
       [segment "00:10" "the quick agent runs"; segment "00:20" "and rests"]).

(** A transcript whose second segment starts before the first one. *)
Definition outOfOrder : list Segment.t :=
  [segment "00:20" "the quick agent runs"; segment "00:10" "and rests"].

(** A match in a short-form video. *)
Definition shortsMatches : list KeywordMatch.t :=
  matchesOrNone
    (findKeywordMatches "https://www.youtube.com/shorts/abc" ["agent"] false
       [segment "00:10" "the quick agent runs"; segment "00:20" "and rests"]).

(** ** Browser discovery *)

(** [chromePaths]; the third Windows path starts with the value of
    [process.env.LOCALAPPDATA], which reads "undefined" when the variable
    is not set. *)
Definition localAppDataText (localAppData : option string) : string :=
  match localAppData with
  | Some dir => dir
  | None => "undefined"
  end.

Definition chromePaths (localAppData : option string)
  : gmap string (list string) :=
  <["linux" :=
      [ "/usr/bin/google-chrome";
        "/usr/bin/google-chrome-stable";
        "/usr/bin/chromium";
        "/usr/bin/chromium-browser";
        "/snap/bin/chromium" ]]>
  (<["darwin" :=
      [ "/Applications/Google Chrome.app/Contents/MacOS/Google Chrome";
        "/Applications/Chromium.app/Contents/MacOS/Chromium" ]]>
  (<["win32" :=
      [ "C:\Program Files\Google\Chrome\Application\chrome.exe";
        "C:\Program Files (x86)\Google\Chrome\Application\chrome.exe";
        localAppDataText localAppData +:+
          "\Google\Chrome\Application\chrome.exe" ]]> ∅)).

Section ChromePath.

(** [fs.existsSync], which the program lets throw. *)
Variable existsSync : string -> result bool.

(** The loop of [findChromePath]: a path whose test throws is passed
    over. *)
Fixpoint firstExistingPath (paths : list string) : option string :=
  match paths with
  | [] => None
  | browserPath :: rest =>
      match existsSync browserPath with
      | Ok true => Some browserPath
      | Ok false => firstExistingPath rest
      | Throw _ => firstExistingPath rest
      end
  end.

(** [findChromePath]: [platform] is [process.platform]; [None] is
    [null]. *)
Definition findChromePath (platform : string) (localAppData : option string)
  : option string :=
  let paths := default [] (chromePaths localAppData !! platform) in
  firstExistingPath paths.

End ChromePath.

(** ** SegmentParser: the generic fallback *)

Module PanelElement.
(** An element of the panel: its text, and the text of the element that
    follows it under the same parent, if there is one. *)
Record t : Type := {
  textContent : string;
  nextElementSibling : option string
}.
End PanelElement.

(** [\d] *)
Definition digitClass : RegExp.regex :=
  RegExp.Class false [ ("0"%char, "9"%char) ].

(** [/^\d+:\d+(?::\d+)?$/], term by term.  The matcher compares up to
    case, which changes nothing for digits and the colon. *)
Definition timestampPattern : RegExp.regex :=
  RegExp.Seq RegExp.Bol
    (RegExp.Seq (RegExp.Plus digitClass)
       (RegExp.Seq (RegExp.Chr ":")
          (RegExp.Seq (RegExp.Plus digitClass)
             (RegExp.Seq
                (RegExp.Opt
                   (RegExp.Group
                      (RegExp.Seq (RegExp.Chr ":") (RegExp.Plus digitClass))))
                RegExp.Eol)))).

(** The body of [for (const el of allElements)]. *)
Definition fallbackStep (potentialSegments : list Segment.t)
    (el : PanelElement.t) : list Segment.t :=
  let text := Str.trim (PanelElement.textContent el) in
  if RegExp.test timestampPattern text && (String.length text <=? 8)%nat then
    match PanelElement.nextElementSibling el with
    | Some sibling =>
        if (0 <? String.length (Str.trim sibling))%nat
        then potentialSegments ++
             [ {| Segment.timestamp := text;
                  Segment.text := Str.trim sibling |} ]
        else potentialSegments
    | None => potentialSegments
    end
  else potentialSegments.

(** The segments of the generic approach, taken when no selector of the
    list has given any. *)
Definition genericFallback (allElements : list PanelElement.t)
  : list Segment.t :=
  List.fold_left fallbackStep allElements [].

(** ** TranscriptAcquisition: the choice of a transcript option *)

Definition autoGenOptions : list string :=
  [ "auto-generated";
    "Auto-generated";
    "English (auto-generated)";
    "english (auto-generated)";
    "auto" ].

(** [autoGenOptions.some((opt) => itemText.includes(opt.toLowerCase()))] *)
Definition matchesAutoGen (itemText : string) : bool :=
  List.existsb (fun opt => Str.includes itemText (Str.toLowerCase opt))
    autoGenOptions.

(** A loop over the menu items that stops at the first item whose text,
    trimmed and in lower case, passes [test]: the index of the item and
    that text. *)
Fixpoint findItem (test : string -> bool) (i : nat) (menuItems : list string)
  : option (nat * string) :=
  match menuItems with
  | [] => None
  | item :: rest =>
      let itemText := Str.toLowerCase (Str.trim item) in
      if test itemText then Some (i, itemText)
      else findItem test (S i) rest
  end.

(** The evaluation that selects a transcript option, on the texts of the
    menu items: the index of the item clicked, if any, and the string
    returned. *)
Definition selectOption (menuItems : list string) : option nat * string :=
  match findItem matchesAutoGen 0 menuItems with
  | Some (i, itemText) => (Some i, "selected-" +:+ itemText)
  | None =>
      match findItem (fun itemText => Str.includes itemText "english")
              0 menuItems with
      | Some (i, itemText) => (Some i, "selected-english-" +:+ itemText)
      | None =>
          match menuItems with
          | first :: _ => (Some O, "selected-first-" +:+ Str.trim first)
          | [] => (None, "no-option-selected")
          end
      end
  end.

(** ** Command line and results file *)


Fixpoint mapChars (f : ascii -> ascii) (s : string) : string :=
  match s with
  | EmptyString => EmptyString
  | String c s' => String (f c) (mapChars f s')
  end.

(** [s.replace(/[^a-z0-9]/gi, "_").toLowerCase()]: every code unit that
    the class does not hold, up to case, becomes an underscore. *)
Definition sanitize (s : string) : string :=
  Str.toLowerCase
    (mapChars
       (fun c =>
          if xorb true
               (RegExp.inClass [ ("a"%char, "z"%char); ("0"%char, "9"%char) ] c)
          then "_"%char else c)
       s).

(** [parts.join(sep)] *)
Fixpoint joinWith (sep : string) (parts : list string) : string :=
  match parts with
  | [] => EmptyString
  | [p] => p
  | p :: rest => p +:+ sep +:+ joinWith sep rest
  end.

(** The name of the results file. *)
Definition resultsFilename (query : string) (keywords : list string) : string :=
  let sanitizedQuery := sanitize query in
  let sanitizedKeywords := joinWith "_" (List.map sanitize keywords) in
  sanitizedQuery +:+ "_" +:+ sanitizedKeywords +:+ ".json".

(** ** Further reference definitions *)

(** Digits, at least one. *)
Definition isNumeral (s : string) : bool :=
  nonEmpty s && Str.all Char.isDigit s.

(** A code unit of a sanitized name. *)
Definition isNameChar (c : ascii) : bool :=
  Char.between 97 122 c || Char.isDigit c || Ascii.eqb c "_".

(** A text of code units below 128.  On such a text [toLowerCase] acts on
    the letters A to Z alone, one code unit at a time, and the [i] flag
    compares a code unit below 128 as equal only to itself and to the same
    letter in the other case. *)
Definition isAscii (s : string) : bool :=
  Str.all (fun c => (Char.code c <? 128)%N) s.

(** No letter from A to Z. *)
Definition noCapital (s : string) : bool :=
  Str.all (fun c => negb (Char.between 65 90 c)) s.

(** The text of a menu item as the selection reads it, and whether it
    holds a word. *)
Definition itemTextOf (item : string) : string :=
  Str.toLowerCase (Str.trim item).

Definition mentions (word item : string) : bool :=
  Str.includes (itemTextOf item) word.

(** What a result of the run is for the candidate [videoUrl]: it carries
    the address of the candidate and at least one match; no two of its
    matches have the same key; every match is for one of the keywords, and
    its address is the address of the candidate with the resolved second
    behind it. *)
Definition resultFor (keywords : list string) (videoUrl : string)
    (r : VideoResult.t) : Prop :=
  VideoResult.url r = videoUrl /\
  VideoResult.matches r <> [] /\
  NoDup (matchKey <$> VideoResult.matches r) /\
  Forall (fun m =>
            KeywordMatch.keyword m ∈ keywords /\
            KeywordMatch.url m =
            videoUrl +:+ "&t=" +:+ toString (KeywordMatch.preciseTimeSeconds m))
    (VideoResult.matches r).

(** Three candidates for the browser of the examples; the second one times
    out. *)
Definition threeCandidates : list string :=
  [ "https://www.youtube.com/watch?v=one";
    "https://www.youtube.com/watch?v=bad";
    "https://www.youtube.com/watch?v=two" ].

(** A panel whose elements are timestamps and texts in turn. *)
Definition timedPanel : list PanelElement.t :=
  [ {| PanelElement.textContent := " 0:10 ";
       PanelElement.nextElementSibling := Some "the quick agent runs" |};
    {| PanelElement.textContent := "the quick agent runs";
       PanelElement.nextElementSibling := Some "0:20" |};
    {| PanelElement.textContent := "0:20";
       PanelElement.nextElementSibling := Some " and rests " |};
    {| PanelElement.textContent := " and rests ";
       PanelElement.nextElementSibling := None |} ].

(** A file system where only the Chromium of the snap package exists, and
    looking at the first path fails. *)
Definition snapOnly (path : string) : result bool :=
  if String.eqb path "/usr/bin/google-chrome" then Throw "EACCES"
  else Ok (String.eqb path "/snap/bin/chromium").

(** A document that gains forty links with every scroll. *)
Definition growingQuery (scrolls : nat) (selector : string)
  : list Element.t :=
  if String.eqb selector "a#video-title"
  then List.map
         (fun i =>
            link ("https://www.youtube.com/watch?v=" +:+ digits (Z.of_nat i)))
         (List.seq 0 (40 * S scrolls))
  else [].

(** The state of the loop on that document after two rounds. *)
Definition grownState : LoopState nat :=
  loopBody growingQuery S
    (loopBody growingQuery S (initialState growingQuery O)).

(** * Properties *)

(** ** Strings *)

Lemma append_cons (c : ascii) (s t : string) :
  String c s +:+ t = String c (s +:+ t).
Proof. reflexivity. Qed.

Lemma append_nil_l (t : string) : "" +:+ t = t.
Proof. reflexivity. Qed.

(** [String.append] does not unfold under [simpl]; this does it. *)
Ltac sapp := rewrite ?append_cons, ?append_nil_l in *.

Lemma append_nil_r (s : string) : s +:+ "" = s.
Proof. induction s as [|c s IH]; sapp; [reflexivity | now rewrite IH]. Qed.

Lemma append_assoc (a b c : string) : (a +:+ b) +:+ c = a +:+ (b +:+ c).
Proof. induction a as [|x a IH]; sapp; [reflexivity | now rewrite IH]. Qed.

Lemma length_append (a b : string) :
  String.length (a +:+ b) = (String.length a + String.length b)%nat.
Proof.
  induction a as [|x a IH]; sapp; simpl; [reflexivity | now rewrite IH].
Qed.

Lemma count_append (c : ascii) (a b : string) :
  Str.count c (a +:+ b) = (Str.count c a + Str.count c b)%nat.
Proof.
  induction a as [|x a IH]; sapp; simpl; [reflexivity | rewrite IH; lia].
Qed.

Lemma all_append (f : ascii -> bool) (a b : string) :
  Str.all f (a +:+ b) = Str.all f a && Str.all f b.
Proof.
  induction a as [|x a IH]; sapp; simpl; [reflexivity|].
  rewrite IH. now rewrite andb_assoc.
Qed.

(** [split] cuts at every separator: one part more than separators. *)
Lemma length_split (sep : ascii) (s : string) :
  length (Str.split sep s) = S (Str.count sep s).
Proof.
  induction s as [|c s IH]; simpl; [reflexivity|].
  destruct (Ascii.eqb c sep); simpl; [now rewrite IH|].
  destruct (Str.split sep s) as [|p ps]; simpl in *; [discriminate | exact IH].
Qed.

Lemma split_no_sep (sep : ascii) (s : string) :
  Str.count sep s = O -> Str.split sep s = [s].
Proof.
  induction s as [|c s IH]; simpl; [reflexivity|].
  destruct (Ascii.eqb c sep); simpl; [discriminate|].
  intros H. now rewrite (IH H).
Qed.

Lemma split_append (sep : ascii) (a b : string) :
  Str.count sep a = O ->
  Str.split sep (a +:+ String sep b) = a :: Str.split sep b.
Proof.
  induction a as [|c a IH]; sapp; simpl.
  - intros _. now rewrite Ascii.eqb_refl.
  - destruct (Ascii.eqb c sep); simpl; [discriminate|].
    intros H. now rewrite (IH H).
Qed.

Lemma rev_onto_append (acc s : string) :
  Str.rev_onto acc s = Str.rev s +:+ acc.
Proof.
  unfold Str.rev. revert acc.
  induction s as [|c s IH]; intros acc; simpl; [reflexivity|].
  rewrite (IH (String c acc)), (IH (String c "")), append_assoc. reflexivity.
Qed.

Lemma rev_cons (c : ascii) (s : string) :
  Str.rev (String c s) = Str.rev s +:+ String c "".
Proof. unfold Str.rev at 1. simpl. apply rev_onto_append. Qed.

Lemma rev_append (a b : string) : Str.rev (a +:+ b) = Str.rev b +:+ Str.rev a.
Proof.
  induction a as [|c a IH].
  - change (Str.rev "") with "". now rewrite append_nil_r.
  - sapp. now rewrite !rev_cons, IH, append_assoc.
Qed.

Lemma rev_involutive (s : string) : Str.rev (Str.rev s) = s.
Proof.
  induction s as [|c s IH]; [reflexivity|].
  now rewrite rev_cons, rev_append, IH.
Qed.

Lemma all_rev (f : ascii -> bool) (s : string) :
  Str.all f (Str.rev s) = Str.all f s.
Proof.
  induction s as [|c s IH]; [reflexivity|].
  rewrite rev_cons, all_append, IH. simpl.
  rewrite andb_true_r. apply andb_comm.
Qed.

Lemma dropWhile_none (f g : ascii -> bool) (s : string) :
  (forall c, g c = true -> f c = false) ->
  Str.all g s = true -> Str.dropWhile f s = s.
Proof.
  intros Hfg. destruct s as [|c s]; simpl; [reflexivity|].
  intros H. apply andb_prop in H as [Hc _]. now rewrite (Hfg c Hc).
Qed.

(** [trim] leaves alone a text made of code units that are not spaces. *)
Lemma trim_none (g : ascii -> bool) (s : string) :
  (forall c, g c = true -> Char.isSpace c = false) ->
  Str.all g s = true -> Str.trim s = s.
Proof.
  intros Hg H. unfold Str.trim.
  rewrite (dropWhile_none _ g s Hg H).
  rewrite (dropWhile_none _ g (Str.rev s) Hg) by now rewrite all_rev.
  apply rev_involutive.
Qed.

Lemma span_all (f : ascii -> bool) (s : string) :
  Str.all f s = true -> Str.span f s = (s, "").
Proof.
  induction s as [|c s IH]; simpl; [reflexivity|].
  intros H. apply andb_prop in H as [Hc Hs].
  now rewrite Hc, (IH Hs).
Qed.

(** ** Numbers *)

Lemma Qred_inject_Z (z : Z) : Qred (inject_Z z) = inject_Z z.
Proof.
  unfold Qred, inject_Z.
  pose proof (Z.ggcd_gcd z 1) as Hg.
  pose proof (Z.ggcd_correct_divisors z 1) as Hd.
  destruct (Z.ggcd z 1) as [g [a b]]. simpl in Hg.
  rewrite Z.gcd_1_r in Hg. subst g. destruct Hd as [Ha Hb].
  replace a with z by lia. replace b with 1 by lia. reflexivity.
Qed.

Lemma Qred_integer (q : Q) (z : Z) : (q == inject_Z z)%Q -> Qred q = inject_Z z.
Proof.
  intros H. rewrite <- (Qred_inject_Z z). now apply Qred_complete.
Qed.

Lemma add_ofZ (a b : Z) : add (ofZ a) (ofZ b) = ofZ (a + b).
Proof.
  unfold add, ofZ. f_equal. apply Qred_integer.
  now rewrite inject_Z_plus.
Qed.

Lemma mul_ofZ (a b : Z) : mul (ofZ a) (ofZ b) = ofZ (a * b).
Proof.
  unfold mul, ofZ. f_equal. apply Qred_integer.
  now rewrite inject_Z_mult.
Qed.

Lemma sub_ofZ (a b : Z) : sub (ofZ a) (ofZ b) = ofZ (a - b).
Proof.
  unfold sub, neg, add, ofZ. f_equal. apply Qred_integer.
  rewrite Qred_correct. unfold Z.sub.
  now rewrite inject_Z_plus, inject_Z_opp.
Qed.

Lemma Qfloor_quotient (a b : Z) :
  0 < b -> Qfloor (inject_Z a / inject_Z b) = a / b.
Proof.
  intros _. symmetry. apply Zdiv_Qdiv.
Qed.

Lemma floor_div_ofZ (a b : Z) :
  0 < b -> floor (div (ofZ a) (ofZ b)) = IFin (a / b).
Proof.
  intros Hb. unfold div, ofZ, floor, isZero. simpl.
  destruct (Z.eqb_spec b 0) as [->|_]; [lia|].
  f_equal. rewrite (Qfloor_comp _ _ (Qred_correct _)).
  now apply Qfloor_quotient.
Qed.

(** On a dividend that is not negative, [%] is the remainder of the
    division of integers. *)
Lemma rem_ofZ (a b : Z) :
  0 <= a -> 0 < b -> rem (ofZ a) (ofZ b) = ofZ (a mod b).
Proof.
  intros Ha Hb. unfold rem, ofZ, isZero. simpl.
  destruct (Z.eqb_spec b 0) as [->|_]; [lia|].
  f_equal. apply Qred_integer.
  assert (Ht : truncate (inject_Z a / inject_Z b) = a / b).
  { unfold truncate, isNeg.
    destruct b as [|p|p]; try lia.
    replace (Qnum (inject_Z a / inject_Z (Z.pos p)) <? 0) with false.
    - now apply Qfloor_quotient.
    - symmetry. apply Z.ltb_ge. simpl. lia. }
  rewrite Ht, <- inject_Z_mult.
  unfold Qminus. rewrite <- inject_Z_opp, <- inject_Z_plus.
  rewrite (Z.mod_eq a b) by lia. reflexivity.
Qed.

Lemma floor_ofZ (a : Z) : floor (ofZ a) = IFin a.
Proof.
  unfold floor, ofZ. f_equal. unfold inject_Z, Qfloor. apply Z.div_1_r.
Qed.

Lemma gt_ofZ_0 (a : Z) : gt (ofZ a) (ofZ 0) = (0 <? a).
Proof.
  unfold gt, ofZ, Qcompare. simpl. rewrite Z.mul_1_r.
  change (0 * 1) with 0.
  destruct (Z.ltb_spec 0 a) as [H|H];
    destruct (Z.compare_spec a 0); try reflexivity; lia.
Qed.

(** *** Digits *)

Lemma digit_cases (c : ascii) :
  Char.isDigit c = true ->
  c = "0"%char \/ c = "1"%char \/ c = "2"%char \/ c = "3"%char \/
  c = "4"%char \/ c = "5"%char \/ c = "6"%char \/ c = "7"%char \/
  c = "8"%char \/ c = "9"%char.
Proof.
  destruct c as [[] [] [] [] [] [] [] []]; intros H;
    try discriminate H; tauto.
Qed.

Lemma ofDigit_spec (d : Z) :
  0 <= d < 10 ->
  Char.isDigit (Char.ofDigit d) = true /\ hexValue (Char.ofDigit d) = d.
Proof.
  intros H.
  assert (d = 0 \/ d = 1 \/ d = 2 \/ d = 3 \/ d = 4 \/ d = 5 \/ d = 6 \/
          d = 7 \/ d = 8 \/ d = 9) as Hd by lia.
  repeat destruct Hd as [->|Hd]; try subst d; split; reflexivity.
Qed.

Lemma valueFrom_append (base a : Z) (x y : string) :
  valueFrom base a (x +:+ y) = valueFrom base (valueFrom base a x) y.
Proof.
  revert a. induction x as [|c x IH]; intros a; sapp; simpl;
    [reflexivity | apply IH].
Qed.

Lemma digitsFuel_spec (fuel : nat) :
  forall n acc, 0 <= n < 2 ^ Z.of_nat fuel ->
  exists D, digitsFuel fuel n acc = D +:+ acc /\
    (Str.all Char.isDigit D = true /\
     forall a, valueFrom 10 a D = a * 10 ^ Z.of_nat (String.length D) + n) /\
    (fuel <> O -> nonEmpty D = true).
Proof.
  induction fuel as [|fuel IH]; intros n acc Hn.
  - exists "". simpl in *. split; [reflexivity|].
    split; [|congruence]. split; [reflexivity|].
    intros a. simpl. lia.
  - simpl digitsFuel.
    assert (Hd : 0 <= n mod 10 < 10) by (apply Z.mod_pos_bound; lia).
    destruct (ofDigit_spec _ Hd) as [Hdig Hval].
    destruct (Z.eqb_spec (n / 10) 0) as [Hq|Hq].
    + exists (String (Char.ofDigit (n mod 10)) "").
      split; [reflexivity|]. split; [|reflexivity].
      split; [simpl; now rewrite Hdig|].
      intros a. simpl. rewrite Hval.
      pose proof (Z.div_mod n 10). lia.
    + assert (Hn' : 0 <= n / 10 < 2 ^ Z.of_nat fuel).
      { split; [apply Z.div_pos; lia|].
        apply Z.div_lt_upper_bound; [lia|].
        rewrite Nat2Z.inj_succ, Z.pow_succ_r in Hn by lia. lia. }
      destruct (IH (n / 10) (String (Char.ofDigit (n mod 10)) acc) Hn')
        as (D & HD & [Hall Hv] & _).
      exists (D +:+ String (Char.ofDigit (n mod 10)) "").
      split; [now rewrite HD, append_assoc|].
      split; [|intros _; destruct D; reflexivity].
      split.
      * rewrite all_append, Hall. simpl. now rewrite Hdig.
      * intros a. rewrite valueFrom_append, Hv. simpl. rewrite Hval.
        rewrite length_append. simpl String.length.
        rewrite Nat2Z.inj_add, Z.pow_add_r by lia.
        change (10 ^ Z.of_nat 1) with 10.
        pose proof (Z.div_mod n 10). lia.
Qed.

(** The digits of a natural number are digits, at least one, and their
    value in base ten is the number. *)
Lemma digits_spec (n : Z) :
  0 <= n ->
  Str.all Char.isDigit (digits n) = true /\
  nonEmpty (digits n) = true /\
  valueIn 10 (digits n) = n.
Proof.
  intros Hn. unfold digits.
  destruct (digitsFuel_spec (S (Z.to_nat (Z.log2 n))) n "") as
    (D & HD & [Hall Hv] & Hne).
  - split; [lia|].
    rewrite Nat2Z.inj_succ, Z2Nat.id by apply Z.log2_nonneg.
    destruct (Z.eq_dec n 0) as [->|]; [reflexivity|].
    apply Z.log2_spec. lia.
  - rewrite HD, append_nil_r. repeat split; auto.
    unfold valueIn. rewrite Hv. lia.
Qed.

Lemma digit_not (c d : ascii) :
  Char.isDigit c = true -> Char.isDigit d = false -> Ascii.eqb c d = false.
Proof.
  intros Hc Hd. destruct (Ascii.eqb_spec c d) as [->|]; congruence.
Qed.

Lemma digit_not_space (c : ascii) :
  Char.isDigit c = true -> Char.isSpace c = false.
Proof.
  intros H. destruct (digit_cases c H) as
    [->|[->|[->|[->|[->|[->|[->|[->|[->| ->]]]]]]]]]; reflexivity.
Qed.

Lemma startsWith_letter (p1 p2 : ascii) (t : string) :
  Char.isDigit p2 = false -> Str.all Char.isDigit t = true ->
  Str.startsWith (String p1 (String p2 "")) t = false.
Proof.
  intros Hp Ht. destruct t as [|c1 [|c2 t]]; simpl in *;
    [reflexivity | apply andb_false_r |].
  apply andb_prop in Ht as [_ Ht]. apply andb_prop in Ht as [H2 _].
  rewrite (Ascii.eqb_sym p2 c2), (digit_not c2 p2 H2 Hp). simpl.
  apply andb_false_r.
Qed.

(** [Number] reads a text of decimal digits as its value in base ten. *)
Lemma Number_digits (t : string) :
  nonEmpty t = true -> Str.all Char.isDigit t = true ->
  Number t = ofZ (valueIn 10 t).
Proof.
  intros Hne Hall. unfold Number.
  rewrite (trim_none Char.isDigit t digit_not_space Hall), Hne.
  rewrite !startsWith_letter by (assumption || reflexivity).
  simpl negb. simpl orb. cbv iota.
  destruct t as [|c r]; [discriminate|].
  pose proof Hall as Hc. simpl in Hc. apply andb_prop in Hc as [Hc _].
  unfold signed.
  rewrite (digit_not c "+"), (digit_not c "-") by (assumption || reflexivity).
  replace (String.eqb (String c r) "Infinity") with false
    by (simpl; now rewrite (digit_not c "I") by (assumption || reflexivity)).
  unfold unsignedDecimal. rewrite (span_all _ _ Hall).
  simpl nonEmpty. simpl orb. cbv iota. simpl exponentPart. cbv iota beta.
  rewrite append_nil_r. unfold ofZ. f_equal.
  apply Qred_integer. simpl. ring.
Qed.

(** [padStart(2, "0")] puts at most zeros in front. *)
Lemma padStart_zeros (D : string) :
  exists z, Str.padStart 2 "0" D = z +:+ D /\ Str.all (Ascii.eqb "0") z = true.
Proof.
  destruct D as [|c1 [|c2 D]].
  - exists "00". split; reflexivity.
  - exists "0". split; reflexivity.
  - exists "". split; reflexivity.
Qed.

Lemma valueFrom_zeros (z : string) :
  Str.all (Ascii.eqb "0") z = true -> valueFrom 10 0 z = 0.
Proof.
  induction z as [|c z IH]; cbn [Str.all valueFrom]; [reflexivity|].
  intros H. apply andb_prop in H as [Hc Hz].
  apply Ascii.eqb_eq in Hc. subst c. simpl. now apply IH.
Qed.

Lemma all_zeros_digits (z : string) :
  Str.all (Ascii.eqb "0") z = true -> Str.all Char.isDigit z = true.
Proof.
  induction z as [|c z IH]; cbn [Str.all]; [reflexivity|].
  intros H. apply andb_prop in H as [Hc Hz].
  apply Ascii.eqb_eq in Hc. subst c. simpl. now apply IH.
Qed.

(** A field of [secondsToTimestamp]: digits without a colon, read back by
    [Number] as the number they print. *)
Lemma pad2_spec (n : Z) :
  0 <= n ->
  Str.count ":" (pad2 (IFin n)) = O /\ Number (pad2 (IFin n)) = ofZ n.
Proof.
  intros Hn. unfold pad2, toString.
  destruct (Z.ltb_spec n 0) as [|_]; [lia|].
  destruct (digits_spec n Hn) as (Hall & Hne & Hv).
  destruct (padStart_zeros (digits n)) as (z & -> & Hz).
  assert (Hall' : Str.all Char.isDigit (z +:+ digits n) = true)
    by now rewrite all_append, (all_zeros_digits z Hz), Hall.
  split.
  - clear - Hall'. induction (z +:+ digits n) as [|c s IH];
      simpl in *; [reflexivity|].
    apply andb_prop in Hall' as [Hc Hs].
    now rewrite (digit_not c ":" Hc), (IH Hs).
  - rewrite Number_digits; [|destruct z; [now sapp | reflexivity] | assumption].
    unfold valueIn. rewrite valueFrom_append, (valueFrom_zeros z Hz).
    now fold (valueIn 10 (digits n)); rewrite Hv.
Qed.

(** ** TimeCodec *)

Lemma timestampToSeconds_hms (h m s : string) :
  Str.count ":" h = O -> Str.count ":" m = O -> Str.count ":" s = O ->
  timestampToSeconds (h +:+ ":" +:+ m +:+ ":" +:+ s) =
  add (add (mul (Number h) (ofZ 3600)) (mul (Number m) (ofZ 60))) (Number s).
Proof.
  intros Hh Hm Hs. unfold timestampToSeconds. sapp.
  rewrite (split_append _ _ _ Hh), (split_append _ _ _ Hm),
    (split_no_sep _ _ Hs).
  reflexivity.
Qed.

Lemma timestampToSeconds_ms (m s : string) :
  Str.count ":" m = O -> Str.count ":" s = O ->
  timestampToSeconds (m +:+ ":" +:+ s) = add (mul (Number m) (ofZ 60)) (Number s).
Proof.
  intros Hm Hs. unfold timestampToSeconds. sapp.
  rewrite (split_append _ _ _ Hm), (split_no_sep _ _ Hs).
  reflexivity.
Qed.

Lemma timestampToSeconds_other (t : string) :
  Str.count ":" t <> 1%nat -> Str.count ":" t <> 2%nat ->
  timestampToSeconds t = ofZ 0.
Proof.
  intros H1 H2. unfold timestampToSeconds.
  pose proof (length_split ":" t) as Hlen.
  destruct (Str.split ":" t) as [|a [|b [|c [|d l]]]]; simpl in *;
    try reflexivity; lia.
Qed.

(** C8: [timestampToSeconds] splits its input at the colons; three parts
    are read as hours, minutes and seconds, two parts as minutes and
    seconds, and an input with any other number of parts gives 0.  The
    function is total: it returns a number on every string.  In particular
    "1:02:03" gives 3723, "02:03" gives 123 and "garbage" gives 0. *)
Theorem timestampToSeconds_shapes :
  (forall h m s : string,
      Str.count ":" h = O -> Str.count ":" m = O -> Str.count ":" s = O ->
      Str.split ":" (h +:+ ":" +:+ m +:+ ":" +:+ s) = [h; m; s] /\
      timestampToSeconds (h +:+ ":" +:+ m +:+ ":" +:+ s) =
      add (add (mul (Number h) (ofZ 3600)) (mul (Number m) (ofZ 60)))
        (Number s)) /\
  (forall m s : string,
      Str.count ":" m = O -> Str.count ":" s = O ->
      Str.split ":" (m +:+ ":" +:+ s) = [m; s] /\
      timestampToSeconds (m +:+ ":" +:+ s) =
      add (mul (Number m) (ofZ 60)) (Number s)) /\
  (forall t : string,
      length (Str.split ":" t) <> 3%nat -> length (Str.split ":" t) <> 2%nat ->
      timestampToSeconds t = ofZ 0) /\
  timestampToSeconds "1:02:03" = ofZ 3723 /\
  timestampToSeconds "02:03" = ofZ 123 /\
  timestampToSeconds "garbage" = ofZ 0.
Proof.
  split; [|split; [|split]].
  - intros h m s Hh Hm Hs. split.
    + sapp. now rewrite (split_append _ _ _ Hh), (split_append _ _ _ Hm),
        (split_no_sep _ _ Hs).
    + now apply timestampToSeconds_hms.
  - intros m s Hm Hs. split.
    + sapp. now rewrite (split_append _ _ _ Hm), (split_no_sep _ _ Hs).
    + now apply timestampToSeconds_ms.
  - intros t H3 H2. rewrite length_split in H3, H2.
    apply timestampToSeconds_other; lia.
  - repeat split; reflexivity.
Qed.

Lemma timestampToSeconds_shapes_witness :
  timestampToSeconds "1:2:3:4" = ofZ 0 /\
  timestampToSeconds ("7" +:+ ":" +:+ "08") =
  add (mul (Number "7") (ofZ 60)) (Number "08").
Proof.
  split.
  - apply (proj1 (proj2 (proj2 timestampToSeconds_shapes)));
      vm_compute; lia.
  - apply (proj1 (proj2 timestampToSeconds_shapes)); reflexivity.
Defined.

Lemma seconds_fields (s : Z) :
  0 <= s ->
  s / 3600 * 3600 + s mod 3600 / 60 * 60 + s mod 60 = s.
Proof.
  intros Hs.
  pose proof (Z.div_mod s 3600 ltac:(lia)).
  pose proof (Z.div_mod (s mod 3600) 60 ltac:(lia)).
  assert ((s mod 3600) mod 60 = s mod 60).
  { apply Z.mod_mod_divide. now exists 60. }
  lia.
Qed.

Lemma parse_format (s : Z) :
  0 <= s -> timestampToSeconds (secondsToTimestamp (ofZ s)) = ofZ s.
Proof.
  intros Hs. unfold secondsToTimestamp.
  rewrite !rem_ofZ, !floor_div_ofZ, floor_ofZ by lia.
  cbn [ofIntegral]. rewrite gt_ofZ_0.
  assert (Hh : 0 <= s / 3600) by (apply Z.div_pos; lia).
  assert (Hm : 0 <= s mod 3600 / 60)
    by (apply Z.div_pos; [apply Z.mod_pos_bound|]; lia).
  assert (Hc : 0 <= s mod 60) by (apply Z.mod_pos_bound; lia).
  destruct (pad2_spec _ Hh) as [Ch Nh].
  destruct (pad2_spec _ Hm) as [Cm Nm].
  destruct (pad2_spec _ Hc) as [Cc Nc].
  destruct (Z.ltb_spec 0 (s / 3600)) as [Hpos|Hzero].
  - rewrite timestampToSeconds_hms by assumption.
    rewrite Nh, Nm, Nc, !mul_ofZ, !add_ofZ. f_equal.
    now apply seconds_fields.
  - rewrite timestampToSeconds_ms by assumption.
    rewrite Nm, Nc, !mul_ofZ, !add_ofZ. f_equal.
    pose proof (seconds_fields s Hs). lia.
Qed.

(** C3: formatting a number of seconds and parsing the text gives the
    number back, for every integer from 0 up to the largest one a number of
    the engine holds exactly; in particular at 0, 5, 59, 60, 3599, 3600 and
    7325. *)
Theorem timestamp_roundtrip :
  (forall s : Z, 0 <= s <= MAX_SAFE_INTEGER ->
     timestampToSeconds (secondsToTimestamp (ofZ s)) = ofZ s) /\
  Forall (fun s => timestampToSeconds (secondsToTimestamp (ofZ s)) = ofZ s)
    [0; 5; 59; 60; 3599; 3600; 7325].
Proof.
  split.
  - intros s [Hs _]. now apply parse_format.
  - repeat constructor.
Qed.

Lemma timestamp_roundtrip_witness :
  timestampToSeconds (secondsToTimestamp (ofZ 86399)) = ofZ 86399.
Proof.
  apply (proj1 timestamp_roundtrip). unfold MAX_SAFE_INTEGER. lia.
Defined.

(** ** Keeping the first element seen *)

Section FirstSeenFacts.

Context {A K : Type} `{EqDecision K}.
Variable key : A -> K.
Variable ok : A -> bool.

Lemma firstSeen_fresh (l : list A) : forall seen x,
  x ∈ firstSeen key ok seen l -> x ∈ l /\ ok x = true /\ key x ∉ seen.
Proof.
  induction l as [|y l IH]; intros seen x Hx; simpl in Hx.
  - now apply elem_of_nil in Hx.
  - destruct (ok y) eqn:Hok; simpl in Hx.
    + case_bool_decide as Hseen; simpl in Hx.
      * destruct (IH _ _ Hx) as (? & ? & ?). split; [now right | auto].
      * apply elem_of_cons in Hx as [->|Hx].
        -- split; [now left | auto].
        -- destruct (IH _ _ Hx) as (? & ? & Hn).
           split; [now right|]. split; [assumption|].
           intros Hin. apply Hn. now right.
    + destruct (IH _ _ Hx) as (? & ? & ?). split; [now right | auto].
Qed.

(** No key is kept twice. *)
Lemma firstSeen_NoDup (l : list A) : forall seen,
  NoDup (key <$> firstSeen key ok seen l).
Proof.
  induction l as [|y l IH]; intros seen; simpl; [constructor|].
  destruct (ok y && negb (bool_decide (key y ∈ seen))); [|apply IH].
  rewrite fmap_cons. constructor; [|apply IH].
  intros Hin. apply list_elem_of_fmap in Hin as (z & Hk & Hz).
  apply firstSeen_fresh in Hz as (_ & _ & Hn).
  apply Hn. rewrite <- Hk. now left.
Qed.

(** Every admissible element is represented by an element of its key. *)
Lemma firstSeen_covers (l : list A) : forall seen x,
  x ∈ l -> ok x = true -> key x ∉ seen ->
  exists y, y ∈ firstSeen key ok seen l /\ key y = key x.
Proof.
  induction l as [|y l IH]; intros seen x Hx Hok Hn.
  - now apply elem_of_nil in Hx.
  - simpl. apply elem_of_cons in Hx as [<-|Hx].
    + rewrite Hok. rewrite bool_decide_eq_false_2 by assumption. simpl.
      exists x. split; [now left | reflexivity].
    + destruct (ok y && negb (bool_decide (key y ∈ seen))) eqn:Hy.
      * destruct (decide (key x = key y)) as [Heq|Hne].
        -- exists y. split; [now left | now symmetry].
        -- destruct (IH (key y :: seen) x Hx Hok) as (z & Hz & Hk).
           { rewrite elem_of_cons. tauto. }
           exists z. split; [now right | assumption].
      * now apply IH.
Qed.

(** What is kept before [x] is what is kept of the elements in front of the
    first occurrence of [x], none of which has the key of [x]. *)
Lemma firstSeen_split (l : list A) : forall seen u1 x u2,
  firstSeen key ok seen l = u1 ++ x :: u2 ->
  exists l1 l2,
    l = l1 ++ x :: l2 /\
    (forall y, y ∈ l1 -> ok y = true -> key y <> key x) /\
    u1 = firstSeen key ok seen l1.
Proof.
  induction l as [|y l IH]; intros seen u1 x u2 Heq; simpl in Heq.
  - now destruct u1.
  - destruct (ok y && negb (bool_decide (key y ∈ seen))) eqn:Hy.
    + destruct u1 as [|z u1]; simpl in Heq; injection Heq as -> Heq.
      * exists [], l. split; [reflexivity|]. split; [|reflexivity].
        intros z Hz. now apply elem_of_nil in Hz.
      * destruct (IH _ _ _ _ Heq) as (l1 & l2 & -> & Hfirst & ->).
        exists (z :: l1), l2. split; [reflexivity|]. split.
        -- intros w Hw Hokw. apply elem_of_cons in Hw as [->|Hw];
             [|now apply Hfirst].
           assert (Hx : x ∈ firstSeen key ok (key z :: seen) (l1 ++ x :: l2))
             by (rewrite Heq; apply elem_of_app; right; now left).
           apply firstSeen_fresh in Hx as (_ & _ & Hn).
           intros Hk. apply Hn. rewrite Hk. now left.
        -- simpl. now rewrite Hy.
    + destruct (IH _ _ _ _ Heq) as (l1 & l2 & -> & Hfirst & ->).
      exists (y :: l1), l2. split; [reflexivity|]. split.
      * intros w Hw Hokw. apply elem_of_cons in Hw as [->|Hw];
          [|now apply Hfirst].
        rewrite Hokw in Hy. simpl in Hy.
        apply negb_false_iff, bool_decide_eq_true in Hy.
        assert (Hx : x ∈ firstSeen key ok seen (l1 ++ x :: l2))
          by (rewrite Heq; apply elem_of_app; right; now left).
        apply firstSeen_fresh in Hx as (_ & _ & Hn).
        intros Hk. apply Hn. now rewrite <- Hk.
      * simpl. now rewrite Hy.
Qed.

Lemma firstSeen_sublist (l : list A) : forall seen,
  sublist (firstSeen key ok seen l) l.
Proof.
  induction l as [|y l IH]; intros seen; simpl; [constructor|].
  destruct (ok y && negb (bool_decide (key y ∈ seen)));
    [apply sublist_skip | apply sublist_cons]; apply IH.
Qed.

End FirstSeenFacts.

(** ** PaginatedCollector: the links *)

(** The [forEach] over [videoElements] keeps the first occurrence of every
    href that is not empty: the [Set] plays the part of the list of the
    keys seen. *)
Lemma fold_linkStep (elements : list Element.t) :
  forall (uniqueUrls : gset string) (uniqueLinks seen : list string),
  (forall x, x ∈ uniqueUrls <-> x ∈ seen) ->
  snd (fold_left linkStep elements (uniqueUrls, uniqueLinks)) =
  uniqueLinks ++ firstSeen id nonEmpty seen (hrefs elements).
Proof.
  induction elements as [|a elements IH]; intros S acc seen HS; simpl.
  - now rewrite app_nil_r.
  - unfold id at 1 2.
    rewrite (bool_decide_ext (Element.href a ∈ S) (Element.href a ∈ seen))
      by apply HS.
    destruct (nonEmpty (Element.href a) &&
              negb (bool_decide (Element.href a ∈ seen))).
    + rewrite (IH _ _ (Element.href a :: seen)).
      * now rewrite <- app_assoc.
      * intros x. rewrite elem_of_union, elem_of_singleton, elem_of_cons, HS.
        reflexivity.
    + now apply IH.
Qed.

Lemma uniqueLinksOf_firstSeen (elements : list Element.t) :
  uniqueLinksOf elements = firstSeen id nonEmpty [] (hrefs elements).
Proof.
  unfold uniqueLinksOf. rewrite (fold_linkStep elements ∅ [] []); [reflexivity|].
  intros x. rewrite elem_of_nil. set_solver.
Qed.

Section ScrollTermination.

Context {Dom : Type}.
Variable querySelectorAll : Dom -> string -> list Element.t.
Variable scrollAndWait : Dom -> Dom.

(** The attempts counter bounds the loop: the fuel of [maxScrollAttempts]
    rounds is never used up. *)
Lemma scrollLoop_terminates (fuel : nat) : forall st,
  (maxScrollAttempts <= scrollAttempts st + fuel)%nat ->
  exists st', scrollLoop querySelectorAll scrollAndWait fuel st = Some st'.
Proof.
  induction fuel as [|fuel IH]; intros st Hfuel; simpl.
  - unfold loopCondition.
    replace (scrollAttempts st <? maxScrollAttempts)%nat with false
      by (symmetry; apply Nat.ltb_ge; lia).
    rewrite andb_false_r. simpl. now exists st.
  - destruct (loopCondition st); [|now exists st].
    apply IH. simpl. lia.
Qed.

End ScrollTermination.

(** C5: with the fuel of [maxScrollAttempts] rounds the collector
    returns, and the links returned are the first 100 of the hrefs of the
    collected elements with every URL kept once, at its first occurrence:
    no URL twice, at most 100, each link preceded by exactly what is kept
    of the elements in front of its first occurrence, and, below the
    limit, no URL of the elements left out. *)
Theorem collected_links_unique_ordered
    {Dom : Type} (querySelectorAll : Dom -> string -> list Element.t)
    (scrollAndWait : Dom -> Dom) (fuel : nat) (document : Dom) :
  (maxScrollAttempts <= fuel)%nat ->
  exists st links,
    scrollLoop querySelectorAll scrollAndWait fuel
      (initialState querySelectorAll document) = Some st /\
    collectVideoLinks querySelectorAll scrollAndWait fuel document
    = Some links /\
    links = take targetCount (firstSeen id nonEmpty [] (hrefs (videoElements st))) /\
    NoDup links /\
    (length links <= targetCount)%nat /\
    sublist links (hrefs (videoElements st)) /\
    (forall before url after,
        links = before ++ url :: after ->
        exists h1 h2,
          hrefs (videoElements st) = h1 ++ url :: h2 /\
          (url ∉ h1) /\
          before = firstSeen id nonEmpty [] h1) /\
    (forall url,
        (length (firstSeen id nonEmpty [] (hrefs (videoElements st)))
         <= targetCount)%nat ->
        url ∈ hrefs (videoElements st) -> url <> "" -> (url ∈ links)).
Proof.
  intros Hfuel. unfold collectVideoLinks.
  destruct (scrollLoop_terminates querySelectorAll scrollAndWait fuel
              (initialState querySelectorAll document)) as [st Hst];
    [simpl; lia|].
  rewrite Hst. exists st. eexists. split; [reflexivity|].
  split; [reflexivity|].
  rewrite uniqueLinksOf_firstSeen.
  set (hs := hrefs (videoElements st)).
  set (unique := firstSeen id nonEmpty [] hs).
  assert (Hnd : NoDup unique).
  { pose proof (firstSeen_NoDup id nonEmpty hs []) as H.
    now rewrite list_fmap_id in H. }
  split; [reflexivity|]. split; [|split; [|split; [|split]]].
  - rewrite <- (take_drop 100 unique) in Hnd.
    now apply NoDup_app in Hnd as [? _].
  - rewrite length_take. unfold targetCount. lia.
  - etransitivity; [apply sublist_take | apply firstSeen_sublist].
  - intros before url after Heq.
    assert (Hu : unique = before ++ url :: (after ++ drop 100 unique)).
    { rewrite <- (take_drop 100 unique) at 1. unfold targetCount in Heq.
      rewrite Heq, <- app_assoc. reflexivity. }
    destruct (firstSeen_split id nonEmpty hs [] _ _ _ Hu)
      as (h1 & h2 & Hh & Hfirst & Hb).
    exists h1, h2. split; [assumption|]. split; [|assumption].
    intros Hin.
    assert (Hx : url ∈ unique)
      by (rewrite Hu; apply elem_of_app; right; now left).
    apply firstSeen_fresh in Hx as (_ & Hok & _).
    now apply (Hfirst url Hin Hok).
  - intros url Hlen Hin Hne. unfold targetCount in *.
    rewrite take_ge by exact Hlen.
    destruct (firstSeen_covers id nonEmpty hs [] url Hin) as (y & Hy & Hk).
    + destruct url; [congruence | reflexivity].
    + apply not_elem_of_nil.
    + unfold id in Hk. now subst y.
Qed.

Lemma collected_links_unique_ordered_witness :
  exists st,
    scrollLoop (staticQuery smallPage) id 20
      (initialState (staticQuery smallPage) tt) = Some st /\
    collectVideoLinks (staticQuery smallPage) id 20 tt =
    Some [ "https://www.youtube.com/watch?v=a";
           "https://www.youtube.com/shorts/b" ].
Proof.
  destruct (collected_links_unique_ordered (staticQuery smallPage) id 20 tt)
    as (st & links & Hst & Hlinks & _).
  - unfold maxScrollAttempts. lia.
  - exists st. split; [assumption|]. reflexivity.
Defined.

(** ** SelectorCascadeResolver *)

Section CascadeFacts.

Context {Dom : Type}.
Variable querySelectorAll : Dom -> string -> list Element.t.
Variable document : Dom.

Lemma cascade_spec (toTry : list string) : forall queried,
  (exists tried selector later,
      toTry = tried ++ selector :: later /\
      Forall (fun s => validOf querySelectorAll document s = []) tried /\
      validOf querySelectorAll document selector <> [] /\
      cascade querySelectorAll document toTry queried =
      (validOf querySelectorAll document selector, queried ++ tried ++ [selector]))
  \/
  (Forall (fun s => validOf querySelectorAll document s = []) toTry /\
   cascade querySelectorAll document toTry queried = ([], queried ++ toTry)).
Proof.
  induction toTry as [|selector rest IH]; intros queried.
  - right. split; [constructor|]. simpl. now rewrite app_nil_r.
  - simpl. fold (validOf querySelectorAll document selector).
    destruct (validOf querySelectorAll document selector) as [|el els] eqn:Hv; simpl.
    + destruct (IH (queried ++ [selector]))
        as [(tried & s & later & -> & Hall & Hne & ->) | [Hall ->]].
      * left. exists (selector :: tried), s, later.
        repeat split; try assumption.
        -- now constructor.
        -- now rewrite <- !app_assoc.
      * right. split; [now constructor|]. now rewrite <- app_assoc.
    + left. exists [], selector, rest. rewrite Hv.
      repeat split; [constructor | discriminate].
Qed.

End CascadeFacts.

(** C6: [getAllVideoElements] queries the selectors in their order and
    returns the filtered set of the first selector whose filtered set is
    not empty; the selectors it has queried are that one and the ones in
    front of it, none of the later ones.  When every filtered set is empty
    it returns the empty list, having queried them all.  It is a total
    function: it returns on every document.  So when the first two
    selectors give nothing and the third something, the third set is
    returned and the fourth selector is never queried. *)
Theorem cascade_first_nonempty
    {Dom : Type} (querySelectorAll : Dom -> string -> list Element.t)
    (document : Dom) :
  ((exists tried selector later,
       selectors = tried ++ selector :: later /\
       Forall (fun s => validOf querySelectorAll document s = []) tried /\
       validOf querySelectorAll document selector <> [] /\
       getAllVideoElementsTraced querySelectorAll document =
       (validOf querySelectorAll document selector, tried ++ [selector]) /\
       Forall (fun s => s ∉ tried ++ [selector]) later)
   \/
   (Forall (fun s => validOf querySelectorAll document s = []) selectors /\
    getAllVideoElementsTraced querySelectorAll document = ([], selectors)))
  /\
  (validOf querySelectorAll document "a#video-title" = [] ->
   validOf querySelectorAll document "a.ytd-video-renderer" = [] ->
   validOf querySelectorAll document "a.yt-simple-endpoint" <> [] ->
   getAllVideoElementsTraced querySelectorAll document =
   (validOf querySelectorAll document "a.yt-simple-endpoint",
    ["a#video-title"; "a.ytd-video-renderer"; "a.yt-simple-endpoint"])).
Proof.
  split.
  - unfold getAllVideoElementsTraced.
    destruct (cascade_spec querySelectorAll document selectors [])
      as [(tried & s & later & Hsel & Hall & Hne & Hrun) | [Hall Hrun]].
    + left. exists tried, s, later. repeat split; try assumption.
      assert (Hnd : NoDup selectors) by (apply NoDup_ListNoDup; vm_compute;
        repeat constructor; simpl; intuition discriminate).
      rewrite Hsel in Hnd. apply Forall_forall. intros x Hx Hin.
      apply NoDup_app in Hnd as (_ & Hdisj & Hnd').
      apply elem_of_app in Hin as [Hin|Hin].
      * apply (Hdisj x Hin). now right.
      * apply list_elem_of_singleton in Hin. subst x.
        now apply NoDup_cons in Hnd' as [? _].
    + right. split; assumption.
  - intros H0 H1 H2. unfold getAllVideoElementsTraced, selectors. simpl.
    unfold validOf in *. rewrite H0, H1. simpl.
    destruct (List.filter validElement
                (querySelectorAll document "a.yt-simple-endpoint"));
      [congruence | reflexivity].
Qed.

Lemma cascade_first_nonempty_witness :
  getAllVideoElementsTraced thirdQuery tt =
  (validOf thirdQuery tt "a.yt-simple-endpoint",
   ["a#video-title"; "a.ytd-video-renderer"; "a.yt-simple-endpoint"]).
Proof.
  apply (proj2 (cascade_first_nonempty thirdQuery tt));
    vm_compute; congruence.
Defined.

(** ** PaginatedCollector: the scroll loop *)

Section ScrollFacts.

Context {Dom : Type}.
Variable querySelectorAll : Dom -> string -> list Element.t.
Variable scrollAndWait : Dom -> Dom.

Lemma getAllVideoElements_valid (document : Dom) (el : Element.t) :
  el ∈ getAllVideoElements querySelectorAll document ->
  validElement el = true.
Proof.
  unfold getAllVideoElements, getAllVideoElementsTraced.
  destruct (cascade_spec querySelectorAll document selectors [])
    as [(tried & s & later & _ & _ & _ & ->) | [_ ->]]; simpl.
  - unfold validOf. intros Hin. apply list_elem_of_In in Hin.
    now apply List.filter_In in Hin as [_ ?].
  - intros Hin. now apply elem_of_nil in Hin.
Qed.

Lemma three_quiet_rounds (document : Dom) (fuel : nat) :
  (3 <= fuel)%nat ->
  (length (getAllVideoElements querySelectorAll document) < targetCount)%nat ->
  (forall k,
      length (getAllVideoElements querySelectorAll
                (Nat.iter k scrollAndWait document)) =
      length (getAllVideoElements querySelectorAll document)) ->
  scrollLoop querySelectorAll scrollAndWait fuel
    (initialState querySelectorAll document) =
  Some {| page := Nat.iter 3 scrollAndWait document;
          videoElements :=
            getAllVideoElements querySelectorAll
              (Nat.iter 3 scrollAndWait document);
          previousLength :=
            length (getAllVideoElements querySelectorAll document);
          scrollAttempts := 3;
          consecutiveNoChangeCount := 3 |}.
Proof.
  intros Hfuel Hsmall Hsame.
  destruct fuel as [|[|[|fuel]]]; try lia.
  pose proof (Hsame 1%nat) as H1. pose proof (Hsame 2%nat) as H2.
  pose proof (Hsame 3%nat) as H3. simpl Nat.iter in *.
  apply Nat.ltb_lt in Hsmall.
  set (n0 := length (getAllVideoElements querySelectorAll document)) in *.
  assert (Hstep : forall d els p a c,
    length els = n0 ->
    length (getAllVideoElements querySelectorAll (scrollAndWait d)) = n0 ->
    loopBody querySelectorAll scrollAndWait
      {| page := d; videoElements := els; previousLength := p;
         scrollAttempts := a; consecutiveNoChangeCount := c |} =
    {| page := scrollAndWait d;
       videoElements := getAllVideoElements querySelectorAll (scrollAndWait d);
       previousLength := n0;
       scrollAttempts := S a; consecutiveNoChangeCount := S c |}).
  { intros d els p a c Hels Hd. unfold loopBody. simpl.
    now rewrite Hels, Hd, Nat.eqb_refl. }
  assert (Hcond : forall (d : Dom) els p a c,
    length els = n0 ->
    loopCondition (Dom := Dom)
      {| page := d; videoElements := els; previousLength := p;
         scrollAttempts := a; consecutiveNoChangeCount := c |} =
    (a <? maxScrollAttempts)%nat && (c <? maxConsecutiveNoChanges)%nat).
  { intros d els p a c Hels. unfold loopCondition. simpl.
    now rewrite Hels, Hsmall. }
  unfold initialState.
  cbn [scrollLoop]. rewrite Hcond by reflexivity. cbn [andb Nat.ltb Nat.leb
    maxScrollAttempts maxConsecutiveNoChanges]. rewrite Hstep by auto.
  cbn [scrollLoop]. rewrite Hcond by auto. cbn [andb Nat.ltb Nat.leb
    maxScrollAttempts maxConsecutiveNoChanges]. rewrite Hstep by auto.
  cbn [scrollLoop]. rewrite Hcond by auto. cbn [andb Nat.ltb Nat.leb
    maxScrollAttempts maxConsecutiveNoChanges]. rewrite Hstep by auto.
  destruct fuel; cbn [scrollLoop]; rewrite Hcond by auto; reflexivity.
Qed.

End ScrollFacts.

(** C4, as amended: when the first query finds fewer than 100 elements
    and every query after a scroll finds as many as the first one, the
    scroll loop stops after exactly [maxConsecutiveNoChanges] = 3 rounds,
    each of them without growth; when the last query finds the initial
    elements again, the links returned are the URLs of all of them, each
    once, in the order of their first occurrence. *)
Theorem no_growth_three_rounds
    {Dom : Type} (querySelectorAll : Dom -> string -> list Element.t)
    (scrollAndWait : Dom -> Dom) (document : Dom) (fuel : nat) :
  (3 <= fuel)%nat ->
  (length (getAllVideoElements querySelectorAll document) < targetCount)%nat ->
  (forall k,
      length (getAllVideoElements querySelectorAll
                (Nat.iter k scrollAndWait document)) =
      length (getAllVideoElements querySelectorAll document)) ->
  exists st,
    scrollLoop querySelectorAll scrollAndWait fuel
      (initialState querySelectorAll document) = Some st /\
    scrollAttempts st = maxConsecutiveNoChanges /\
    consecutiveNoChangeCount st = maxConsecutiveNoChanges /\
    videoElements st =
      getAllVideoElements querySelectorAll (Nat.iter 3 scrollAndWait document) /\
    (videoElements st = getAllVideoElements querySelectorAll document ->
     exists links,
       collectVideoLinks querySelectorAll scrollAndWait fuel document
       = Some links /\
       links = firstSeen id nonEmpty []
                 (hrefs (getAllVideoElements querySelectorAll document)) /\
       forall el, el ∈ getAllVideoElements querySelectorAll document ->
                  Element.href el ∈ links).
Proof.
  intros Hfuel Hsmall Hsame.
  pose proof (three_quiet_rounds querySelectorAll scrollAndWait document fuel
                Hfuel Hsmall Hsame) as Hrun.
  eexists. split; [exact Hrun|]. cbn [scrollAttempts consecutiveNoChangeCount
    videoElements]. repeat split.
  intros Hback. unfold collectVideoLinks. rewrite Hrun.
  cbn [videoElements]. rewrite Hback, uniqueLinksOf_firstSeen.
  set (els := getAllVideoElements querySelectorAll document) in *.
  assert (Hlen : (length (firstSeen id nonEmpty [] (hrefs els)) <= 100)%nat).
  { pose proof (sublist_length _ _
                  (firstSeen_sublist id nonEmpty (hrefs els) [])) as Hl.
    unfold hrefs in Hl at 2. rewrite length_fmap in Hl.
    unfold targetCount in Hsmall. lia. }
  eexists. split; [reflexivity|]. rewrite take_ge by exact Hlen.
  split; [reflexivity|].
  intros el Hel.
  destruct (firstSeen_covers id nonEmpty (hrefs els) [] (Element.href el))
    as (y & Hy & Hk).
  - unfold hrefs. apply list_elem_of_fmap. now exists el.
  - apply (getAllVideoElements_valid querySelectorAll document) in Hel.
    unfold validElement in Hel. now apply andb_prop in Hel as [? _].
  - apply not_elem_of_nil.
  - unfold id in Hk. now subst y.
Qed.

Lemma no_growth_three_rounds_witness :
  exists st,
    scrollLoop (staticQuery smallPage) id 20
      (initialState (staticQuery smallPage) tt) = Some st /\
    scrollAttempts st = maxConsecutiveNoChanges /\
    consecutiveNoChangeCount st = maxConsecutiveNoChanges.
Proof.
  destruct (no_growth_three_rounds (staticQuery smallPage) id tt 20)
    as (st & Hrun & Ha & Hc & _).
  - lia.
  - vm_compute. lia.
  - intros k. now destruct (Nat.iter k id tt).
  - exists st. repeat split; assumption.
Defined.

(** C4, as stated, fails on a document whose first query already finds
    100 elements and that never changes: nothing grows, and the loop stops
    before its first round, not after three. *)
Lemma no_growth_counterexample :
  (forall k,
      length (getAllVideoElements (staticQuery fullPage) (Nat.iter k id tt)) =
      length (getAllVideoElements (staticQuery fullPage) tt)) /\
  exists st,
    scrollLoop (staticQuery fullPage) id maxScrollAttempts
      (initialState (staticQuery fullPage) tt) = Some st /\
    scrollAttempts st = 0%nat /\
    consecutiveNoChangeCount st = 0%nat /\
    scrollAttempts st <> maxConsecutiveNoChanges.
Proof.
  split.
  - intros k. now destruct (Nat.iter k id tt).
  - eexists. split; [vm_compute; reflexivity|].
    repeat split. discriminate.
Qed.

(** ** The per-candidate loop *)

Section DriverFacts.

Context {Browser : Type}.
Variable acquireTranscript : string -> Browser -> Browser * result acquisition.
Variable keywords : list string.
Variable exactPhraseSearch : bool.

Lemma processed_app (a b : list logLine) :
  processed (a ++ b) = processed a ++ processed b.
Proof. apply omap_app. Qed.

Lemma diagnostics_app (a b : list logLine) :
  diagnostics (a ++ b) = diagnostics a ++ diagnostics b.
Proof. apply omap_app. Qed.

(** What the block of the [try] leaves behind, however it ends: one more
    candidate taken up, no diagnostic, and the results at most extended. *)
Lemma tryBlock_effect (st : RunState Browser) (videoUrl : string) :
  forall st1 outcome,
  tryBlock acquireTranscript keywords exactPhraseSearch st videoUrl
  = (st1, outcome) ->
  processed (console st1) = processed (console st) ++ [videoUrl] /\
  diagnostics (console st1) = diagnostics (console st) /\
  transcriptResults st `prefix_of` transcriptResults st1 /\
  (forall message, outcome = Throw message ->
                   transcriptResults st1 = transcriptResults st).
Proof.
  unfold tryBlock. cbn [logTo browser console transcriptResults].
  intros st1 outcome.
  destruct (acquireTranscript videoUrl (browser st))
    as [b [[id title segs|]|e]];
    try (intros [= <- <-]; cbn [console transcriptResults];
         rewrite processed_app, diagnostics_app, !app_nil_r;
         repeat split; reflexivity || discriminate).
  destruct (findKeywordMatches videoUrl keywords exactPhraseSearch segs)
    as [ms|e].
  - destruct (0 <? length (filterDuplicates ms))%nat;
      intros [= <- <-]; cbn [logTo console transcriptResults];
      rewrite !processed_app, !diagnostics_app, !app_nil_r;
      repeat split; try reflexivity; try discriminate.
    now apply prefix_app_r.
  - intros [= <- <-]. cbn [console transcriptResults].
    rewrite processed_app, diagnostics_app, !app_nil_r.
    repeat split; reflexivity.
Qed.

(** One round of the loop: it completes, and an exception of the block
    has become a diagnostic. *)
Lemma processCandidate_effect (st : RunState Browser) (videoUrl : string) :
  forall st1 outcome,
  tryBlock acquireTranscript keywords exactPhraseSearch st videoUrl
  = (st1, outcome) ->
  exists st',
    processCandidate acquireTranscript keywords exactPhraseSearch st videoUrl
    = (st', Ok tt) /\
    processed (console st') = processed (console st) ++ [videoUrl] /\
    transcriptResults st `prefix_of` transcriptResults st' /\
    diagnostics (console st') =
    diagnostics (console st) ++
    match outcome with
    | Throw message => [(videoUrl, message)]
    | Ok _ => []
    end.
Proof.
  intros st1 outcome Htry.
  destruct (tryBlock_effect st videoUrl st1 outcome Htry)
    as (Hp & Hd & Hr & _).
  unfold processCandidate. rewrite Htry.
  destruct outcome as [[]|e]; eexists; (split; [reflexivity|]);
    cbn [logTo console transcriptResults].
  - now rewrite app_nil_r.
  - rewrite processed_app, diagnostics_app, Hp, Hd. simpl.
    now rewrite app_nil_r.
Qed.

Lemma processCandidate_ok (st : RunState Browser) (videoUrl : string) :
  snd (processCandidate acquireTranscript keywords exactPhraseSearch
         st videoUrl) = Ok tt.
Proof.
  destruct (tryBlock acquireTranscript keywords exactPhraseSearch st videoUrl)
    as [st1 outcome] eqn:Htry.
  destruct (processCandidate_effect st videoUrl st1 outcome Htry)
    as (st' & -> & _).
  reflexivity.
Qed.

Lemma processCandidates_cons (videoUrl : string) (rest : list string)
    (st : RunState Browser) :
  processCandidates acquireTranscript keywords exactPhraseSearch
    (videoUrl :: rest) st =
  processCandidates acquireTranscript keywords exactPhraseSearch rest
    (fst (processCandidate acquireTranscript keywords exactPhraseSearch
            st videoUrl)).
Proof.
  pose proof (processCandidate_ok st videoUrl) as Hok.
  simpl.
  destruct (processCandidate _ _ _ st videoUrl) as [st' [[]|e]];
    [reflexivity | discriminate].
Qed.

Lemma processCandidates_effect (videoLinks : list string) :
  forall st final outcome,
  processCandidates acquireTranscript keywords exactPhraseSearch videoLinks st
  = (final, outcome) ->
  outcome = Ok tt /\
  processed (console final) = processed (console st) ++ videoLinks /\
  transcriptResults st `prefix_of` transcriptResults final.
Proof.
  induction videoLinks as [|u rest IH]; intros st final outcome.
  - simpl. intros [= <- <-]. now rewrite app_nil_r.
  - rewrite processCandidates_cons.
    destruct (tryBlock acquireTranscript keywords exactPhraseSearch st u)
      as [st1 o] eqn:Htry.
    destruct (processCandidate_effect st u st1 o Htry)
      as (st' & -> & Hp1 & Hr1 & _).
    cbn [fst]. intros Hrun.
    destruct (IH _ _ _ Hrun) as (Hok & Hp & Hr).
    split; [assumption|]. split.
    + rewrite Hp, Hp1, <- app_assoc. reflexivity.
    + now transitivity (transcriptResults st').
Qed.

End DriverFacts.

(** C9: whatever the browser does for a candidate, the loop over the
    candidates ends normally, having taken up every candidate in order and
    kept the results it had.  An exception thrown in the block of a
    candidate is caught there: the candidate contributes no result, a
    diagnostic with its address and the message is printed, and the loop
    goes on with the candidates that remain. *)
Theorem candidate_errors_are_contained
    {Browser : Type}
    (acquireTranscript : string -> Browser -> Browser * result acquisition)
    (keywords : list string) (exactPhraseSearch : bool) :
  (forall videoLinks st final outcome,
      processCandidates acquireTranscript keywords exactPhraseSearch
        videoLinks st = (final, outcome) ->
      outcome = Ok tt /\
      processed (console final) = processed (console st) ++ videoLinks /\
      transcriptResults st `prefix_of` transcriptResults final) /\
  (forall st videoUrl st1 message,
      tryBlock acquireTranscript keywords exactPhraseSearch st videoUrl
      = (st1, Throw message) ->
      processCandidate acquireTranscript keywords exactPhraseSearch st videoUrl
      = (logTo (ErrorProcessing videoUrl message) st1, Ok tt) /\
      transcriptResults st1 = transcriptResults st /\
      diagnostics (console (logTo (ErrorProcessing videoUrl message) st1)) =
      diagnostics (console st) ++ [(videoUrl, message)]) /\
  (forall before videoUrl rest st,
      processCandidates acquireTranscript keywords exactPhraseSearch
        (before ++ videoUrl :: rest) st =
      processCandidates acquireTranscript keywords exactPhraseSearch rest
        (fst (processCandidate acquireTranscript keywords exactPhraseSearch
                (fst (processCandidates acquireTranscript keywords
                        exactPhraseSearch before st))
                videoUrl))).
Proof.
  split; [|split].
  - intros videoLinks st final outcome.
    apply processCandidates_effect.
  - intros st videoUrl st1 message Htry.
    destruct (tryBlock_effect acquireTranscript keywords exactPhraseSearch
                st videoUrl st1 _ Htry) as (_ & Hd & _ & Hkeep).
    unfold processCandidate. rewrite Htry.
    split; [reflexivity|]. split; [now apply (Hkeep message)|].
    cbn [logTo console]. rewrite diagnostics_app, Hd. reflexivity.
  - intros before. induction before as [|u before IH]; intros videoUrl rest st.
    + apply processCandidates_cons.
    + simpl app. rewrite !processCandidates_cons. apply IH.
Qed.

Lemma candidate_errors_are_contained_witness :
  processCandidate flakyBrowser ["agent"] false
    {| browser := tt; transcriptResults := []; console := [] |}
    "https://www.youtube.com/watch?v=bad"
  = ({| browser := tt; transcriptResults := [];
        console := [ Processing "https://www.youtube.com/watch?v=bad";
                     ErrorProcessing "https://www.youtube.com/watch?v=bad"
                       "Navigation timeout of 30000 ms exceeded" ] |},
     Ok tt).
Proof.
  apply (proj1 (proj2 (candidate_errors_are_contained flakyBrowser
                         ["agent"] false))
           {| browser := tt; transcriptResults := []; console := [] |}
           "https://www.youtube.com/watch?v=bad"
           {| browser := tt; transcriptResults := [];
              console := [ Processing "https://www.youtube.com/watch?v=bad" ] |}
           "Navigation timeout of 30000 ms exceeded").
  reflexivity.
Defined.

(** ** The word-boundary pattern *)

Lemma special_not_alnum (c : ascii) :
  regexSpecial c = true -> Char.isAlnum c = false.
Proof.
  destruct c as [[] [] [] [] [] [] [] []]; intros H;
    try discriminate H; reflexivity.
Qed.

(** A code unit the escape leaves alone is an ordinary pattern character:
    no backslash, bracket or brace, and no punctuation of the syntax. *)
Lemma plain_is_literal (c : ascii) :
  regexSpecial c = false ->
  Ascii.eqb c "\" = false /\ Ascii.eqb c "[" = false /\
  Ascii.eqb c "{" = false /\ RegExp.punctuation c = None.
Proof.
  destruct c as [[] [] [] [] [] [] [] []]; intros H;
    try discriminate H; repeat split; reflexivity.
Qed.

(** The escaped keyword is lexed as the characters of the keyword. *)
Lemma lex_escaped (keyword rest : string) :
  RegExp.lex RegExp.Outside (escapeRegExp keyword +:+ rest) =
  match RegExp.lex RegExp.Outside rest with
  | Some ts =>
      Some (List.map RegExp.TChar (list_ascii_of_string keyword) ++ ts)
  | None => None
  end.
Proof.
  induction keyword as [|c keyword IH]; simpl escapeRegExp.
  - sapp. simpl. now destruct (RegExp.lex RegExp.Outside rest).
  - destruct (regexSpecial c) eqn:Hc; sapp.
    + cbn [RegExp.lex]. rewrite Ascii.eqb_refl.
      rewrite (special_not_alnum c Hc), IH.
      now destruct (RegExp.lex RegExp.Outside rest).
    + destruct (plain_is_literal c Hc) as (H1 & H2 & H3 & H4).
      cbn [RegExp.lex]. rewrite H1, H2, H3, H4, IH.
      now destruct (RegExp.lex RegExp.Outside rest).
Qed.

Lemma parse_chars (cs : list ascii) :
  forall al terms stack ts,
  RegExp.parseFrom (RegExp.Frame al terms :: stack)
    (List.map RegExp.TChar cs ++ ts) =
  RegExp.parseFrom
    (RegExp.Frame al (List.rev (List.map RegExp.Chr cs) ++ terms) :: stack) ts.
Proof.
  induction cs as [|c cs IH]; intros al terms stack ts; [reflexivity|].
  simpl. rewrite IH, <- app_assoc. reflexivity.
Qed.

Lemma seqOf_literal (keyword : string) (terms : list RegExp.regex)
    (k : RegExp.regex) :
  List.fold_left (fun acc t => RegExp.Seq t acc)
    (List.rev (List.map RegExp.Chr (list_ascii_of_string keyword)) ++ terms) k
  = List.fold_left (fun acc t => RegExp.Seq t acc) terms (literal keyword k).
Proof.
  rewrite fold_left_app. f_equal. revert k.
  induction keyword as [|c keyword IH]; intros k; [reflexivity|].
  simpl. rewrite fold_left_app. simpl. now rewrite IH.
Qed.

(** The source built for a keyword always compiles, and to the pattern
    intended: whatever the keyword holds, the escape makes it literal. *)
Lemma compile_keywordRegexSource (keyword : string) :
  RegExp.compile (keywordRegexSource keyword) = Some (wordBoundary keyword).
Proof.
  unfold RegExp.compile, keywordRegexSource.
  sapp.
  cbn [RegExp.lex Ascii.eqb Bool.eqb RegExp.punctuation andb orb negb].
  rewrite lex_escaped.
  change (RegExp.lex RegExp.Outside "([^a-zA-Z0-9]|$)")
    with (Some [RegExp.TOpen; RegExp.TClass true alnumClass; RegExp.TBar;
                RegExp.TDollar; RegExp.TClose]).
  change (Char.code "z" <? Char.code "a")%N with false.
  change (Char.code "Z" <? Char.code "A")%N with false.
  change (Char.code "9" <? Char.code "0")%N with false.
  cbn [RegExp.consTok List.rev app].
  cbn [RegExp.parseFrom RegExp.step RegExp.pushAtom RegExp.alts RegExp.cur
       RegExp.disjOf RegExp.seqOf List.fold_left List.fold_right app].
  rewrite parse_chars.
  cbn [RegExp.parseFrom RegExp.step RegExp.pushAtom RegExp.alts RegExp.cur
       RegExp.disjOf RegExp.seqOf List.fold_left List.fold_right app].
  f_equal. unfold wordBoundary.
  change (RegExp.Seq
            (RegExp.Group
               (RegExp.Alt
                  (RegExp.Seq (RegExp.Class true
                     [("a"%char, "z"%char); ("A"%char, "Z"%char);
                      ("0"%char, "9"%char)]) RegExp.Eps)
                  (RegExp.Seq RegExp.Eol RegExp.Eps))) RegExp.Eps)
    with (RegExp.Seq rightBoundary RegExp.Eps).
  rewrite (seqOf_literal keyword). reflexivity.
Qed.

(** ** What the word-boundary pattern matches *)

Lemma inClass_alnum (d : ascii) : RegExp.inClass alnumClass d = Char.isAlnum d.
Proof.
  destruct d as [[] [] [] [] [] [] [] []]; vm_compute; reflexivity.
Qed.

Lemma hasPlace_app (a b : list RegExp.place) :
  RegExp.hasPlace (a ++ b) = RegExp.hasPlace a || RegExp.hasPlace b.
Proof. destruct a; [reflexivity | reflexivity]. Qed.

Lemma hasPlace_flat_map (f : RegExp.place -> list RegExp.place)
    (l : list RegExp.place) :
  RegExp.hasPlace (List.flat_map f l) =
  List.existsb (fun p => RegExp.hasPlace (f p)) l.
Proof.
  induction l as [|p l IH]; simpl; [reflexivity|].
  now rewrite hasPlace_app, IH.
Qed.

Lemma matchesAt_right (b : bool) (s : string) :
  RegExp.matchesAt (RegExp.Seq rightBoundary RegExp.Eps) (b, s) =
  boundaryAhead s.
Proof.
  unfold RegExp.matchesAt. cbn [RegExp.run rightBoundary].
  rewrite hasPlace_flat_map, existsb_app.
  unfold RegExp.advance. cbn [snd].
  destruct s as [|d s]; [reflexivity|].
  cbn [xorb]. rewrite inClass_alnum. cbn [boundaryAhead].
  destruct (Char.isAlnum d); reflexivity.
Qed.

Lemma matchesAt_literal (keyword : string) : forall b s,
  RegExp.matchesAt
    (literal keyword (RegExp.Seq rightBoundary RegExp.Eps)) (b, s) =
  keywordAhead keyword s.
Proof.
  induction keyword as [|c keyword IH]; intros b s.
  - apply matchesAt_right.
  - unfold RegExp.matchesAt. cbn [literal RegExp.run].
    rewrite hasPlace_flat_map. unfold RegExp.advance, keywordAhead.
    cbn [snd afterPrefix].
    destruct s as [|d s]; [reflexivity|].
    destruct (RegExp.sameChar c d); [|reflexivity].
    cbn [existsb]. rewrite orb_false_r. apply IH.
Qed.

(** A match of the pattern starts at a place when the keyword is ahead
    and the place is the start of the text, or when a code unit outside
    [a-zA-Z0-9] is ahead and the keyword behind it. *)
Lemma matchesAt_wordBoundary (keyword : string) (b : bool) (s : string) :
  RegExp.matchesAt (wordBoundary keyword) (b, s) =
  (b && keywordAhead keyword s) ||
  match s with
  | String d s' => negb (Char.isAlnum d) && keywordAhead keyword s'
  | EmptyString => false
  end.
Proof.
  unfold RegExp.matchesAt, wordBoundary. cbn [RegExp.run leftBoundary].
  rewrite hasPlace_flat_map, existsb_app.
  fold (literal keyword (RegExp.Seq rightBoundary RegExp.Eps)).
  f_equal.
  - destruct b; cbn [fst flat_map app existsb]; [|reflexivity].
    rewrite orb_false_r. apply (matchesAt_literal keyword true s).
  - unfold RegExp.advance. cbn [snd]. destruct s as [|d s]; [reflexivity|].
    cbn [xorb]. rewrite inClass_alnum.
    destruct (Char.isAlnum d); cbn [negb flat_map app existsb andb];
      [reflexivity|].
    rewrite orb_false_r. apply (matchesAt_literal keyword false s).
Qed.

Lemma afterPrefix_split (keyword : string) : forall s post,
  afterPrefix keyword s = Some post <->
  exists mid, s = mid +:+ post /\ afterPrefix keyword mid = Some "".
Proof.
  induction keyword as [|c keyword IH]; intros s post; cbn [afterPrefix].
  - split.
    + intros [= ->]. now exists "".
    + intros (mid & -> & [= ->]). reflexivity.
  - destruct s as [|d s].
    + split; [discriminate|].
      intros ([|e mid] & Hs & Hm); [discriminate | now sapp].
    + split.
      * destruct (RegExp.sameChar c d) eqn:Hcd; [|discriminate].
        intros H. apply IH in H as (mid & -> & Hm).
        exists (String d mid). split; [now sapp|].
        cbn [afterPrefix]. now rewrite Hcd.
      * intros ([|e mid] & Hs & Hm); [discriminate|].
        sapp. injection Hs as -> ->. cbn [afterPrefix] in Hm.
        destruct (RegExp.sameChar c e); [|discriminate].
        apply IH. now exists mid.
Qed.

Lemma boundaryAhead_rightFlank (post : string) :
  boundaryAhead post = true <-> rightFlank post.
Proof.
  unfold rightFlank. destruct post as [|d post]; cbn [boundaryAhead].
  - split; [now left | reflexivity].
  - rewrite negb_true_iff. split.
    + intros H. right. now exists d, post.
    + intros [H|(e & post' & [= -> ->] & H)]; [discriminate | assumption].
Qed.

Lemma keywordAhead_spec (keyword s : string) :
  keywordAhead keyword s = true <->
  exists mid post,
    s = mid +:+ post /\ afterPrefix keyword mid = Some "" /\ rightFlank post.
Proof.
  unfold keywordAhead. split.
  - destruct (afterPrefix keyword s) as [rest|] eqn:Ha; [|discriminate].
    intros Hb. apply afterPrefix_split in Ha as (mid & -> & Hm).
    exists mid, rest. now rewrite <- boundaryAhead_rightFlank.
  - intros (mid & post & -> & Hm & Hr).
    assert (Ha : afterPrefix keyword (mid +:+ post) = Some post)
      by (apply afterPrefix_split; now exists mid).
    rewrite Ha. now apply boundaryAhead_rightFlank.
Qed.

Lemma searchFrom_wordBoundary (keyword : string) : forall s b,
  RegExp.searchFrom (wordBoundary keyword) b s = true <->
  (b = true /\ keywordAhead keyword s = true) \/
  exists pre d post,
    s = pre +:+ String d post /\ Char.isAlnum d = false /\
    keywordAhead keyword post = true.
Proof.
  induction s as [|e s IH]; intros b; cbn [RegExp.searchFrom];
    rewrite matchesAt_wordBoundary.
  - rewrite !orb_false_r, andb_true_iff. split.
    + intros H. now left.
    + intros [H|(pre & d & post & Hs & _)]; [assumption|].
      destruct pre; discriminate.
  - rewrite !orb_true_iff, !andb_true_iff, negb_true_iff, IH. split.
    + intros [[H|[He Hk]]|[[H _]|(pre & d & post & -> & Hd & Hk)]];
        try discriminate.
      * now left.
      * right. now exists "", e, s.
      * right. exists (String e pre), d, post. now sapp.
    + intros [H|(pre & d & post & Hs & Hd & Hk)].
      * left. now left.
      * destruct pre as [|x pre]; sapp; injection Hs as -> ->.
        -- left. now right.
        -- right. right. now exists pre, d, post.
Qed.

(** [test] on the word-boundary pattern finds a flanked occurrence of the
    keyword, the comparison being the one of the [i] flag. *)
Lemma test_wordBoundary (keyword text : string) :
  RegExp.test (wordBoundary keyword) text = true <->
  exists pre mid post,
    text = pre +:+ mid +:+ post /\ afterPrefix keyword mid = Some "" /\
    leftFlank pre /\ rightFlank post.
Proof.
  unfold RegExp.test. rewrite searchFrom_wordBoundary. split.
  - intros [[_ Hk]|(pre & d & post & -> & Hd & Hk)];
      apply keywordAhead_spec in Hk as (mid & post' & -> & Hm & Hr).
    + exists "", mid, post'. repeat split; try assumption. now left.
    + exists (pre +:+ String d ""), mid, post'.
      repeat split; try assumption.
      * now rewrite append_assoc.
      * right. now exists pre, d.
  - intros (pre & mid & post & -> & Hm & [->|(pre' & d & -> & Hd)] & Hr).
    + left. split; [reflexivity|]. apply keywordAhead_spec.
      now exists mid, post.
    + right. exists pre', d, (mid +:+ post).
      rewrite append_assoc. repeat split; try assumption.
      apply keywordAhead_spec. now exists mid, post.
Qed.

(** *** Lower case *)









Lemma startsWith_spec (p s : string) :
  Str.startsWith p s = true <-> exists post, s = p +:+ post.
Proof.
  revert s. induction p as [|c p IH]; intros s; simpl.
  - split; [intros _; now exists s | reflexivity].
  - destruct s as [|d s].
    + split; [discriminate | intros (post & H); discriminate H].
    + rewrite andb_true_iff, Ascii.eqb_eq, IH. split.
      * intros [-> (post & ->)]. now exists post.
      * intros (post & H). sapp. injection H as -> ->. split; eauto.
Qed.

Lemma includes_spec (s p : string) :
  Str.includes s p = true <-> exists pre post, s = pre +:+ p +:+ post.
Proof.
  induction s as [|d s IH]; cbn [Str.includes];
    rewrite orb_true_iff, startsWith_spec.
  - split.
    + intros [(post & H)|H]; [|discriminate]. now exists "", post.
    + intros ([|? ?] & post & H); [|discriminate]. left. now exists post.
  - rewrite IH. split.
    + intros [(post & H)|(pre & post & ->)].
      * now exists "", post.
      * now exists (String d pre), post.
    + intros ([|x pre] & post & H); sapp.
      * left. now exists post.
      * injection H as -> ->. right. now exists pre, post.
Qed.


Lemma keywordFound_wordBoundary (text keyword : string) :
  keywordFound false (Str.toLowerCase text) (Str.toLowerCase keyword) =
  Ok (RegExp.test (wordBoundary (Str.toLowerCase keyword))
        (Str.toLowerCase text)).
Proof.
  unfold keywordFound. now rewrite compile_keywordRegexSource.
Qed.




(** ** KeywordTimeMatcher: the loops *)

Section MatcherFacts.

Variable videoUrl : string.
Variable keywords : list string.
Variable exactPhraseSearch : bool.
Variable segments : list Segment.t.

Lemma keywordFound_foundIn (seg : Segment.t) (keyword : string) :
  keywordFound exactPhraseSearch (Str.toLowerCase (Segment.text seg))
    (Str.toLowerCase keyword) = Ok (foundIn exactPhraseSearch seg keyword).
Proof.
  unfold keywordFound, foundIn. destruct exactPhraseSearch; [reflexivity|].
  now rewrite compile_keywordRegexSource.
Qed.

Lemma forOf_keywordStep (seg : Segment.t) (duration : JsNumber)
    (kws : list string) : forall acc,
  forOf (keywordStep videoUrl exactPhraseSearch seg (startOf seg) duration)
    kws acc =
  Ok (acc ++ List.map (matchOf videoUrl seg duration)
               (List.filter (foundIn exactPhraseSearch seg) kws)).
Proof.
  induction kws as [|kw kws IH]; intros acc; cbn [forOf List.filter].
  - now rewrite app_nil_r.
  - unfold keywordStep at 1. rewrite keywordFound_foundIn. cbn [bind].
    destruct (foundIn exactPhraseSearch seg kw); cbn [bind]; rewrite IH;
      [|reflexivity].
    cbn [List.map]. now rewrite <- app_assoc.
Qed.

Lemma segmentStep_spec (acc : list KeywordMatch.t) (i : nat) :
  (i < length segments)%nat ->
  segmentStep videoUrl keywords exactPhraseSearch segments acc i =
  Ok (acc ++ segmentMatches videoUrl keywords exactPhraseSearch segments i).
Proof.
  intros Hi. unfold segmentStep, segmentMatches, segmentAt.
  destruct (lookup_lt_is_Some_2 segments i Hi) as [seg Hseg].
  rewrite Hseg. cbn [bind].
  fold (startOf seg).
  assert (Hend :
    (if Z.of_nat i <? Z.of_nat (length segments) - 1
     then do next <- match segments !! (i + 1)%nat with
                     | Some segment => Ok segment
                     | None => Throw "Cannot read properties of undefined"
                     end;
          Ok (timestampToSeconds (Segment.timestamp next))
     else Ok (add (startOf seg) (ofZ 5))) = Ok (endOf segments i seg)).
  { unfold endOf. rewrite Nat.add_1_r.
    destruct (Z.ltb_spec (Z.of_nat i) (Z.of_nat (length segments) - 1)) as [H|H].
    - destruct (lookup_lt_is_Some_2 segments (S i)) as [next Hnext]; [lia|].
      now rewrite Hnext.
    - rewrite (lookup_ge_None_2 segments (S i)) by lia. reflexivity. }
  rewrite Hend. cbn [bind]. apply forOf_keywordStep.
Qed.

Lemma forOf_segmentStep (n : nat) : forall a acc,
  (a + n = length segments)%nat ->
  forOf (segmentStep videoUrl keywords exactPhraseSearch segments)
    (List.seq a n) acc =
  Ok (acc ++ List.flat_map
               (segmentMatches videoUrl keywords exactPhraseSearch segments)
               (List.seq a n)).
Proof.
  induction n as [|n IH]; intros a acc Han; cbn [List.seq forOf List.flat_map].
  - now rewrite app_nil_r.
  - rewrite segmentStep_spec by lia. cbn [bind].
    rewrite IH by lia. now rewrite <- app_assoc.
Qed.

(** The matcher never throws; its matches are those of the segments, in
    the order of the segments. *)
Lemma findKeywordMatches_spec :
  findKeywordMatches videoUrl keywords exactPhraseSearch segments =
  Ok (List.flat_map
        (segmentMatches videoUrl keywords exactPhraseSearch segments)
        (List.seq 0 (length segments))).
Proof.
  unfold findKeywordMatches. now rewrite forOf_segmentStep.
Qed.

Lemma elem_of_matches (m : KeywordMatch.t) :
  m ∈ List.flat_map
        (segmentMatches videoUrl keywords exactPhraseSearch segments)
        (List.seq 0 (length segments)) <->
  exists i seg keyword,
    segments !! i = Some seg /\ keyword ∈ keywords /\
    foundIn exactPhraseSearch seg keyword = true /\
    m = matchOf videoUrl seg (durationOf segments i seg) keyword.
Proof.
  rewrite list_elem_of_In, in_flat_map. split.
  - intros (i & Hi & Hm). unfold segmentMatches in Hm.
    destruct (segments !! i) as [seg|] eqn:Hseg; [|destruct Hm].
    apply in_map_iff in Hm as (kw & <- & Hkw).
    apply filter_In in Hkw as [Hkw Hf].
    exists i, seg, kw. now rewrite list_elem_of_In.
  - intros (i & seg & kw & Hseg & Hkw & Hf & ->).
    exists i. split.
    + apply in_seq. apply lookup_lt_Some in Hseg. lia.
    + unfold segmentMatches. rewrite Hseg. apply in_map, filter_In.
      now rewrite <- list_elem_of_In.
Qed.

End MatcherFacts.

(** ** KeywordTimeMatcher: the resolved second *)

Lemma length_toLowerCase (s : string) :
  String.length (Str.toLowerCase s) = String.length s.
Proof. induction s as [|c s IH]; simpl; [reflexivity | now rewrite IH]. Qed.

Lemma indexOfFrom_bounds (p s : string) : forall i,
  0 <= i -> Str.indexOfFrom i p s = -1 \/ i <= Str.indexOfFrom i p s.
Proof.
  induction s as [|c s IH]; intros i Hi; cbn [Str.indexOfFrom].
  - destruct (Str.startsWith p ""); [right; lia | now left].
  - destruct (Str.startsWith p (String c s)); [right; lia|].
    destruct (IH (i + 1) ltac:(lia)) as [H|H]; [now left | right; lia].
Qed.

(** The estimate is the index of the keyword over the length of the text;
    a keyword that does not occur counts as index 0. *)
Lemma estimateKeywordPosition_ratio (text keyword : string) :
  text <> "" ->
  estimateKeywordPosition text keyword =
  div (ofZ (Z.max 0 (Str.indexOf (Str.toLowerCase text)
                       (Str.toLowerCase keyword))))
      (ofZ (Z.of_nat (String.length text))).
Proof.
  intros Hne. unfold estimateKeywordPosition. rewrite length_toLowerCase.
  destruct (indexOfFrom_bounds (Str.toLowerCase keyword)
              (Str.toLowerCase text) 0 ltac:(lia)) as [H|H];
    unfold Str.indexOf; [rewrite H | ].
  - simpl Z.eqb. cbv iota. simpl Z.max.
    unfold div, ofZ, isZero. simpl Qnum.
    destruct text; [congruence|]. reflexivity.
  - destruct (Z.eqb_spec (Str.indexOfFrom 0 (Str.toLowerCase keyword)
                            (Str.toLowerCase text)) (-1)) as [E|_]; [lia|].
    now rewrite Z.max_r by lia.
Qed.

Lemma round_formula (s d idx len : Z) :
  0 < len ->
  round (add (ofZ s) (mul (div (ofZ idx) (ofZ len)) (ofZ d))) =
  IFin (s + (2 * idx * d + len) / (2 * len)).
Proof.
  intros Hlen. unfold div, mul, add, round, ofZ, isZero. simpl Qnum.
  destruct (Z.eqb_spec len 0) as [->|_]; [lia|].
  f_equal.
  rewrite <- (Z.div_add_l s (2 * len) (2 * idx * d + len)) by lia.
  rewrite Zdiv_Qdiv. apply Qfloor_comp.
  rewrite !Qred_correct.
  rewrite !inject_Z_plus, !inject_Z_mult.
  assert (~ inject_Z len == 0)%Q.
  { intros H. apply (inject_Z_injective len 0) in H. lia. }
  field. assumption.
Qed.

(** *** Where the keyword is, and where the second falls *)

Lemma startsWith_length (p s : string) :
  Str.startsWith p s = true -> (String.length p <= String.length s)%nat.
Proof.
  intros H. apply startsWith_spec in H as (post & ->).
  rewrite length_append. lia.
Qed.

Lemma indexOfFrom_range (p s : string) : forall i,
  Str.indexOfFrom i p s = -1 \/
  (i <= Str.indexOfFrom i p s /\
   Str.indexOfFrom i p s + Z.of_nat (String.length p)
   <= i + Z.of_nat (String.length s)).
Proof.
  induction s as [|c s IH]; intros i; cbn [Str.indexOfFrom].
  - destruct (Str.startsWith p "") eqn:Hp; [|now left].
    apply startsWith_length in Hp. right. lia.
  - destruct (Str.startsWith p (String c s)) eqn:Hp.
    + apply startsWith_length in Hp. right. lia.
    + destruct (IH (i + 1)) as [H|H]; [now left|].
      right. cbn [String.length]. lia.
Qed.

(** [indexOf] finds what [includes] finds. *)
Lemma includes_indexOfFrom (p s : string) : forall i,
  0 <= i -> (Str.includes s p = true <-> Str.indexOfFrom i p s <> -1).
Proof.
  induction s as [|c s IH]; intros i Hi;
    cbn [Str.includes Str.indexOfFrom].
  - destruct (Str.startsWith p ""); simpl; split; try congruence; lia.
  - destruct (Str.startsWith p (String c s)); simpl.
    + split; [lia | reflexivity].
    + apply IH. lia.
Qed.

(** The index returned is the one of the first occurrence. *)
Lemma indexOfFrom_first (p s : string) : forall i pre post,
  s = pre +:+ p +:+ post ->
  Str.indexOfFrom i p s <= i + Z.of_nat (String.length pre).
Proof.
  induction s as [|c s IH]; intros i pre post Hs; cbn [Str.indexOfFrom].
  - destruct pre; [|discriminate]. sapp.
    replace (Str.startsWith p "") with true
      by (symmetry; apply startsWith_spec; now exists post).
    simpl. lia.
  - destruct (Str.startsWith p (String c s)) eqn:Hp; [lia|].
    destruct pre as [|x pre]; sapp.
    + exfalso. assert (Str.startsWith p (String c s) = true)
        by (apply startsWith_spec; now exists post). congruence.
    + injection Hs as -> ->.
      specialize (IH (i + 1) pre post eq_refl).
      cbn [String.length]. lia.
Qed.

Lemma indexOfFrom_occurrence (p s : string) : forall i,
  Str.indexOfFrom i p s <> -1 ->
  exists pre post,
    s = pre +:+ p +:+ post /\
    Str.indexOfFrom i p s = i + Z.of_nat (String.length pre).
Proof.
  induction s as [|c s IH]; intros i; cbn [Str.indexOfFrom].
  - destruct (Str.startsWith p "") eqn:Hp; [|congruence].
    intros _. apply startsWith_spec in Hp as (post & Hp).
    exists "", post. split; [now sapp | simpl; lia].
  - destruct (Str.startsWith p (String c s)) eqn:Hp.
    + intros _. apply startsWith_spec in Hp as (post & Hp).
      exists "", post. split; [now sapp | simpl; lia].
    + intros Hf. destruct (IH (i + 1) Hf) as (pre & post & -> & Hr).
      exists (String c pre), post. split; [now sapp|].
      rewrite Hr. cbn [String.length]. lia.
Qed.

Lemma keywordIndex_bounds (text keyword : string) :
  text <> "" ->
  0 <= Z.max 0 (Str.indexOf (Str.toLowerCase text) (Str.toLowerCase keyword))
  < Z.of_nat (String.length text).
Proof.
  intros Hne.
  assert (0 < Z.of_nat (String.length text))
    by (destruct text; [congruence | simpl; lia]).
  unfold Str.indexOf.
  destruct (indexOfFrom_range (Str.toLowerCase keyword)
              (Str.toLowerCase text) 0) as [->|[H0 Hr]]; [simpl; lia|].
  rewrite !length_toLowerCase in Hr.
  destruct keyword as [|k ks]; cbn [String.length] in Hr; [|lia].
  destruct text as [|c text]; [congruence|]. simpl. lia.
Qed.

Lemma offset_bounds (s d idx len : Z) :
  0 <= idx < len ->
  (0 <= d -> s <= s + (2 * idx * d + len) / (2 * len) <= s + d) /\
  (d <= 0 -> s + d <= s + (2 * idx * d + len) / (2 * len) <= s).
Proof.
  intros Hidx. split; intros Hd.
  - assert (0 <= (2 * idx * d + len) / (2 * len)).
    { apply Z.div_pos; nia. }
    assert ((2 * idx * d + len) / (2 * len) < d + 1).
    { apply Z.div_lt_upper_bound; nia. }
    lia.
  - assert (d <= (2 * idx * d + len) / (2 * len)).
    { apply Z.div_le_lower_bound; nia. }
    assert ((2 * idx * d + len) / (2 * len) < 1).
    { apply Z.div_lt_upper_bound; nia. }
    lia.
Qed.

(** ** The duplicate filter *)

Lemma all_digits_count (c : ascii) (s : string) :
  Char.isDigit c = false -> Str.all Char.isDigit s = true -> Str.count c s = O.
Proof.
  intros Hc. induction s as [|d s IH]; cbn [Str.all Str.count];
    [reflexivity|].
  intros H. apply andb_prop in H as [Hd Hs].
  now rewrite (digit_not d c Hd Hc), (IH Hs).
Qed.

(** The text of a number holds digits, and what "-Infinity" and "NaN"
    hold. *)
Lemma toString_count (c : ascii) (i : JsIntegral) :
  Char.isDigit c = false -> Str.count c "-Infinity" = O ->
  Str.count c "NaN" = O -> Str.count c (toString i) = O.
Proof.
  intros Hd Hinf Hnan. destruct i as [|[]|z]; cbn [toString]; try assumption.
  - cbn [Str.count] in Hinf |- *. destruct (Ascii.eqb "-" c); [discriminate|].
    exact Hinf.
  - destruct (Z.ltb_spec z 0) as [Hz|Hz].
    + destruct (digits_spec (- z) ltac:(lia)) as (Hall & _ & _).
      rewrite count_append, (all_digits_count c _ Hd Hall).
      cbn [Str.count] in Hinf |- *.
      destruct (Ascii.eqb "-" c); [discriminate | reflexivity].
    + destruct (digits_spec z Hz) as (Hall & _ & _).
      now apply all_digits_count.
Qed.

Lemma digits_head (n : Z) :
  0 <= n -> exists c r, digits n = String c r /\ Char.isDigit c = true.
Proof.
  intros Hn. destruct (digits_spec n Hn) as (Hall & Hne & _).
  destruct (digits n) as [|c r]; [discriminate|].
  exists c, r. split; [reflexivity|].
  cbn [Str.all] in Hall. now apply andb_prop in Hall as [? _].
Qed.

Lemma digits_inj (a b : Z) : 0 <= a -> 0 <= b -> digits a = digits b -> a = b.
Proof.
  intros Ha Hb H.
  destruct (digits_spec a Ha) as (_ & _ & <-).
  destruct (digits_spec b Hb) as (_ & _ & <-).
  now rewrite H.
Qed.

Lemma toString_IFin_head (z : Z) :
  exists c r,
    toString (IFin z) = String c r /\
    (Char.isDigit c = true \/
     (c = "-"%char /\ exists c' r', r = String c' r' /\ Char.isDigit c' = true)).
Proof.
  cbn [toString]. destruct (Z.ltb_spec z 0) as [Hz|Hz].
  - destruct (digits_head (- z) ltac:(lia)) as (c' & r' & -> & Hc').
    exists "-"%char, (String c' r'). split; [reflexivity|].
    right. split; [reflexivity|]. now exists c', r'.
  - destruct (digits_head z Hz) as (c & r & -> & Hc).
    exists c, r. split; [reflexivity | now left].
Qed.

Lemma toString_IFin_not (z : Z) (s : string) :
  (forall c r, s = String c r ->
     Char.isDigit c = false /\
     (c = "-"%char -> forall c' r', r = String c' r' -> Char.isDigit c' = false)) ->
  toString (IFin z) <> s.
Proof.
  intros Hs H.
  destruct (toString_IFin_head z) as (c & r & Heq & [Hd|(-> & c' & r' & -> & Hd)]);
    rewrite Heq in H; symmetry in H; destruct (Hs _ _ H) as [Hc Hm].
  - congruence.
  - specialize (Hm eq_refl c' r' eq_refl). congruence.
Qed.

(** Different numbers print differently. *)
Lemma toString_inj (a b : JsIntegral) : toString a = toString b -> a = b.
Proof.
  assert (Hother : forall z s,
    s = "NaN" \/ s = "Infinity" \/ s = "-Infinity" -> toString (IFin z) <> s).
  { intros z s Hs. apply toString_IFin_not. intros c r ->.
    destruct Hs as [[= -> ->]|[[= -> ->]|[= -> ->]]];
      (split; [reflexivity|]); intros Hm c' r' Hr;
      try discriminate Hm; injection Hr as <- <-; reflexivity. }
  destruct a as [|[]|x], b as [|[]|y]; try reflexivity;
    try (cbn [toString]; discriminate); intros H;
    try (exfalso; eapply Hother; [|exact H]; cbn [toString]; tauto);
    try (exfalso; symmetry in H; eapply Hother; [|exact H];
         cbn [toString]; tauto).
  cbn [toString] in H.
  destruct (Z.ltb_spec x 0) as [Hx|Hx], (Z.ltb_spec y 0) as [Hy|Hy].
  - sapp. injection H as H. apply digits_inj in H; [f_equal; lia | lia | lia].
  - exfalso. destruct (digits_head y Hy) as (c & r & Hc & Hd).
    rewrite Hc in H. sapp. injection H as <- _. discriminate Hd.
  - exfalso. destruct (digits_head x Hx) as (c & r & Hc & Hd).
    rewrite Hc in H. sapp. injection H as -> _. discriminate Hd.
  - apply digits_inj in H; [now f_equal | lia | lia].
Qed.

Lemma join_inj (a b x y : string) :
  Str.count ":" a = O -> Str.count ":" b = O ->
  a +:+ ":" +:+ x = b +:+ ":" +:+ y -> a = b /\ x = y.
Proof.
  revert b. induction a as [|c a IH]; intros [|d b]; sapp;
    cbn [Str.count]; intros Ha Hb H.
  - now injection H.
  - injection H as <- _. discriminate Hb.
  - injection H as -> _. discriminate Ha.
  - injection H as -> H. destruct (Ascii.eqb d ":"); [discriminate|].
    destruct (IH b Ha Hb H) as [-> ->]. now split.
Qed.

(** The key of [seenCombinations] stands for the pair of the resolved
    second and the text. *)
Lemma matchKey_samePair (a b : KeywordMatch.t) :
  matchKey a = matchKey b <-> samePair a b.
Proof.
  unfold matchKey, samePair. split.
  - intros H. apply join_inj in H as [Hn Ht];
      try (apply toString_count; reflexivity).
    split; [now apply toString_inj | assumption].
  - now intros [-> ->].
Qed.

Lemma fold_dedupStep (keywordMatches : list KeywordMatch.t) :
  forall (seenCombinations : gmap string bool)
         (uniqueMatches : list KeywordMatch.t) (seen : list string),
  (forall k, is_Some (seenCombinations !! k) <-> k ∈ seen) ->
  snd (fold_left dedupStep keywordMatches (seenCombinations, uniqueMatches)) =
  uniqueMatches ++ firstSeen matchKey (fun _ => true) seen keywordMatches.
Proof.
  induction keywordMatches as [|m ms IH]; intros M acc seen HM; simpl.
  - now rewrite app_nil_r.
  - destruct (M !! matchKey m) as [v|] eqn:Hm.
    + rewrite bool_decide_eq_true_2 by (apply HM; eauto). simpl.
      now apply IH.
    + rewrite bool_decide_eq_false_2
        by (rewrite <- HM, Hm; now intros [? ?]).
      simpl. rewrite (IH _ _ (matchKey m :: seen)).
      * now rewrite <- app_assoc.
      * intros k. rewrite elem_of_cons, <- HM.
        destruct (decide (k = matchKey m)) as [->|Hne].
        -- rewrite lookup_insert_eq. split; eauto.
        -- rewrite lookup_insert_ne by congruence. tauto.
Qed.

Lemma filterDuplicates_firstSeen (keywordMatches : list KeywordMatch.t) :
  filterDuplicates keywordMatches =
  firstSeen matchKey (fun _ => true) [] keywordMatches.
Proof.
  unfold filterDuplicates.
  rewrite (fold_dedupStep keywordMatches ∅ [] []); [reflexivity|].
  intros k. rewrite lookup_empty, elem_of_nil. split; [now intros [? ?] | tauto].
Qed.

(** C2: the duplicate filter keeps, for every pair of a resolved second
    and a text that occurs among the matches, exactly one match, the
    first one of the list with that pair, whatever the keywords are; the
    matches kept stay in the order of the list, and those kept in front of
    a match are what the filter keeps of the matches in front of it. *)
Theorem duplicates_collapse_first_wins
    (keywordMatches : list KeywordMatch.t) (m : KeywordMatch.t) :
  m ∈ keywordMatches ->
  sublist (filterDuplicates keywordMatches) keywordMatches /\
  exists before kept after l1 l2,
    filterDuplicates keywordMatches = before ++ kept :: after /\
    samePair kept m /\
    (forall x, x ∈ before ++ after -> ~ samePair x m) /\
    keywordMatches = l1 ++ kept :: l2 /\
    (forall earlier, earlier ∈ l1 -> ~ samePair earlier m) /\
    before = filterDuplicates l1.
Proof.
  intros Hm. rewrite filterDuplicates_firstSeen.
  split; [apply firstSeen_sublist|].
  destruct (firstSeen_covers matchKey (fun _ => true) keywordMatches [] m Hm
              eq_refl (not_elem_of_nil _)) as (kept & Hkept & Hkey).
  apply list_elem_of_split in Hkept as (before & after & Hsplit).
  destruct (firstSeen_split matchKey (fun _ => true) keywordMatches []
              _ _ _ Hsplit) as (l1 & l2 & Hl & Hfirst & Hbefore).
  exists before, kept, after, l1, l2.
  split; [assumption|].
  split; [now apply matchKey_samePair|].
  split; [|split; [assumption|split]].
  - pose proof (firstSeen_NoDup matchKey (fun _ => true) keywordMatches [])
      as Hnd.
    rewrite Hsplit, fmap_app, fmap_cons in Hnd.
    apply NoDup_app in Hnd as (_ & Hdisj & Hnd).
    apply NoDup_cons in Hnd as [Hnot _].
    intros x Hx Hsame. apply matchKey_samePair in Hsame.
    rewrite <- Hkey in Hsame.
    apply elem_of_app in Hx as [Hx|Hx].
    + apply (Hdisj (matchKey x)); [now apply list_elem_of_fmap_2|].
      rewrite Hsame. now left.
    + apply Hnot. rewrite <- Hsame. now apply list_elem_of_fmap_2.
  - intros earlier He Hsame. apply matchKey_samePair in Hsame.
    apply (Hfirst earlier He eq_refl). now rewrite Hkey.
  - now rewrite filterDuplicates_firstSeen.
Qed.

Lemma duplicates_collapse_first_wins_witness :
  length twoKeywordMatches = 2%nat /\
  exists before kept after l1 l2,
    filterDuplicates twoKeywordMatches = before ++ kept :: after /\
    samePair kept (matchOf "https://www.youtube.com/watch?v=abc"
                     (segment "00:10" "the quick agent runs") (ofZ 10) "the") /\
    (forall x, x ∈ before ++ after ->
       ~ samePair x (matchOf "https://www.youtube.com/watch?v=abc"
                       (segment "00:10" "the quick agent runs") (ofZ 10)
                       "the")) /\
    twoKeywordMatches = l1 ++ kept :: l2 /\
    (forall earlier, earlier ∈ l1 ->
       ~ samePair earlier
           (matchOf "https://www.youtube.com/watch?v=abc"
              (segment "00:10" "the quick agent runs") (ofZ 10) "the")) /\
    before = filterDuplicates l1.
Proof.
  split; [reflexivity|].
  apply (duplicates_collapse_first_wins twoKeywordMatches).
  vm_compute. apply list_elem_of_further, list_elem_of_here.
Defined.




(** C10: the address of every match kept is the address of the candidate
    followed by "&t=" and the resolved second, whatever the address is; so
    an address without a question mark, as the one of a short-form video,
    gives an address without a question mark: the offset is not in a
    query. *)
Theorem match_url_appends_offset
    (videoUrl : string) (keywords : list string) (exactPhraseSearch : bool)
    (segments : list Segment.t) (keywordMatches : list KeywordMatch.t)
    (m : KeywordMatch.t) :
  findKeywordMatches videoUrl keywords exactPhraseSearch segments
  = Ok keywordMatches ->
  m ∈ filterDuplicates keywordMatches ->
  KeywordMatch.url m =
    videoUrl +:+ "&t=" +:+ toString (KeywordMatch.preciseTimeSeconds m) /\
  (Str.count "?" videoUrl = O -> Str.count "?" (KeywordMatch.url m) = O).
Proof.
  intros Hrun Hm. rewrite findKeywordMatches_spec in Hrun.
  injection Hrun as <-.
  rewrite filterDuplicates_firstSeen in Hm.
  apply firstSeen_fresh in Hm as (Hm & _).
  apply elem_of_matches in Hm as (i & seg & kw & _ & _ & _ & ->).
  cbn [matchOf KeywordMatch.url KeywordMatch.preciseTimeSeconds].
  split; [reflexivity|].
  intros Hq. rewrite !count_append, Hq.
  now rewrite toString_count by reflexivity.
Qed.

Lemma match_url_appends_offset_witness :
  KeywordMatch.url
    (matchOf "https://www.youtube.com/shorts/abc"
       (segment "00:10" "the quick agent runs") (ofZ 10) "agent") =
    "https://www.youtube.com/shorts/abc" +:+ "&t=" +:+ toString (IFin 15) /\
  (Str.count "?" "https://www.youtube.com/shorts/abc" = O ->
   Str.count "?"
     (KeywordMatch.url
        (matchOf "https://www.youtube.com/shorts/abc"
           (segment "00:10" "the quick agent runs") (ofZ 10) "agent")) = O).
Proof.
  apply (match_url_appends_offset "https://www.youtube.com/shorts/abc"
           ["agent"] false
           [segment "00:10" "the quick agent runs";
            segment "00:20" "and rests"] shortsMatches
           (matchOf "https://www.youtube.com/shorts/abc"
              (segment "00:10" "the quick agent runs") (ofZ 10) "agent")).
  - vm_compute. reflexivity.
  - vm_compute. apply list_elem_of_here.
Defined.

(** * Further properties *)

(** ** Browser discovery *)

Lemma firstExistingPath_spec (existsSync : string -> result bool)
    (paths : list string) :
  match firstExistingPath existsSync paths with
  | Some found =>
      exists before after,
        paths = before ++ found :: after /\
        existsSync found = Ok true /\
        Forall (fun p => existsSync p <> Ok true) before
  | None => Forall (fun p => existsSync p <> Ok true) paths
  end.
Proof.
  induction paths as [|p paths IH]; simpl; [constructor|].
  destruct (existsSync p) as [[]|e] eqn:Hp.
  - exists [], paths. repeat split; [assumption | constructor].
  - destruct (firstExistingPath existsSync paths) as [found|].
    + destruct IH as (before & after & -> & Hf & Hall).
      exists (p :: before), after. repeat split; [assumption|].
      constructor; [congruence | assumption].
    + constructor; [congruence | assumption].
  - destruct (firstExistingPath existsSync paths) as [found|].
    + destruct IH as (before & after & -> & Hf & Hall).
      exists (p :: before), after. repeat split; [assumption|].
      constructor; [congruence | assumption].
    + constructor; [congruence | assumption].
Qed.

(** X1: [findChromePath] returns the first path of the list of the
    platform that [existsSync] reports as existing, a path whose test
    throws counting as missing; it returns null exactly when no path of
    the list is reported as existing, which is always so on a platform
    other than linux, darwin and win32. *)
Theorem findChromePath_first_existing
    (existsSync : string -> result bool) (platform : string)
    (localAppData : option string) :
  let paths := default [] (chromePaths localAppData !! platform) in
  (forall found,
      findChromePath existsSync platform localAppData = Some found <->
      exists before after,
        paths = before ++ found :: after /\
        existsSync found = Ok true /\
        Forall (fun p => existsSync p <> Ok true) before) /\
  (findChromePath existsSync platform localAppData = None <->
   Forall (fun p => existsSync p <> Ok true) paths) /\
  (platform <> "linux" -> platform <> "darwin" -> platform <> "win32" ->
   findChromePath existsSync platform localAppData = None).
Proof.
  intros paths. unfold findChromePath. fold paths.
  pose proof (firstExistingPath_spec existsSync paths) as Hspec.
  assert (Huniq : forall b1 a1 f1 b2 a2 f2,
    paths = b1 ++ f1 :: a1 -> paths = b2 ++ f2 :: a2 ->
    existsSync f1 = Ok true -> existsSync f2 = Ok true ->
    Forall (fun p => existsSync p <> Ok true) b1 ->
    Forall (fun p => existsSync p <> Ok true) b2 -> f1 = f2).
  { clear Hspec. generalize paths. clear paths.
    intros paths b1. revert paths.
    induction b1 as [|x b1 IH]; intros paths a1 f1 b2 a2 f2 H1 H2 E1 E2 F1 F2.
    - destruct b2 as [|y b2]; simpl in *; subst paths.
      + now injection H2.
      + injection H2 as -> _. apply Forall_cons in F2 as [F2 _]. congruence.
    - destruct b2 as [|y b2]; simpl in *; subst paths.
      + injection H2 as -> _. apply Forall_cons in F1 as [F1 _]. congruence.
      + injection H2 as -> H2. apply Forall_cons in F1 as [_ F1].
        apply Forall_cons in F2 as [_ F2].
        now apply (IH _ a1 f1 b2 a2 f2 eq_refl H2). }
  split; [|split].
  - intros found. split.
    + intros H. now rewrite H in Hspec.
    + intros (b & a & Hp & Hf & Hall).
      destruct (firstExistingPath existsSync paths) as [found'|].
      * destruct Hspec as (b' & a' & Hp' & Hf' & Hall'). f_equal.
        now apply (Huniq b' a' found' b a found).
      * exfalso. rewrite Hp in Hspec. apply Forall_app in Hspec as [_ H].
        apply Forall_cons in H as [H _]. congruence.
  - split.
    + intros H. now rewrite H in Hspec.
    + intros Hall.
      destruct (firstExistingPath existsSync paths) as [found|];
        [|reflexivity].
      exfalso. destruct Hspec as (b & a & Hp & Hf & _).
      rewrite Hp in Hall. apply Forall_app in Hall as [_ H].
      apply Forall_cons in H as [H _]. congruence.
  - intros H1 H2 H3. subst paths. unfold chromePaths.
    rewrite !lookup_insert_ne, lookup_empty by congruence. reflexivity.
Qed.

Lemma findChromePath_first_existing_witness :
  findChromePath snapOnly "linux" None = Some "/snap/bin/chromium" /\
  findChromePath snapOnly "freebsd" None = None.
Proof.
  split.
  - apply (proj1 (findChromePath_first_existing snapOnly "linux" None)).
    exists [ "/usr/bin/google-chrome"; "/usr/bin/google-chrome-stable";
             "/usr/bin/chromium"; "/usr/bin/chromium-browser" ], [].
    split; [reflexivity|]. split; [reflexivity|].
    repeat constructor; discriminate.
  - apply (proj2 (proj2 (findChromePath_first_existing snapOnly "freebsd"
                           None))); discriminate.
Defined.

(** ** PaginatedCollector: what the loop leaves *)

Section ScrollInvariant.

Context {Dom : Type}.
Variable querySelectorAll : Dom -> string -> list Element.t.
Variable scrollAndWait : Dom -> Dom.
Variable document : Dom.

(** What holds of the state before and after every round. *)
Lemma scrollLoop_invariant (fuel : nat) : forall st st',
  (scrollAttempts st <= maxScrollAttempts)%nat ->
  (consecutiveNoChangeCount st <= maxConsecutiveNoChanges)%nat ->
  (consecutiveNoChangeCount st <= scrollAttempts st)%nat ->
  page st = Nat.iter (scrollAttempts st) scrollAndWait document ->
  videoElements st = getAllVideoElements querySelectorAll (page st) ->
  scrollLoop querySelectorAll scrollAndWait fuel st = Some st' ->
  (scrollAttempts st <= scrollAttempts st')%nat /\
  (scrollAttempts st' <= maxScrollAttempts)%nat /\
  (consecutiveNoChangeCount st' <= maxConsecutiveNoChanges)%nat /\
  (consecutiveNoChangeCount st' <= scrollAttempts st')%nat /\
  page st' = Nat.iter (scrollAttempts st') scrollAndWait document /\
  videoElements st' = getAllVideoElements querySelectorAll (page st') /\
  loopCondition st' = false /\
  (scrollAttempts st' = scrollAttempts st -> st' = st).
Proof.
  induction fuel as [|fuel IH]; intros st st' Ha Hc Hca Hp Hv;
    cbn [scrollLoop]; destruct (loopCondition st) eqn:Hcond;
    try discriminate;
    try (intros [= <-]; repeat split; auto; fail).
  intros Hrun.
  unfold loopCondition in Hcond.
  apply andb_prop in Hcond as [Hcond Hc3].
  apply andb_prop in Hcond as [_ Ha3].
  apply Nat.ltb_lt in Hc3, Ha3.
  destruct (IH (loopBody querySelectorAll scrollAndWait st) st')
    as (H1 & H2 & H3 & H4 & H5 & H6 & H7 & _); cbn [loopBody scrollAttempts
      consecutiveNoChangeCount page videoElements]; try assumption.
  - destruct (_ =? _)%nat; unfold maxConsecutiveNoChanges in *; lia.
  - destruct (_ =? _)%nat; lia.
  - now rewrite Hp.
  - reflexivity.
  - cbn [loopBody scrollAttempts] in H1.
    repeat split; try assumption; lia.
Qed.

End ScrollInvariant.



(** X3: the loop gives up on a lack of growth only after three rounds:
    when it ends after fewer than three, 100 elements or more have been
    found; and when the first query finds 100 elements or more, the
    document is not scrolled at all. *)
Theorem scroll_loop_early_stop_means_target
    {Dom : Type} (querySelectorAll : Dom -> string -> list Element.t)
    (scrollAndWait : Dom -> Dom) (document : Dom) (fuel : nat)
    (st : LoopState Dom) :
  scrollLoop querySelectorAll scrollAndWait fuel
    (initialState querySelectorAll document) = Some st ->
  ((scrollAttempts st < maxConsecutiveNoChanges)%nat ->
   (targetCount <= length (videoElements st))%nat) /\
  ((targetCount <= length (getAllVideoElements querySelectorAll document))%nat ->
   st = initialState querySelectorAll document).
Proof.
  intros Hst.
  destruct (scrollLoop_invariant querySelectorAll scrollAndWait document fuel
              (initialState querySelectorAll document) st)
    as (_ & _ & _ & H4 & _ & _ & H7 & _);
    try assumption; try reflexivity; try (simpl; lia).
  split.
  - intros Hearly. unfold loopCondition in H7.
    unfold maxConsecutiveNoChanges, maxScrollAttempts in *.
    apply andb_false_iff in H7 as [H7|H7];
      [apply andb_false_iff in H7 as [H7|H7]|]; apply Nat.ltb_ge in H7; lia.
  - intros Hfull. destruct fuel; cbn [scrollLoop] in Hst;
      unfold loopCondition at 1 in Hst;
      cbn [initialState videoElements] in Hst;
      (replace (length (getAllVideoElements querySelectorAll document)
                <? targetCount)%nat with false in Hst
         by (symmetry; apply Nat.ltb_ge; exact Hfull));
      cbn [andb] in Hst; now injection Hst.
Qed.

Lemma scroll_loop_early_stop_means_target_witness :
  (targetCount <= length (videoElements grownState))%nat.
Proof.
  apply (proj1 (scroll_loop_early_stop_means_target growingQuery S O 20
                  grownState ltac:(vm_compute; reflexivity))).
  vm_compute. lia.
Defined.

(** X4: every link the collector returns is the href of an element that
    passed the filter of [getAllVideoElements]: it is not empty and it
    holds "/watch?v=" or "/shorts/". *)
Theorem collected_links_are_video_urls
    {Dom : Type} (querySelectorAll : Dom -> string -> list Element.t)
    (scrollAndWait : Dom -> Dom) (fuel : nat) (document : Dom)
    (links : list string) (url : string) :
  collectVideoLinks querySelectorAll scrollAndWait fuel document = Some links ->
  url ∈ links ->
  url <> "" /\
  (Str.includes url "/watch?v=" = true \/ Str.includes url "/shorts/" = true).
Proof.
  unfold collectVideoLinks. intros Hrun Hin.
  destruct (scrollLoop _ _ _ _) as [st|] eqn:Hst; [|discriminate].
  injection Hrun as <-.
  destruct (scrollLoop_invariant querySelectorAll scrollAndWait document fuel
              (initialState querySelectorAll document) st)
    as (_ & _ & _ & _ & _ & Hels & _);
    try assumption; try reflexivity; try (simpl; lia).
  pose proof (elem_of_sublist _ _ _ Hin (sublist_take _ _)) as Hin'.
  clear Hin. rename Hin' into Hin.
  rewrite uniqueLinksOf_firstSeen in Hin.
  apply firstSeen_fresh in Hin as (Hin & _).
  unfold hrefs in Hin. apply list_elem_of_fmap in Hin as (el & -> & Hel).
  rewrite Hels in Hel.
  apply getAllVideoElements_valid in Hel. unfold validElement in Hel.
  apply andb_prop in Hel as [Hne Hkind]. split.
  - intros E. rewrite E in Hne. discriminate.
  - now apply orb_prop in Hkind.
Qed.

Lemma collected_links_are_video_urls_witness :
  "https://www.youtube.com/shorts/b" <> "" /\
  (Str.includes "https://www.youtube.com/shorts/b" "/watch?v=" = true \/
   Str.includes "https://www.youtube.com/shorts/b" "/shorts/" = true).
Proof.
  apply (collected_links_are_video_urls (staticQuery smallPage) id 20 tt
           [ "https://www.youtube.com/watch?v=a";
             "https://www.youtube.com/shorts/b" ]).
  - reflexivity.
  - apply list_elem_of_further, list_elem_of_here.
Defined.

(** ** The position of a keyword *)

(** X5: for a text that is not empty, [estimateKeywordPosition] returns a
    fraction that is at least 0 and less than 1, whatever the keyword is;
    for an empty text it returns 0, unless the keyword is empty too, in
    which case it returns NaN. *)
Theorem keyword_position_in_unit_interval (text keyword : string) :
  (text <> "" ->
   exists q, estimateKeywordPosition text keyword = Fin q /\
             (0 <= q)%Q /\ (q < 1)%Q) /\
  (keyword <> "" -> estimateKeywordPosition "" keyword = ofZ 0) /\
  estimateKeywordPosition "" "" = NaN.
Proof.
  split; [|split; [|reflexivity]].
  - intros Hne. rewrite (estimateKeywordPosition_ratio _ _ Hne).
    pose proof (keywordIndex_bounds text keyword Hne) as Hb.
    set (idx := Z.max 0 _) in *. set (len := Z.of_nat (String.length text)) in *.
    unfold div, ofZ, isZero. simpl Qnum.
    destruct (Z.eqb_spec len 0) as [E|_]; [lia|].
    eexists. split; [reflexivity|].
    rewrite !Qred_correct.
    assert (Hlen : (0 < inject_Z len)%Q) by (unfold Qlt; simpl; lia).
    split.
    + apply Qle_shift_div_l; [assumption|].
      rewrite Qmult_0_l. unfold Qle. simpl. lia.
    + apply Qlt_shift_div_r; [assumption|].
      rewrite Qmult_1_l. unfold Qlt. simpl. lia.
  - intros Hk. unfold estimateKeywordPosition, Str.indexOf.
    destruct keyword as [|c keyword]; [congruence|]. reflexivity.
Qed.

Lemma keyword_position_in_unit_interval_witness :
  exists q, estimateKeywordPosition "the quick agent runs" "Agent" = Fin q /\
            (0 <= q)%Q /\ (q < 1)%Q.
Proof.
  apply (proj1 (keyword_position_in_unit_interval
                  "the quick agent runs" "Agent")).
  discriminate.
Defined.

(** ** The resolved second and the segment *)



(** The [i] flag and a keyword of code units below 128: such a code unit
    is compared as equal to no code unit from 128 on, and in a text
    without a letter from A to Z only to itself. *)
Lemma toLower_noCapital (c : ascii) :
  Char.between 65 90 (Char.toLower c) = false.
Proof. destruct c as [[] [] [] [] [] [] [] []]; reflexivity. Qed.

Lemma toLower_ascii (c : ascii) :
  (Char.code (Char.toLower c) <? 128)%N = (Char.code c <? 128)%N.
Proof. destruct c as [[] [] [] [] [] [] [] []]; reflexivity. Qed.

Lemma canonicalize_ascii (c : ascii) :
  (Char.code (Char.canonicalize c) <? 128)%N = (Char.code c <? 128)%N.
Proof. destruct c as [[] [] [] [] [] [] [] []]; reflexivity. Qed.

Lemma canonicalize_small (c : ascii) :
  (Char.code c <? 128)%N = true -> Char.between 65 90 c = false ->
  Char.toLower (Char.canonicalize c) = c.
Proof.
  destruct c as [[] [] [] [] [] [] [] []]; intros H1 H2;
    try reflexivity; discriminate.
Qed.

Lemma sameChar_ascii (k t : ascii) :
  (Char.code k <? 128)%N = true ->
  Char.between 65 90 k = false -> Char.between 65 90 t = false ->
  RegExp.sameChar k t = true -> t = k.
Proof.
  intros Hk Hku Htu H. unfold RegExp.sameChar in H.
  apply Ascii.eqb_eq in H.
  assert (Ht : (Char.code t <? 128)%N = true)
    by now rewrite <- canonicalize_ascii, <- H, canonicalize_ascii.
  rewrite <- (canonicalize_small t Ht Htu), <- H.
  now apply canonicalize_small.
Qed.

Lemma afterPrefix_ascii (keyword : string) : forall mid,
  isAscii keyword = true -> noCapital keyword = true ->
  noCapital mid = true ->
  afterPrefix keyword mid = Some "" -> mid = keyword.
Proof.
  unfold isAscii, noCapital.
  induction keyword as [|k keyword IH]; intros [|t mid];
    cbn [afterPrefix Str.all]; try discriminate; [reflexivity|].
  intros Ha Hk Hm.
  apply andb_prop in Ha as [Ha1 Ha2]. apply andb_prop in Hk as [Hk1 Hk2].
  apply andb_prop in Hm as [Hm1 Hm2].
  apply negb_true_iff in Hk1, Hm1.
  destruct (RegExp.sameChar k t) eqn:Hkt; [|discriminate].
  intros H. rewrite (sameChar_ascii k t Ha1 Hk1 Hm1 Hkt).
  f_equal. now apply IH.
Qed.

Lemma noCapital_toLowerCase (s : string) :
  noCapital (Str.toLowerCase s) = true.
Proof.
  unfold noCapital. induction s as [|c s IH]; cbn [Str.toLowerCase Str.all];
    [reflexivity|].
  now rewrite toLower_noCapital, IH.
Qed.

Lemma isAscii_toLowerCase (s : string) :
  isAscii (Str.toLowerCase s) = isAscii s.
Proof.
  unfold isAscii. induction s as [|c s IH]; cbn [Str.toLowerCase Str.all];
    [reflexivity|].
  now rewrite toLower_ascii, IH.
Qed.

(** X7: for a keyword of code units below 128, whenever the keyword is
    found in a text, in either mode, the text in lower case holds the
    keyword in lower case, so that [estimateKeywordPosition] does not take
    its not-found exit for a match: [indexOf] returns the index of the
    first occurrence of the keyword, not -1. *)
Theorem found_keyword_has_index
    (exactPhraseSearch : bool) (text keyword : string) :
  isAscii keyword = true ->
  keywordFound exactPhraseSearch (Str.toLowerCase text)
    (Str.toLowerCase keyword) = Ok true ->
  exists pre post,
    Str.toLowerCase text = pre +:+ Str.toLowerCase keyword +:+ post /\
    Str.indexOf (Str.toLowerCase text) (Str.toLowerCase keyword) =
      Z.of_nat (String.length pre) /\
    (Str.indexOf (Str.toLowerCase text) (Str.toLowerCase keyword) =? -1)
    = false /\
    (forall pre' post',
        Str.toLowerCase text = pre' +:+ Str.toLowerCase keyword +:+ post' ->
        (String.length pre <= String.length pre')%nat).
Proof.
  intros Hascii Hfound.
  assert (Hinc : Str.includes (Str.toLowerCase text)
                   (Str.toLowerCase keyword) = true).
  { destruct exactPhraseSearch.
    - unfold keywordFound in Hfound. now injection Hfound.
    - rewrite keywordFound_wordBoundary in Hfound. injection Hfound as Ht.
      apply test_wordBoundary in Ht as (pre & mid & post & Ht & Hm & _).
      pose proof (noCapital_toLowerCase text) as Hlow.
      rewrite Ht in Hlow. unfold noCapital in Hlow.
      rewrite !all_append in Hlow.
      apply andb_prop in Hlow as [_ Hlow]. apply andb_prop in Hlow as [Hmid _].
      apply afterPrefix_ascii in Hm;
        [| now rewrite isAscii_toLowerCase | apply noCapital_toLowerCase
         | exact Hmid].
      apply includes_spec. exists pre, post. now rewrite Ht, Hm. }
  apply (includes_indexOfFrom _ _ 0 ltac:(lia)) in Hinc.
  destruct (indexOfFrom_occurrence _ _ 0 Hinc) as (pre & post & Hs & Hr).
  exists pre, post. unfold Str.indexOf. rewrite Hr.
  split; [assumption|]. split; [reflexivity|]. split.
  - apply Z.eqb_neq. lia.
  - intros pre' post' Hs'.
    pose proof (indexOfFrom_first _ _ 0 pre' post' Hs') as Hle. lia.
Qed.

Lemma found_keyword_has_index_witness :
  exists pre post,
    Str.toLowerCase "The quick Agent runs" =
      pre +:+ Str.toLowerCase "agent" +:+ post /\
    Str.indexOf (Str.toLowerCase "The quick Agent runs")
      (Str.toLowerCase "agent") = Z.of_nat (String.length pre) /\
    (Str.indexOf (Str.toLowerCase "The quick Agent runs")
       (Str.toLowerCase "agent") =? -1) = false /\
    (forall pre' post',
        Str.toLowerCase "The quick Agent runs" =
          pre' +:+ Str.toLowerCase "agent" +:+ post' ->
        (String.length pre <= String.length pre')%nat).
Proof.
  apply (found_keyword_has_index false "The quick Agent runs" "agent").
  - reflexivity.
  - reflexivity.
Defined.

(** X8: a segment whose timestamp has two or three parts, one of which
    is not a number, has NaN for its start; every match in such a segment
    has NaN for its resolved second, "NaN:NaN" for its precise timestamp,
    and an address that ends in "&t=NaN". *)
Theorem unparseable_timestamp_gives_NaN
    (videoUrl : string) (keywords : list string) (exactPhraseSearch : bool)
    (segments : list Segment.t) (keywordMatches : list KeywordMatch.t) :
  (forall m s : string,
      Str.count ":" m = O -> Str.count ":" s = O ->
      Number m = NaN \/ Number s = NaN ->
      timestampToSeconds (m +:+ ":" +:+ s) = NaN) /\
  (forall h m s : string,
      Str.count ":" h = O -> Str.count ":" m = O -> Str.count ":" s = O ->
      Number h = NaN \/ Number m = NaN \/ Number s = NaN ->
      timestampToSeconds (h +:+ ":" +:+ m +:+ ":" +:+ s) = NaN) /\
  (findKeywordMatches videoUrl keywords exactPhraseSearch segments
   = Ok keywordMatches ->
   forall m, m ∈ keywordMatches ->
     timestampToSeconds (KeywordMatch.originalTimestamp m) = NaN ->
     KeywordMatch.preciseTimeSeconds m = INaN /\
     KeywordMatch.preciseTimestamp m = "NaN:NaN" /\
     KeywordMatch.url m = videoUrl +:+ "&t=NaN").
Proof.
  assert (Hr : forall x, add x NaN = NaN) by (now intros [| |]).
  split; [|split].
  - intros m s Hm Hs Hnan. rewrite timestampToSeconds_ms by assumption.
    destruct Hnan as [-> | ->]; [reflexivity | apply Hr].
  - intros h m s Hh Hm Hs Hnan.
    rewrite timestampToSeconds_hms by assumption.
    destruct Hnan as [-> | [-> | ->]]; [reflexivity | | apply Hr].
    cbn [mul]. now rewrite Hr.
  - intros Hrun m Hm Hnan. rewrite findKeywordMatches_spec in Hrun.
    injection Hrun as <-.
    apply elem_of_matches in Hm as (i & seg & kw & _ & _ & _ & ->).
    cbn [matchOf KeywordMatch.originalTimestamp KeywordMatch.preciseTimestamp
         KeywordMatch.preciseTimeSeconds KeywordMatch.url] in *.
    unfold preciseOf, startOf. rewrite Hnan. cbn [add round].
    repeat split; reflexivity.
Qed.

Lemma unparseable_timestamp_gives_NaN_witness :
  timestampToSeconds ("ab" +:+ ":" +:+ "05") = NaN.
Proof.
  apply (proj1 (unparseable_timestamp_gives_NaN "" [] false [] [])).
  - reflexivity.
  - reflexivity.
  - left. reflexivity.
Defined.

(** X9: the precise timestamp of a match parses back to its resolved
    second, whenever that second is an integer that is not negative (and
    is held exactly by a number of the engine). *)
Theorem precise_timestamp_parses_back
    (videoUrl : string) (keywords : list string) (exactPhraseSearch : bool)
    (segments : list Segment.t) (keywordMatches : list KeywordMatch.t)
    (m : KeywordMatch.t) (z : Z) :
  findKeywordMatches videoUrl keywords exactPhraseSearch segments
  = Ok keywordMatches ->
  m ∈ keywordMatches ->
  KeywordMatch.preciseTimeSeconds m = IFin z ->
  0 <= z <= MAX_SAFE_INTEGER ->
  timestampToSeconds (KeywordMatch.preciseTimestamp m) = ofZ z.
Proof.
  intros Hrun Hm Hz [Hpos _]. rewrite findKeywordMatches_spec in Hrun.
  injection Hrun as <-.
  apply elem_of_matches in Hm as (i & seg & kw & _ & _ & _ & ->).
  cbn [matchOf KeywordMatch.preciseTimestamp KeywordMatch.preciseTimeSeconds]
    in *.
  rewrite Hz. cbn [ofIntegral]. now apply parse_format.
Qed.

Lemma precise_timestamp_parses_back_witness :
  timestampToSeconds
    (KeywordMatch.preciseTimestamp
       (matchOf "https://www.youtube.com/watch?v=abc"
          (segment "00:20" "the quick agent runs") (ofZ (-10)) "agent"))
  = ofZ 15.
Proof.
  apply (precise_timestamp_parses_back "https://www.youtube.com/watch?v=abc"
           ["agent"] false outOfOrder
           [ matchOf "https://www.youtube.com/watch?v=abc"
               (segment "00:20" "the quick agent runs") (ofZ (-10)) "agent" ]).
  - vm_compute. reflexivity.
  - apply list_elem_of_here.
  - reflexivity.
  - unfold MAX_SAFE_INTEGER. lia.
Defined.

(** X10: in exact mode an empty keyword is found in every segment: with
    an empty keyword in the list, every segment of the transcript has a
    match for it, and the position estimated for it in a text that is not
    empty is 0. *)
Theorem empty_keyword_matches_every_segment
    (videoUrl : string) (keywords : list string) (segments : list Segment.t)
    (keywordMatches : list KeywordMatch.t) (seg : Segment.t) :
  findKeywordMatches videoUrl keywords true segments = Ok keywordMatches ->
  "" ∈ keywords ->
  seg ∈ segments ->
  (exists m, m ∈ keywordMatches /\
             KeywordMatch.keyword m = "" /\
             KeywordMatch.originalTimestamp m = Segment.timestamp seg /\
             KeywordMatch.text m = Segment.text seg) /\
  (Segment.text seg <> "" ->
   estimateKeywordPosition (Segment.text seg) "" = ofZ 0).
Proof.
  intros Hrun Hkw Hseg. rewrite findKeywordMatches_spec in Hrun.
  injection Hrun as <-. split.
  - apply list_elem_of_lookup in Hseg as (i & Hi).
    exists (matchOf videoUrl seg (durationOf segments i seg) "").
    split; [|repeat split].
    apply elem_of_matches. exists i, seg, "".
    repeat split; try assumption.
    unfold foundIn. apply includes_spec.
    exists "", (Str.toLowerCase (Segment.text seg)). reflexivity.
  - intros Hne. unfold estimateKeywordPosition, Str.indexOf.
    destruct (Segment.text seg) as [|c t]; [congruence|]. reflexivity.
Qed.

Lemma empty_keyword_matches_every_segment_witness :
  exists m,
    m ∈ matchesOrNone
          (findKeywordMatches "https://www.youtube.com/watch?v=abc"
             ["agent"; ""] true outOfOrder) /\
    KeywordMatch.keyword m = "" /\
    KeywordMatch.originalTimestamp m = "00:10" /\
    KeywordMatch.text m = "and rests".
Proof.
  apply (empty_keyword_matches_every_segment
           "https://www.youtube.com/watch?v=abc" ["agent"; ""] outOfOrder
           (matchesOrNone
              (findKeywordMatches "https://www.youtube.com/watch?v=abc"
                 ["agent"; ""] true outOfOrder))
           (segment "00:10" "and rests")).
  - vm_compute. reflexivity.
  - apply list_elem_of_further, list_elem_of_here.
  - apply list_elem_of_further, list_elem_of_here.
Defined.

(** ** The timestamp pattern of the generic fallback *)

Lemma inClass_digit (d : ascii) :
  RegExp.inClass [ ("0"%char, "9"%char) ] d = Char.isDigit d.
Proof. destruct d as [[] [] [] [] [] [] [] []]; vm_compute; reflexivity. Qed.

Lemma sameChar_colon (d : ascii) : RegExp.sameChar ":" d = Ascii.eqb ":" d.
Proof. destruct d as [[] [] [] [] [] [] [] []]; vm_compute; reflexivity. Qed.

Lemma run_digit (b : bool) (s : string) (q : RegExp.place) :
  In q (RegExp.run digitClass (b, s)) <->
  exists d, s = String d (snd q) /\ Char.isDigit d = true /\ fst q = false.
Proof.
  cbn [RegExp.run digitClass]. unfold RegExp.advance. cbn [snd xorb].
  destruct s as [|d s].
  - split; [intros [] | intros (d & H & _); discriminate].
  - rewrite inClass_digit. destruct (Char.isDigit d) eqn:Hd.
    + split.
      * intros [<-|[]]. now exists d.
      * intros (d' & [= <- ->] & _ & Hq). left. destruct q. simpl in *.
        now subst.
    + split; [intros [] | intros (d' & [= <- _] & Hd' & _); congruence].
Qed.

Lemma run_colon (b : bool) (s : string) (q : RegExp.place) :
  In q (RegExp.run (RegExp.Chr ":") (b, s)) <->
  s = String ":" (snd q) /\ fst q = false.
Proof.
  cbn [RegExp.run]. unfold RegExp.advance. cbn [snd].
  destruct s as [|d s].
  - split; [intros [] | intros [H _]; discriminate].
  - rewrite sameChar_colon. destruct (Ascii.eqb_spec ":"%char d) as [<-|Hd].
    + split.
      * intros [<-|[]]. now split.
      * intros [[= ->] Hq]. left. destruct q. simpl in *. now subst.
    + split; [intros [] | intros [[= E _] _]; congruence].
Qed.

Lemma run_digit_cons (b : bool) (c : ascii) (s : string) :
  RegExp.run digitClass (b, String c s) =
  if Char.isDigit c then [ (false, s) ] else [].
Proof.
  cbn [RegExp.run digitClass]. unfold RegExp.advance. cbn [snd xorb].
  now rewrite inClass_digit.
Qed.

Lemma repeatFrom_digit_cons (b : bool) (c : ascii) (s : string) :
  RegExp.repeatFrom (S (String.length s)) (RegExp.run digitClass)
    (b, String c s) =
  (b, String c s) ::
  (if Char.isDigit c
   then RegExp.repeatFrom (String.length s) (RegExp.run digitClass) (false, s)
   else []).
Proof.
  cbn [RegExp.repeatFrom]. f_equal. rewrite run_digit_cons.
  destruct (Char.isDigit c); [|reflexivity].
  cbn [flat_map snd String.length].
  replace (String.length s <? S (String.length s))%nat with true
    by (symmetry; apply Nat.ltb_lt; lia).
  apply app_nil_r.
Qed.

(** Repeating the class of the digits from a place reaches the places
    behind any number of digits. *)
Lemma repeat_digit (s : string) : forall b q,
  In q (RegExp.repeatFrom (String.length s) (RegExp.run digitClass) (b, s))
  <->
  exists ds,
    Str.all Char.isDigit ds = true /\ s = ds +:+ snd q /\
    fst q = (if nonEmpty ds then false else b).
Proof.
  induction s as [|c s IH]; intros b q; cbn [String.length].
  - cbn [RegExp.repeatFrom]. split.
    + intros [<-|[]]. now exists "".
    + intros (ds & _ & Hs & Hq). left. destruct ds; [|discriminate].
      destruct q. sapp. simpl in *. now subst.
  - rewrite repeatFrom_digit_cons. split.
    + intros [<-|Hq]; [now exists ""|].
      destruct (Char.isDigit c) eqn:Hd; [|destruct Hq].
      apply IH in Hq as (ds & Hall & -> & Hq).
      exists (String c ds). cbn [Str.all nonEmpty]. rewrite Hd, Hall. sapp.
      repeat split. rewrite Hq. now destruct (nonEmpty ds).
    + intros ([|d ds] & Hall & Hs & Hq).
      * left. destruct q. sapp. simpl in *. now subst.
      * right. sapp. injection Hs as <- ->. cbn [Str.all] in Hall.
        apply andb_prop in Hall as [Hd Hall]. rewrite Hd.
        apply IH. exists ds. repeat split; [assumption|].
        cbn [nonEmpty] in Hq. rewrite Hq. now destruct (nonEmpty ds).
Qed.

(** [\d+] from a place reaches the places behind one digit or more. *)
Lemma run_digits (b : bool) (s : string) (q : RegExp.place) :
  In q (RegExp.run (RegExp.Plus digitClass) (b, s)) <->
  exists ds, isNumeral ds = true /\ s = ds +:+ snd q /\ fst q = false.
Proof.
  cbn [RegExp.run]. rewrite in_flat_map. unfold isNumeral. split.
  - intros ([mb ms] & Hm & Hq).
    apply run_digit in Hm as (d & -> & Hd & Hf). simpl in *. subst mb.
    apply repeat_digit in Hq as (ds & Hall & -> & Hq).
    exists (String d ds). simpl. rewrite Hd, Hall. sapp.
    repeat split. rewrite Hq. now destruct (nonEmpty ds).
  - intros ([|d ds] & Hn & -> & Hq); [discriminate|].
    simpl in Hn. apply andb_prop in Hn as [Hd Hall].
    exists (false, ds +:+ snd q). split.
    + apply run_digit. exists d. now sapp.
    + cbn [snd]. apply repeat_digit. exists ds.
      repeat split; [assumption|]. rewrite Hq. now destruct (nonEmpty ds).
Qed.

Lemma hasPlace_In (l : list RegExp.place) :
  RegExp.hasPlace l = true <-> exists q, In q l.
Proof.
  destruct l as [|p l]; simpl.
  - split; [discriminate | intros [q []]].
  - split; [intros _; exists p; now left | reflexivity].
Qed.

Lemma in_run_seq (r1 r2 : RegExp.regex) (p q : RegExp.place) :
  In q (RegExp.run (RegExp.Seq r1 r2) p) <->
  exists m, In m (RegExp.run r1 p) /\ In q (RegExp.run r2 m).
Proof. cbn [RegExp.run]. apply in_flat_map. Qed.

Lemma in_run_opt (r : RegExp.regex) (p q : RegExp.place) :
  In q (RegExp.run (RegExp.Opt r) p) <-> p = q \/ In q (RegExp.run r p).
Proof. reflexivity. Qed.

Lemma in_run_bol (p q : RegExp.place) :
  In q (RegExp.run RegExp.Bol p) <-> fst p = true /\ q = p.
Proof.
  cbn [RegExp.run]. destruct (fst p).
  - split; [intros [<-|[]]; now split | intros [_ ->]; now left].
  - split; [intros [] | intros [H _]; discriminate].
Qed.

Lemma in_run_eol (p q : RegExp.place) :
  In q (RegExp.run RegExp.Eol p) <-> snd p = "" /\ q = p.
Proof.
  cbn [RegExp.run]. destruct (snd p).
  - split; [intros [<-|[]]; now split | intros [_ ->]; now left].
  - split; [intros [] | intros [H _]; discriminate].
Qed.

(** What [/^\d+:\d+(?::\d+)?$/] tests: two or three numerals with colons
    between them, and nothing else. *)
Lemma timestampPattern_spec (t : string) :
  RegExp.test timestampPattern t = true <->
  exists a b,
    isNumeral a = true /\ isNumeral b = true /\
    (t = a +:+ ":" +:+ b \/
     exists c, isNumeral c = true /\ t = a +:+ ":" +:+ b +:+ ":" +:+ c).
Proof.
  assert (Hlater : forall s, RegExp.searchFrom timestampPattern false s = false).
  { induction s as [|c s IH]; cbn [RegExp.searchFrom]; [reflexivity|].
    now rewrite IH. }
  assert (Htest : RegExp.test timestampPattern t =
                  RegExp.matchesAt timestampPattern (true, t)).
  { unfold RegExp.test. destruct t as [|c t]; cbn [RegExp.searchFrom].
    - apply orb_false_r.
    - rewrite Hlater. apply orb_false_r. }
  rewrite Htest. unfold RegExp.matchesAt. rewrite hasPlace_In.
  unfold timestampPattern. split.
  - intros (q & Hq).
    apply in_run_seq in Hq as (m0 & H0 & Hq).
    apply in_run_bol in H0 as [_ ->].
    apply in_run_seq in Hq as ([b1 s1] & H1 & Hq).
    apply run_digits in H1 as (a & Ha & -> & _). cbn [snd] in *.
    apply in_run_seq in Hq as ([b2 s2] & H2 & Hq).
    apply run_colon in H2 as [-> _]. cbn [snd] in *.
    apply in_run_seq in Hq as ([b3 s3] & H3 & Hq).
    apply run_digits in H3 as (b & Hb & -> & _). cbn [snd] in *.
    apply in_run_seq in Hq as ([b4 s4] & H4 & Hq).
    apply in_run_eol in Hq as [Hend _]. cbn [snd] in Hend. subst s4.
    exists a, b. split; [assumption|]. split; [assumption|].
    apply in_run_opt in H4 as [[= _ ->]|H4].
    + left. sapp. now rewrite append_nil_r.
    + right. cbn [RegExp.run] in H4. fold digitClass in H4.
      apply in_flat_map in H4 as ([b5 s5] & H5 & H6).
      apply run_colon in H5 as [-> _]. cbn [snd] in *.
      change (In (b4, "") (RegExp.run (RegExp.Plus digitClass) (b5, s5)))
        in H6.
      apply run_digits in H6 as (c & Hc & -> & _). cbn [snd].
      exists c. sapp. now rewrite append_nil_r.
  - intros (a & b & Ha & Hb & Ht).
    assert (Hgo : forall rest,
      (exists q, In q
         (RegExp.run
            (RegExp.Seq
               (RegExp.Opt
                  (RegExp.Group
                     (RegExp.Seq (RegExp.Chr ":") (RegExp.Plus digitClass))))
               RegExp.Eol) (false, rest))) ->
      t = a +:+ ":" +:+ b +:+ rest ->
      exists q, In q
        (RegExp.run
           (RegExp.Seq RegExp.Bol
              (RegExp.Seq (RegExp.Plus digitClass)
                 (RegExp.Seq (RegExp.Chr ":")
                    (RegExp.Seq (RegExp.Plus digitClass)
                       (RegExp.Seq
                          (RegExp.Opt
                             (RegExp.Group
                                (RegExp.Seq (RegExp.Chr ":")
                                   (RegExp.Plus digitClass))))
                          RegExp.Eol))))) (true, t))).
    { intros rest (q & Hq) ->. exists q.
      apply in_run_seq. exists (true, a +:+ ":" +:+ b +:+ rest).
      split; [now apply in_run_bol|].
      apply in_run_seq. exists (false, ":" +:+ b +:+ rest). split.
      { apply run_digits. exists a. now repeat split. }
      apply in_run_seq. exists (false, b +:+ rest). split.
      { apply run_colon. now split. }
      apply in_run_seq. exists (false, rest). split.
      { apply run_digits. exists b. now repeat split. }
      exact Hq. }
    destruct Ht as [->|(c & Hc & ->)].
    + apply (Hgo ""); [|now rewrite append_nil_r].
      exists (false, ""). apply in_run_seq. exists (false, "").
      split; [apply in_run_opt; now left | now apply in_run_eol].
    + apply (Hgo (":" +:+ c)); [|reflexivity].
      exists (false, ""). apply in_run_seq. exists (false, "").
      split; [|now apply in_run_eol].
      apply in_run_opt. right.
      change (In (false, "")
                (RegExp.run (RegExp.Seq (RegExp.Chr ":")
                               (RegExp.Plus digitClass))
                   (false, ":" +:+ c))).
      apply in_run_seq. exists (false, c). split.
      * apply run_colon. now split.
      * apply run_digits. exists c. rewrite append_nil_r. now repeat split.
Qed.

(** ** SegmentParser: what the generic fallback yields *)

Lemma isNumeral_spec (a : string) :
  isNumeral a = true -> nonEmpty a = true /\ Str.all Char.isDigit a = true.
Proof. unfold isNumeral. intros H. now apply andb_prop in H. Qed.

Lemma hexValue_digit (c : ascii) : Char.isDigit c = true -> 0 <= hexValue c < 10.
Proof.
  intros H.
  destruct (digit_cases c H) as [->|[->|[->|[->|[->|[->|[->|[->|[->| ->]]]]]]]]];
    vm_compute; (split; [intros E; discriminate E | reflexivity]).
Qed.

Lemma valueFrom_digits_nonneg (s : string) : forall acc,
  Str.all Char.isDigit s = true -> 0 <= acc -> 0 <= valueFrom 10 acc s.
Proof.
  induction s as [|c s IH]; intros acc; cbn [Str.all valueFrom];
    [intros _ H; exact H|].
  intros H Hacc. apply andb_prop in H as [Hc Hs].
  apply IH; [assumption|]. pose proof (hexValue_digit c Hc). lia.
Qed.

(** A numeral has no colon, and [Number] reads it as a natural number. *)
Lemma Number_numeral (a : string) :
  isNumeral a = true ->
  Str.count ":" a = O /\ exists z, 0 <= z /\ Number a = ofZ z.
Proof.
  intros H. apply isNumeral_spec in H as [Hne Hall]. split.
  - now apply all_digits_count.
  - exists (valueIn 10 a). split.
    + now apply valueFrom_digits_nonneg.
    + now apply Number_digits.
Qed.

(** A text that passes the timestamp pattern parses to a natural number of
    seconds. *)
Lemma timestampPattern_parses (t : string) :
  RegExp.test timestampPattern t = true ->
  exists z, 0 <= z /\ timestampToSeconds t = ofZ z.
Proof.
  intros H. apply timestampPattern_spec in H as (a & b & Ha & Hb & Ht).
  apply Number_numeral in Ha as (Ca & za & Hza & Na).
  apply Number_numeral in Hb as (Cb & zb & Hzb & Nb).
  destruct Ht as [->|(c & Hc & ->)].
  - rewrite timestampToSeconds_ms by assumption.
    rewrite Na, Nb, mul_ofZ, add_ofZ. eexists. split; [|reflexivity]. lia.
  - apply Number_numeral in Hc as (Cc & zc & Hzc & Nc).
    rewrite timestampToSeconds_hms by assumption.
    rewrite Na, Nb, Nc, !mul_ofZ, !add_ofZ.
    eexists. split; [|reflexivity]. lia.
Qed.

(** The loop of the fallback adds, for every element, what the element
    alone gives. *)
Lemma fold_fallbackStep (allElements : list PanelElement.t) :
  forall potentialSegments,
  fold_left fallbackStep allElements potentialSegments =
  potentialSegments ++ flat_map (fallbackStep []) allElements.
Proof.
  induction allElements as [|el rest IH]; intros acc; cbn [fold_left flat_map].
  - now rewrite app_nil_r.
  - rewrite IH, app_assoc. f_equal.
    unfold fallbackStep.
    destruct (RegExp.test timestampPattern _ && _); [|now rewrite app_nil_r].
    destruct (PanelElement.nextElementSibling el) as [sibling|];
      [|now rewrite app_nil_r].
    destruct (0 <? String.length (Str.trim sibling))%nat;
      [reflexivity | now rewrite app_nil_r].
Qed.

(** Where a segment of the fallback comes from, and the tests it has
    passed. *)
Lemma genericFallback_In (allElements : list PanelElement.t) (seg : Segment.t) :
  In seg (genericFallback allElements) ->
  exists el sibling,
    In el allElements /\
    PanelElement.nextElementSibling el = Some sibling /\
    Segment.timestamp seg = Str.trim (PanelElement.textContent el) /\
    Segment.text seg = Str.trim sibling /\
    RegExp.test timestampPattern (Segment.timestamp seg) = true /\
    (String.length (Segment.timestamp seg) <= 8)%nat /\
    Segment.text seg <> "".
Proof.
  unfold genericFallback. rewrite fold_fallbackStep, app_nil_l.
  intros H. apply in_flat_map in H as (el & Hel & H).
  unfold fallbackStep in H.
  destruct (RegExp.test timestampPattern _) eqn:Htest; [|destruct H].
  destruct (String.length _ <=? 8)%nat eqn:Hlen; [|destruct H].
  cbn [andb] in H.
  destruct (PanelElement.nextElementSibling el) as [sibling|] eqn:Hsib;
    [|destruct H].
  destruct (0 <? String.length (Str.trim sibling))%nat eqn:Htext;
    [|destruct H].
  destruct H as [<-|[]]. cbn [Segment.timestamp Segment.text].
  exists el, sibling. repeat split; try assumption.
  - now apply Nat.leb_le.
  - intros E. rewrite E in Htext. discriminate.
Qed.

(** X11: every segment the generic fallback yields comes from an element
    of the panel and the element that follows it; its text is not empty;
    its timestamp has at most eight code units and is two or three
    numerals with colons between them, and [timestampToSeconds] reads it
    as a natural number of seconds, never as NaN. *)
Theorem fallback_segments_have_a_start
    (allElements : list PanelElement.t) (seg : Segment.t) :
  In seg (genericFallback allElements) ->
  (exists el sibling,
     In el allElements /\
     PanelElement.nextElementSibling el = Some sibling /\
     Segment.timestamp seg = Str.trim (PanelElement.textContent el) /\
     Segment.text seg = Str.trim sibling) /\
  Segment.text seg <> "" /\
  (String.length (Segment.timestamp seg) <= 8)%nat /\
  (exists a b,
     isNumeral a = true /\ isNumeral b = true /\
     (Segment.timestamp seg = a +:+ ":" +:+ b \/
      exists c, isNumeral c = true /\
                Segment.timestamp seg = a +:+ ":" +:+ b +:+ ":" +:+ c)) /\
  exists z, 0 <= z /\ timestampToSeconds (Segment.timestamp seg) = ofZ z.
Proof.
  intros H.
  apply genericFallback_In in H
    as (el & sibling & Hel & Hsib & Hts & Htxt & Htest & Hlen & Hne).
  split; [now exists el, sibling|]. split; [assumption|].
  split; [assumption|].
  split; [now apply timestampPattern_spec | now apply timestampPattern_parses].
Qed.

Lemma fallback_segments_have_a_start_witness :
  (exists el sibling,
     In el [ {| PanelElement.textContent := " 1:02:03 ";
                PanelElement.nextElementSibling := Some " hello there " |} ] /\
     PanelElement.nextElementSibling el = Some sibling /\
     Segment.timestamp (segment "1:02:03" "hello there") =
     Str.trim (PanelElement.textContent el) /\
     Segment.text (segment "1:02:03" "hello there") = Str.trim sibling) /\
  Segment.text (segment "1:02:03" "hello there") <> "" /\
  (String.length (Segment.timestamp (segment "1:02:03" "hello there")) <= 8)%nat /\
  (exists a b,
     isNumeral a = true /\ isNumeral b = true /\
     (Segment.timestamp (segment "1:02:03" "hello there") = a +:+ ":" +:+ b \/
      exists c, isNumeral c = true /\
                Segment.timestamp (segment "1:02:03" "hello there") =
                a +:+ ":" +:+ b +:+ ":" +:+ c)) /\
  exists z, 0 <= z /\
    timestampToSeconds (Segment.timestamp (segment "1:02:03" "hello there"))
    = ofZ z.
Proof.
  apply (fallback_segments_have_a_start
           [ {| PanelElement.textContent := " 1:02:03 ";
                PanelElement.nextElementSibling := Some " hello there " |} ]).
  vm_compute. now left.
Defined.

(** ** TimeCodec: the shape of a formatted timestamp *)

Lemma pad2_numeral (n : Z) : 0 <= n -> isNumeral (pad2 (IFin n)) = true.
Proof.
  intros Hn. unfold pad2, toString, isNumeral.
  destruct (Z.ltb_spec n 0) as [|_]; [lia|].
  destruct (digits_spec n Hn) as (Hall & Hne & _).
  destruct (padStart_zeros (digits n)) as (z & -> & Hz).
  rewrite all_append, (all_zeros_digits z Hz), Hall.
  destruct z; [now sapp; rewrite Hne | reflexivity].
Qed.

Lemma pad2_length (n : Z) :
  0 <= n < 100 -> String.length (pad2 (IFin n)) = 2%nat.
Proof.
  intros H. rewrite <- (Z2Nat.id n) by lia.
  assert (Hk : (Z.to_nat n < 100)%nat) by lia.
  revert Hk. generalize (Z.to_nat n). intros k Hk.
  do 100 (destruct k as [|k]; [reflexivity|]). lia.
Qed.

(** X12: for a natural number of seconds that the engine holds exactly,
    [secondsToTimestamp] gives a text that passes the timestamp pattern of
    the segment parser: two numerals with a colon below one hour, three
    from one hour on.  The text has five code units below one hour and
    eight from one hour up to a hundred hours, so that it also passes the
    length test of the parser. *)
Theorem formatted_timestamp_shape (s : Z) :
  0 <= s <= MAX_SAFE_INTEGER ->
  RegExp.test timestampPattern (secondsToTimestamp (ofZ s)) = true /\
  (s < 3600 -> String.length (secondsToTimestamp (ofZ s)) = 5%nat) /\
  (3600 <= s < 360000 -> String.length (secondsToTimestamp (ofZ s)) = 8%nat).
Proof.
  intros [Hs _]. unfold secondsToTimestamp.
  rewrite !rem_ofZ, !floor_div_ofZ, floor_ofZ by lia.
  cbn [ofIntegral]. rewrite gt_ofZ_0.
  assert (Hh : 0 <= s / 3600) by (apply Z.div_pos; lia).
  assert (Hm : 0 <= s mod 3600 / 60 < 60).
  { pose proof (Z.mod_pos_bound s 3600 ltac:(lia)).
    split; [apply Z.div_pos; lia | apply Z.div_lt_upper_bound; lia]. }
  assert (Hc : 0 <= s mod 60 < 60) by (apply Z.mod_pos_bound; lia).
  pose proof (pad2_numeral _ Hh) as Nh.
  pose proof (pad2_numeral _ (proj1 Hm)) as Nm.
  pose proof (pad2_numeral _ (proj1 Hc)) as Nc.
  pose proof (pad2_length (s mod 3600 / 60) ltac:(lia)) as Lm.
  pose proof (pad2_length (s mod 60) ltac:(lia)) as Lc.
  destruct (Z.ltb_spec 0 (s / 3600)) as [Hpos|Hzero].
  - split; [|split].
    + apply timestampPattern_spec.
      exists (pad2 (IFin (s / 3600))), (pad2 (IFin (s mod 3600 / 60))).
      split; [assumption|]. split; [assumption|].
      right. now exists (pad2 (IFin (s mod 60))).
    + intros Hlt. rewrite Z.div_small in Hpos by lia. lia.
    + intros Hlt.
      assert (s / 3600 < 100) by (apply Z.div_lt_upper_bound; lia).
      pose proof (pad2_length (s / 3600) ltac:(lia)) as Lh.
      rewrite !length_append, Lh, Lm, Lc. reflexivity.
  - split; [|split].
    + apply timestampPattern_spec.
      exists (pad2 (IFin (s mod 3600 / 60))), (pad2 (IFin (s mod 60))).
      split; [assumption|]. split; [assumption|]. now left.
    + intros _. rewrite !length_append, Lm, Lc. reflexivity.
    + intros Hge.
      assert (1 <= s / 3600) by (apply Z.div_le_lower_bound; lia). lia.
Qed.

Lemma formatted_timestamp_shape_witness :
  RegExp.test timestampPattern (secondsToTimestamp (ofZ 7325)) = true /\
  (7325 < 3600 -> String.length (secondsToTimestamp (ofZ 7325)) = 5%nat) /\
  (3600 <= 7325 < 360000 ->
   String.length (secondsToTimestamp (ofZ 7325)) = 8%nat).
Proof.
  apply (formatted_timestamp_shape 7325). unfold MAX_SAFE_INTEGER. lia.
Defined.

(** ** TranscriptAcquisition: which option is chosen *)

Lemma includes_part (s a b c : string) :
  Str.includes s (a +:+ b +:+ c) = true -> Str.includes s b = true.
Proof.
  rewrite !includes_spec. intros (pre & post & ->).
  exists (pre +:+ a), (c +:+ post). now rewrite !append_assoc.
Qed.

(** The five patterns of [autoGenOptions] come to one: in lower case each
    of them holds "auto", which is the last of them. *)
Lemma matchesAutoGen_auto (itemText : string) :
  matchesAutoGen itemText = Str.includes itemText "auto".
Proof.
  apply Bool.eq_iff_eq_true. unfold matchesAutoGen.
  rewrite existsb_exists. split.
  - intros (opt & Hin & H).
    destruct Hin as [<-|[<-|[<-|[<-|[<-|[]]]]]].
    + apply (includes_part itemText "" "auto" "-generated"). exact H.
    + apply (includes_part itemText "" "auto" "-generated"). exact H.
    + apply (includes_part itemText "english (" "auto" "-generated)"). exact H.
    + apply (includes_part itemText "english (" "auto" "-generated)"). exact H.
    + exact H.
  - intros H. exists "auto". split; [|exact H].
    unfold autoGenOptions. simpl. tauto.
Qed.

(** The loop over the menu items stops at the first item that passes the
    test, and passes over the whole menu when there is none. *)
Lemma findItem_spec (test : string -> bool) (menuItems : list string) :
  forall i,
  match findItem test i menuItems with
  | Some (j, itemText) =>
      exists k item,
        j = (i + k)%nat /\ menuItems !! k = Some item /\
        itemText = itemTextOf item /\ test itemText = true /\
        forall k' other, (k' < k)%nat -> menuItems !! k' = Some other ->
                         test (itemTextOf other) = false
  | None =>
      forall other, In other menuItems -> test (itemTextOf other) = false
  end.
Proof.
  induction menuItems as [|item rest IH]; intros i; cbn [findItem].
  - intros other [].
  - fold (itemTextOf item). destruct (test (itemTextOf item)) eqn:Htest.
    + exists O, item. rewrite Nat.add_0_r.
      repeat split; try reflexivity; try assumption.
      intros k' other Hk. lia.
    + specialize (IH (S i)).
      destruct (findItem test (S i) rest) as [[j itemText]|].
      * destruct IH as (k & it & -> & Hk & -> & Hpass & Hbefore).
        exists (S k), it. repeat split; try assumption; [lia|].
        intros [|k'] other Hlt; cbn; [now intros [= <-]|].
        apply Hbefore. lia.
      * intros other [<-|Hin]; [assumption | now apply IH].
Qed.

(** X13: the option clicked in the transcript menu.  An empty menu gives
    no click and "no-option-selected"; on every other menu one item is
    clicked: the first item whose text holds "auto"; when no item does,
    the first one whose text holds "english"; when none does either, the
    first item of the menu.  The texts are read trimmed and in lower
    case, so that the five patterns of the program select exactly the
    items that hold "auto". *)
Theorem transcript_option_priority (menuItems : list string) :
  match selectOption menuItems with
  | (None, answer) => menuItems = [] /\ answer = "no-option-selected"
  | (Some i, answer) =>
      exists item, menuItems !! i = Some item /\
        ((mentions "auto" item = true /\
          (forall j other, (j < i)%nat -> menuItems !! j = Some other ->
                           mentions "auto" other = false) /\
          answer = "selected-" +:+ itemTextOf item)
         \/
         ((forall other, In other menuItems -> mentions "auto" other = false) /\
          mentions "english" item = true /\
          (forall j other, (j < i)%nat -> menuItems !! j = Some other ->
                           mentions "english" other = false) /\
          answer = "selected-english-" +:+ itemTextOf item)
         \/
         ((forall other, In other menuItems ->
                         mentions "auto" other = false /\
                         mentions "english" other = false) /\
          i = O /\
          answer = "selected-first-" +:+ Str.trim item))
  end.
Proof.
  unfold selectOption, mentions.
  pose proof (findItem_spec matchesAutoGen menuItems O) as Hauto.
  destruct (findItem matchesAutoGen O menuItems) as [[i itemText]|].
  - destruct Hauto as (k & item & -> & Hk & -> & Hpass & Hbefore).
    exists item. split; [assumption|]. left.
    rewrite matchesAutoGen_auto in Hpass. split; [assumption|].
    split; [|reflexivity].
    intros j other Hj Hother. rewrite <- matchesAutoGen_auto.
    apply (Hbefore j); [lia | assumption].
  - assert (Hnone : forall other, In other menuItems ->
                      Str.includes (itemTextOf other) "auto" = false).
    { intros other Hin. rewrite <- matchesAutoGen_auto. now apply Hauto. }
    pose proof (findItem_spec (fun t => Str.includes t "english") menuItems O)
      as Heng.
    destruct (findItem _ O menuItems) as [[i itemText]|].
    + destruct Heng as (k & item & -> & Hk & -> & Hpass & Hbefore).
      exists item. split; [assumption|]. right; left.
      split; [assumption|]. split; [assumption|]. split; [|reflexivity].
      intros j other Hj Hother. apply (Hbefore j); [lia | assumption].
    + destruct menuItems as [|first rest]; [now split|].
      exists first. split; [reflexivity|]. right; right.
      split; [|now split].
      intros other Hin. split; [now apply Hnone | now apply Heng].
Qed.

(** ** The keywords of the command line *)







(** ** The name of the results file *)

(** What [sanitize] makes of one code unit. *)
Lemma sanitize_cons (c : ascii) (s : string) :
  exists d, sanitize (String c s) = String d (sanitize s) /\
            isNameChar d = true /\
            sanitize (String d "") = String d "".
Proof.
  unfold sanitize. cbn [mapChars Str.toLowerCase]. eexists.
  split; [reflexivity|].
  destruct c as [[] [] [] [] [] [] [] []]; split; reflexivity.
Qed.

Lemma sanitize_append (a b : string) :
  sanitize (a +:+ b) = sanitize a +:+ sanitize b.
Proof.
  induction a as [|c a IH]; sapp; [reflexivity|].
  unfold sanitize in *. cbn [mapChars Str.toLowerCase]. sapp.
  now rewrite IH.
Qed.

Lemma sanitize_spec (s : string) :
  Str.all isNameChar (sanitize s) = true /\
  String.length (sanitize s) = String.length s /\
  sanitize (sanitize s) = sanitize s.
Proof.
  induction s as [|c s (Hall & Hlen & Hidem)]; [repeat split|].
  destruct (sanitize_cons c s) as (d & -> & Hd & Hfix).
  cbn [Str.all String.length]. rewrite Hd, Hall, Hlen.
  repeat split.
  change (String d (sanitize s)) with (String d "" +:+ sanitize s) at 1.
  rewrite sanitize_append, Hfix, Hidem. reflexivity.
Qed.

Lemma all_count (g : ascii -> bool) (c : ascii) (s : string) :
  g c = false -> Str.all g s = true -> Str.count c s = O.
Proof.
  intros Hc. induction s as [|d s IH]; cbn [Str.all Str.count];
    [reflexivity|].
  intros H. apply andb_prop in H as [Hd Hs]. rewrite (IH Hs).
  destruct (Ascii.eqb_spec d c) as [->|_]; [congruence | reflexivity].
Qed.

Lemma joinWith_sanitized (keywords : list string) :
  Str.all isNameChar (joinWith "_" (List.map sanitize keywords)) = true.
Proof.
  induction keywords as [|k rest IH]; [reflexivity|].
  cbn [List.map joinWith] in *.
  destruct (List.map sanitize rest) as [|r rs].
  - apply sanitize_spec.
  - rewrite !all_append, IH, (proj1 (sanitize_spec k)). reflexivity.
Qed.

(** X15: the name of the results file is a stem of lower-case letters,
    digits and underscores with ".json" behind it, whatever the query and
    the keywords hold: it has no slash, no backslash and one dot, so that
    the file is written in the transcript folder itself.  Sanitizing keeps
    the length of a text and changes nothing in a sanitized text. *)
Theorem results_filename_is_plain (query : string) (keywords : list string) :
  (exists stem,
     resultsFilename query keywords = stem +:+ ".json" /\
     Str.all isNameChar stem = true) /\
  Str.count "/" (resultsFilename query keywords) = O /\
  Str.count "\" (resultsFilename query keywords) = O /\
  Str.count "." (resultsFilename query keywords) = 1%nat /\
  String.length (sanitize query) = String.length query /\
  sanitize (sanitize query) = sanitize query.
Proof.
  pose proof (sanitize_spec query) as (Hq & Hlen & Hidem).
  pose proof (joinWith_sanitized keywords) as Hk.
  assert (Hstem : Str.all isNameChar
                    (sanitize query +:+ "_" +:+
                     joinWith "_" (List.map sanitize keywords)) = true)
    by now rewrite !all_append, Hq, Hk.
  assert (Hname : resultsFilename query keywords =
                  (sanitize query +:+ "_" +:+
                   joinWith "_" (List.map sanitize keywords)) +:+ ".json")
    by (unfold resultsFilename; now rewrite !append_assoc).
  split; [eexists; split; [exact Hname | exact Hstem]|].
  rewrite Hname.
  set (stem := sanitize query +:+ "_" +:+
               joinWith "_" (List.map sanitize keywords)) in *.
  rewrite !(count_append _ stem).
  rewrite (all_count isNameChar "/" _ eq_refl Hstem),
    (all_count isNameChar "\" _ eq_refl Hstem),
    (all_count isNameChar "." _ eq_refl Hstem).
  repeat split; assumption.
Qed.

(** ** The results of a run *)

Section ResultFacts.

Context {Browser : Type}.
Variable acquireTranscript : string -> Browser -> Browser * result acquisition.
Variable keywords : list string.
Variable exactPhraseSearch : bool.

(** What the matcher and the duplicate filter leave for one transcript. *)
Lemma filtered_matches (videoUrl : string) (segments : list Segment.t)
    (keywordMatches : list KeywordMatch.t) :
  findKeywordMatches videoUrl keywords exactPhraseSearch segments
  = Ok keywordMatches ->
  NoDup (matchKey <$> filterDuplicates keywordMatches) /\
  Forall (fun m =>
            KeywordMatch.keyword m ∈ keywords /\
            KeywordMatch.url m =
            videoUrl +:+ "&t=" +:+ toString (KeywordMatch.preciseTimeSeconds m))
    (filterDuplicates keywordMatches).
Proof.
  rewrite findKeywordMatches_spec. intros [= <-].
  rewrite filterDuplicates_firstSeen. split; [apply firstSeen_NoDup|].
  apply Forall_forall. intros m Hm.
  apply firstSeen_fresh in Hm as (Hm & _).
  apply elem_of_matches in Hm as (i & seg & keyword & _ & Hk & _ & ->).
  split; [exact Hk | reflexivity].
Qed.

(** One candidate adds at most one result, which is one for it. *)
Lemma processCandidate_results (st : RunState Browser) (videoUrl : string) :
  exists added,
    transcriptResults
      (fst (processCandidate acquireTranscript keywords exactPhraseSearch
              st videoUrl))
    = transcriptResults st ++ added /\
    (added = [] \/
     exists r, added = [r] /\ resultFor keywords videoUrl r).
Proof.
  unfold processCandidate, tryBlock.
  cbn [logTo browser console transcriptResults].
  destruct (acquireTranscript videoUrl (browser st))
    as [b [[id title segs|]|e]];
    try (exists []; cbn [fst transcriptResults logTo];
         split; [now rewrite app_nil_r | now left]).
  destruct (findKeywordMatches videoUrl keywords exactPhraseSearch segs)
    as [ms|e] eqn:Hms;
    [|exists []; cbn [fst transcriptResults logTo];
      split; [now rewrite app_nil_r | now left]].
  destruct (filtered_matches videoUrl segs ms Hms) as [Hnodup Hall].
  destruct (0 <? length (filterDuplicates ms))%nat eqn:Hlen;
    [|exists []; cbn [fst transcriptResults logTo];
      split; [now rewrite app_nil_r | now left]].
  eexists. cbn [fst transcriptResults logTo]. split; [reflexivity|].
  right. eexists. split; [reflexivity|].
  unfold resultFor. cbn [VideoResult.url VideoResult.matches].
  repeat split; try assumption.
  intros E. rewrite E in Hlen. discriminate.
Qed.

Lemma processCandidates_results (videoLinks : list string) :
  forall st,
  exists added,
    transcriptResults
      (fst (processCandidates acquireTranscript keywords exactPhraseSearch
              videoLinks st))
    = transcriptResults st ++ added /\
    (VideoResult.url <$> added) `sublist_of` videoLinks /\
    Forall (fun r => resultFor keywords (VideoResult.url r) r) added.
Proof.
  induction videoLinks as [|u rest IH]; intros st.
  - exists []. cbn. rewrite app_nil_r. repeat split; constructor.
  - rewrite processCandidates_cons.
    destruct (processCandidate_results st u) as (a1 & H1 & Ha1).
    destruct (IH (fst (processCandidate acquireTranscript keywords
                         exactPhraseSearch st u))) as (a2 & H2 & Hs2 & Hf2).
    exists (a1 ++ a2). rewrite H2, H1, app_assoc.
    split; [reflexivity|].
    destruct Ha1 as [->|(r & -> & Hr)]; cbn [app fmap list_fmap].
    + split; [now apply sublist_cons | assumption].
    + pose proof Hr as (Hu & _). split.
      * rewrite Hu. now apply sublist_skip.
      * constructor; [now rewrite Hu | assumption].
Qed.

End ResultFacts.

(** X16: what a run adds to the results.  The results it had stay in
    front; the results added come in the order of the candidates, at most
    one for a candidate; every one of them carries the address of its
    candidate and at least one match, no two of its matches have the same
    resolved second and text, and every match is for one of the keywords
    and links to the address of the candidate with "&t=" and the resolved
    second behind it. *)
Theorem run_adds_results_in_order
    {Browser : Type}
    (acquireTranscript : string -> Browser -> Browser * result acquisition)
    (keywords : list string) (exactPhraseSearch : bool)
    (videoLinks : list string) (st final : RunState Browser)
    (outcome : result unit) :
  processCandidates acquireTranscript keywords exactPhraseSearch videoLinks st
  = (final, outcome) ->
  exists added,
    transcriptResults final = transcriptResults st ++ added /\
    (VideoResult.url <$> added) `sublist_of` videoLinks /\
    Forall (fun r => resultFor keywords (VideoResult.url r) r) added /\
    Forall (fun r =>
              forall a b, a ∈ VideoResult.matches r ->
                          b ∈ VideoResult.matches r ->
                          samePair a b -> a = b) added.
Proof.
  intros Hrun.
  destruct (processCandidates_results acquireTranscript keywords
              exactPhraseSearch videoLinks st) as (added & Hres & Hsub & Hall).
  rewrite Hrun in Hres. cbn [fst] in Hres.
  exists added. repeat split; try assumption.
  eapply Forall_impl; [exact Hall|].
  intros r (_ & _ & Hnodup & _) a b Ha Hb Hsame.
  apply matchKey_samePair in Hsame.
  apply list_elem_of_lookup in Ha as (i & Hi).
  apply list_elem_of_lookup in Hb as (j & Hj).
  assert (i = j).
  { eapply NoDup_lookup; [exact Hnodup| |];
      rewrite list_lookup_fmap; [rewrite Hi | rewrite Hj]; cbn;
      [reflexivity | now rewrite Hsame]. }
  subst j. congruence.
Qed.

Lemma run_adds_results_in_order_witness :
  exists added,
    transcriptResults
      (fst (processCandidates flakyBrowser ["agent"] false threeCandidates
              {| browser := tt; transcriptResults := []; console := [] |}))
    = [] ++ added /\
    (VideoResult.url <$> added) `sublist_of` threeCandidates /\
    Forall (fun r => resultFor ["agent"] (VideoResult.url r) r) added /\
    Forall (fun r =>
              forall a b, a ∈ VideoResult.matches r ->
                          b ∈ VideoResult.matches r ->
                          samePair a b -> a = b) added.
Proof.
  apply (run_adds_results_in_order flakyBrowser ["agent"] false
           threeCandidates
           {| browser := tt; transcriptResults := []; console := [] |}
           _
           (snd (processCandidates flakyBrowser ["agent"] false
                   threeCandidates
                   {| browser := tt; transcriptResults := [];
                      console := [] |}))).
  apply surjective_pairing.
Defined.

(** ** From the fallback to the matches *)

(** X17: a transcript read by the generic fallback never gives a match
    without a time: every match found in its segments is resolved to a
    natural number of seconds, not to NaN and not to a negative number,
    also when the segments are out of order, and its formatted timestamp
    parses back to that number. *)
Theorem fallback_matches_have_a_second
    (videoUrl : string) (keywords : list string) (exactPhraseSearch : bool)
    (allElements : list PanelElement.t)
    (keywordMatches : list KeywordMatch.t) (m : KeywordMatch.t) :
  findKeywordMatches videoUrl keywords exactPhraseSearch
    (genericFallback allElements) = Ok keywordMatches ->
  m ∈ keywordMatches ->
  exists p,
    0 <= p /\
    KeywordMatch.preciseTimeSeconds m = IFin p /\
    timestampToSeconds (KeywordMatch.preciseTimestamp m) = ofZ p.
Proof.
  intros Hrun Hm. rewrite findKeywordMatches_spec in Hrun.
  injection Hrun as <-.
  apply elem_of_matches in Hm as (i & seg & kw & Hseg & _ & _ & ->).
  assert (Hok : forall j sg,
            genericFallback allElements !! j = Some sg ->
            Segment.text sg <> "" /\
            exists z, 0 <= z /\ startOf sg = ofZ z).
  { intros j sg Hj. apply list_elem_of_lookup_2, list_elem_of_In in Hj.
    apply genericFallback_In in Hj
      as (el & sibling & _ & _ & _ & _ & Htest & _ & Hne).
    split; [assumption | now apply timestampPattern_parses]. }
  destruct (Hok i seg Hseg) as (Hne & s & Hs0 & Hs).
  assert (He : exists e, 0 <= e /\
                 endOf (genericFallback allElements) i seg = ofZ e).
  { unfold endOf.
    destruct (genericFallback allElements !! S i) as [next|] eqn:Hnext.
    - destruct (Hok (S i) next Hnext) as (_ & e & He0 & He). now exists e.
    - exists (s + 5). rewrite Hs, add_ofZ. split; [lia | reflexivity]. }
  destruct He as (e & He0 & He).
  pose proof (keywordIndex_bounds (Segment.text seg) kw Hne) as Hidx.
  set (idx := Z.max 0 _) in Hidx.
  set (len := Z.of_nat (String.length (Segment.text seg))) in Hidx.
  assert (Hp : preciseOf seg
                 (durationOf (genericFallback allElements) i seg) kw =
               IFin (s + (2 * idx * (e - s) + len) / (2 * len))).
  { unfold preciseOf, durationOf.
    rewrite He, Hs, sub_ofZ, (estimateKeywordPosition_ratio _ _ Hne).
    apply round_formula. lia. }
  assert (H0 : 0 <= s + (2 * idx * (e - s) + len) / (2 * len)).
  { destruct (offset_bounds s (e - s) idx len Hidx) as [Hpos Hneg].
    destruct (Z.le_ge_cases s e) as [Hd|Hd];
      [specialize (Hpos ltac:(lia)) | specialize (Hneg ltac:(lia))]; lia. }
  exists (s + (2 * idx * (e - s) + len) / (2 * len)).
  cbn [matchOf KeywordMatch.preciseTimeSeconds KeywordMatch.preciseTimestamp].
  rewrite Hp. split; [assumption|]. split; [reflexivity|].
  now apply parse_format.
Qed.

Lemma fallback_matches_have_a_second_witness :
  exists p,
    0 <= p /\
    KeywordMatch.preciseTimeSeconds
      (matchOf "https://www.youtube.com/watch?v=abc"
         (segment "0:10" "the quick agent runs") (ofZ 10) "agent") = IFin p /\
    timestampToSeconds
      (KeywordMatch.preciseTimestamp
         (matchOf "https://www.youtube.com/watch?v=abc"
            (segment "0:10" "the quick agent runs") (ofZ 10) "agent"))
    = ofZ p.
Proof.
  apply (fallback_matches_have_a_second
           "https://www.youtube.com/watch?v=abc" ["agent"] false timedPanel
           (matchesOrNone
              (findKeywordMatches "https://www.youtube.com/watch?v=abc"
                 ["agent"] false (genericFallback timedPanel)))).
  - vm_compute. reflexivity.
  - vm_compute. apply list_elem_of_here.
Defined.
